(** * Relationship store, cortex nodes and correlation engine of the
    decoupled multimodal learning project, embedded in Rocq.

    Source files: src/db/one_to_many_table.py, src/db/basic_table.py,
    src/db/database.py, src/modules/cortex/{node,cluster,node_manager}.py,
    src/modules/cdz/{cdz,cluster_correlation}.py.

    Python floats are modelled as exact rationals [Q]; Python objects are
    identified by their [name] attribute (the key of every table).  Python
    exceptions are modelled by a state/exception monad in which the state
    reached at the [raise] is kept, as in Python, where mutations done before
    an exception are not rolled back. *)

From Stdlib Require Import QArith Qabs Qminmax Qfield Lia Lqa.
From stdpp Require Import base gmap strings list pretty.

Open Scope Q_scope.

(** ** Exceptions and the state/exception monad *)

Inductive Exc :=
  | KeyError
  | ValueError
  | IndexError
  | TypeError
  | AssertionError
  | AttributeError
  | Exception (msg : string)
  (** a Python object reference that does not resolve; Python references
      always resolve, so no run of the source reaches this *)
  | NoObject.

Inductive res (A : Type) := Ok (a : A) | Err (e : Exc).
Arguments Ok {A} a.
Arguments Err {A} e.

Definition M (S A : Type) : Type := S -> S * res A.

Definition ret {S A} (a : A) : M S A := fun s => (s, Ok a).
Definition bind {S A B} (m : M S A) (f : A -> M S B) : M S B :=
  fun s => match m s with
           | (s', Ok a) => f a s'
           | (s', Err e) => (s', Err e)
           end.
Definition raise {S A} (e : Exc) : M S A := fun s => (s, Err e).
Definition get_st {S} : M S S := fun s => (s, Ok s).
Definition put_st {S} (s : S) : M S unit := fun _ => (s, Ok tt).
Definition of_option {S A} (e : Exc) (o : option A) : M S A :=
  match o with Some a => ret a | None => raise e end.
Definition assert_ {S} (b : bool) : M S unit :=
  if b then ret tt else raise AssertionError.

Notation "x <-- m ;; k" := (bind m (fun x => k))
  (at level 98, m at next level, right associativity).
Notation "m ;;; k" := (bind m (fun _ => k))
  (at level 98, right associativity).

(** [for x in xs: f(x)] *)
Fixpoint for_each {S A} (f : A -> M S unit) (xs : list A) : M S unit :=
  match xs with
  | [] => ret tt
  | x :: xs' => f x ;;; for_each f xs'
  end.

(** ** Python list helpers *)

(** [sum(l)]: a left fold from 0. *)
Definition qsum (l : list Q) : Q := fold_left Qplus l 0.

(** [l.index(x)]: position of the first occurrence. *)
Fixpoint list_index (x : string) (l : list string) : option nat :=
  match l with
  | [] => None
  | y :: l' => if String.eqb x y then Some 0%nat
               else option_map S (list_index x l')
  end.

(** [l.remove(x)]: drops the first occurrence. *)
Fixpoint remove_first (x : string) (l : list string) : list string :=
  match l with
  | [] => []
  | y :: l' => if String.eqb x y then l' else y :: remove_first x l'
  end.

(** [l.pop(i)]: [None] stands for the [IndexError]. *)
Fixpoint pop_at {A} (i : nat) (l : list A) : option (list A) :=
  match l, i with
  | [], _ => None
  | _ :: l', O => Some l'
  | y :: l', S i' => option_map (cons y) (pop_at i' l')
  end.

(** [l[i] = v] on an existing index; [None] is the [IndexError]. *)
Definition set_at {A} (i : nat) (v : A) (l : list A) : option (list A) :=
  if decide (i < length l)%nat then Some (<[i:=v]> l) else None.

(** ** numpy vectors (positions and encodings) *)

Definition Vec := list Q.

(** Element-wise binary operation; mismatched shapes raise. *)
Definition vzip (f : Q -> Q -> Q) (a b : Vec) : option Vec :=
  if Nat.eqb (length a) (length b) then Some (zip_with f a b) else None.

Definition vdiv (a : Vec) (c : Q) : Vec := map (fun x => x / c) a.

(** ** OneToManyTable (src/db/one_to_many_table.py)

    The key of [data] is [item.name]; the ['obj'] field is the item itself
    and is represented by its name. *)

Record Entry := mkEntry {
  e_list : list string;
  e_strengths : list Q;
  e_position : list (option Vec);
  e_count : list Z
}.

Abbreviation Table := (gmap string Entry).

Definition set_list (l : list string) (e : Entry) : Entry :=
  mkEntry l (e_strengths e) (e_position e) (e_count e).
Definition set_strengths (l : list Q) (e : Entry) : Entry :=
  mkEntry (e_list e) l (e_position e) (e_count e).
Definition set_position (l : list (option Vec)) (e : Entry) : Entry :=
  mkEntry (e_list e) (e_strengths e) l (e_count e).
Definition set_count (l : list Z) (e : Entry) : Entry :=
  mkEntry (e_list e) (e_strengths e) (e_position e) l.

Section OneToManyTable.

(** [self.data[item.name]] *)
Definition get (item : string) : M Table Entry :=
  fun t => match t !! item with
           | Some e => (t, Ok e)
           | None => (t, Err KeyError)
           end.

Definition put_entry (item : string) (e : Entry) : M Table unit :=
  fun t => (<[item := e]> t, Ok tt).

(** [add(item, related_items, strengths, position)] *)
Definition add (item : string) (related : list string) (strengths : list Q)
    (position : option Vec) : M Table unit :=
  fun t => match t !! item with
           | None => (<[item := mkEntry related strengths [position] [1%Z]]> t, Ok tt)
           | Some _ => (t, Err (Exception "Item already in table"))
           end.

(** [remove(item)]: [del self.data[item.name]] *)
Definition remove (item : string) : M Table unit :=
  fun t => match t !! item with
           | Some _ => (delete item t, Ok tt)
           | None => (t, Err KeyError)
           end.

(** [_normalize(list_to_n)]; quotients are kept in lowest terms ([Qred]
    does not change the value). *)
Definition _normalize (l : list Q) : M Table (list Q) :=
  let total := qsum l in
  if Qle_bool total 0 then
    raise (Exception "Cannot normalize a list with a total of zero or less.")
  else ret (map (fun x => Qred (x / total)) l).

(** [_normalize_item(item)] *)
Definition _normalize_item (item : string) : M Table unit :=
  e <-- get item ;;
  l <-- _normalize (e_strengths e) ;;
  e <-- get item ;;
  put_entry item (set_strengths l e).

(** [add_related_item(item, related_item, strength=1, position=None)] *)
Definition add_related_item (item related : string) (strength : Q)
    (position : option Vec) : M Table unit :=
  (fun t => match t !! item with
            | None => add item [related] [1] position t
            | Some e =>
                if decide (related ∈ e_list e) then
                  (t, Err (Exception "The item is already related."))
                else
                  (<[item := mkEntry (e_list e ++ [related])
                                     (e_strengths e ++ [strength])
                                     (e_position e ++ [position])
                                     (e_count e ++ [1%Z])]> t, Ok tt)
            end) ;;;
  _normalize_item item.

(** [remove_related_item(item, related_item)]: each statement mutates the
    entry in turn, so a failing [pop] leaves the earlier changes in place. *)
Definition remove_related_item (item related : string) : M Table unit :=
  e <-- get item ;;
  idx <-- of_option ValueError (list_index related (e_list e)) ;;
  put_entry item (set_list (remove_first related (e_list e)) e) ;;;
  e <-- get item ;;
  s <-- of_option IndexError (pop_at idx (e_strengths e)) ;;
  put_entry item (set_strengths s e) ;;;
  e <-- get item ;;
  p <-- of_option IndexError (pop_at idx (e_position e)) ;;
  put_entry item (set_position p e) ;;;
  e <-- get item ;;
  c <-- of_option IndexError (pop_at idx (e_count e)) ;;
  put_entry item (set_count c e) ;;;
  e <-- get item ;;
  if Nat.ltb 0 (length (e_list e)) then _normalize_item item else ret tt.

(** [is_related(item, related_item)] *)
Definition is_related (item related : string) (t : Table) : bool :=
  match t !! item with
  | None => false
  | Some e => bool_decide (related ∈ e_list e)
  end.

(** [increase_relationship_strength(item, related_item, amount, position)] *)
Definition increase_relationship_strength (item related : string) (amount : Q)
    (position : option Vec) : M Table unit :=
  t <-- get_st ;;
  assert_ (is_related item related t) ;;;
  e <-- get item ;;
  idx <-- of_option ValueError (list_index related (e_list e)) ;;
  s <-- of_option IndexError (e_strengths e !! idx) ;;
  l <-- of_option IndexError (set_at idx (s + amount) (e_strengths e)) ;;
  put_entry item (set_strengths l e) ;;;
  e <-- get item ;;
  c <-- of_option IndexError (e_count e !! idx) ;;
  l <-- of_option IndexError (set_at idx (c + 1)%Z (e_count e)) ;;
  put_entry item (set_count l e) ;;;
  e <-- get item ;;
  old <-- of_option IndexError (e_position e !! idx) ;;
  match old with
  | Some old_pos =>
      (* new_pos = old_pos + (position - old_pos) / count[idx] *)
      newp <-- of_option TypeError position ;;
      d <-- of_option ValueError (vzip Qminus newp old_pos) ;;
      cnt <-- of_option IndexError (e_count e !! idx) ;;
      new_pos <-- of_option ValueError (vzip Qplus old_pos (vdiv d (inject_Z cnt))) ;;
      l <-- of_option IndexError (set_at idx (Some new_pos) (e_position e)) ;;
      put_entry item (set_position l e)
  | None =>
      l <-- of_option IndexError (set_at idx position (e_position e)) ;;
      put_entry item (set_position l e)
  end ;;;
  _normalize_item item.

End OneToManyTable.

(** ** Database (src/db/database.py) *)

(** The two [BasicTable]s are kept as name sets: [add] overwrites and
    [remove] raises [KeyError] on a missing name. *)
Record DB := mkDB {
  nodes : gset string;
  clusters : gset string;
  nodes_to_clusters : Table;
  clusters_to_nodes : Table;
  node_manager_to_nodes : Table
}.

Definition on_n2c {A} (m : M Table A) : M DB A :=
  fun d => let '(t, r) := m (nodes_to_clusters d) in
           (mkDB (nodes d) (clusters d) t (clusters_to_nodes d) (node_manager_to_nodes d), r).
Definition on_c2n {A} (m : M Table A) : M DB A :=
  fun d => let '(t, r) := m (clusters_to_nodes d) in
           (mkDB (nodes d) (clusters d) (nodes_to_clusters d) t (node_manager_to_nodes d), r).
Definition on_nm2n {A} (m : M Table A) : M DB A :=
  fun d => let '(t, r) := m (node_manager_to_nodes d) in
           (mkDB (nodes d) (clusters d) (nodes_to_clusters d) (clusters_to_nodes d) t, r).

Definition basic_add (x : string) (s : gset string) : gset string := {[x]} ∪ s.

Definition nodes_add (x : string) : M DB unit :=
  fun d => (mkDB (basic_add x (nodes d)) (clusters d) (nodes_to_clusters d)
                 (clusters_to_nodes d) (node_manager_to_nodes d), Ok tt).
Definition clusters_add (x : string) : M DB unit :=
  fun d => (mkDB (nodes d) (basic_add x (clusters d)) (nodes_to_clusters d)
                 (clusters_to_nodes d) (node_manager_to_nodes d), Ok tt).
Definition nodes_remove (x : string) : M DB unit :=
  fun d => if decide (x ∈ nodes d)
           then (mkDB (nodes d ∖ {[x]}) (clusters d) (nodes_to_clusters d)
                      (clusters_to_nodes d) (node_manager_to_nodes d), Ok tt)
           else (d, Err KeyError).
Definition clusters_remove (x : string) : M DB unit :=
  fun d => if decide (x ∈ clusters d)
           then (mkDB (nodes d) (clusters d ∖ {[x]}) (nodes_to_clusters d)
                      (clusters_to_nodes d) (node_manager_to_nodes d), Ok tt)
           else (d, Err KeyError).

Section Database.

(** [node.cortex.node_manager]: fixed when the node object is built. *)
Variable node_manager_of : string -> string.

(** [add_node(node, cluster, initial=False)] *)
Definition add_node (node cluster : string) : M DB unit :=
  nodes_add node ;;;
  clusters_add cluster ;;;
  on_n2c (add node [cluster] [1] None) ;;;
  on_c2n (add cluster [node] [1] None) ;;;
  on_nm2n (add_related_item (node_manager_of node) node 1 None).

(** [get_clusters_nodes(cluster)] *)
Definition get_clusters_nodes (cluster : string) : M DB (list string) :=
  e <-- on_c2n (get cluster) ;; ret (e_list e).

(** [get_nodes_clusters(node)] *)
Definition get_nodes_clusters (node : string) : M DB (list string) :=
  e <-- on_n2c (get node) ;; ret (e_list e).

(** [delete_node(node)] *)
Definition delete_node (node : string) : M DB unit :=
  nodes_remove node ;;;
  cs <-- get_nodes_clusters node ;;
  for_each (fun cluster => on_c2n (remove_related_item cluster node)) cs ;;;
  on_n2c (remove node) ;;;
  on_nm2n (remove_related_item (node_manager_of node) node).

(** The loop body of [_delete_cluster(cluster, force=True)]. *)
Definition detach_node (cluster node : string) : M DB unit :=
  on_n2c (remove_related_item node cluster) ;;;
  on_c2n (remove_related_item cluster node) ;;;
  cs <-- get_nodes_clusters node ;;
  if Nat.eqb (length cs) 0 then delete_node node else ret tt.

(** [_delete_cluster(cluster, force)].  Its last statement,
    [cluster.cdz.remove_cluster(cluster)], acts on the correlation engine
    only (see [remove_cluster] below) and is not part of this store model:
    the tables are the same whether or not that call raises. *)
Definition _delete_cluster (cluster : string) (force : bool) : M DB unit :=
  (if force then
     ns <-- get_clusters_nodes cluster ;;
     for_each (detach_node cluster) ns
   else ret tt) ;;;
  ns <-- get_clusters_nodes cluster ;;
  assert_ (Nat.eqb (length ns) 0) ;;;
  clusters_remove cluster ;;;
  on_c2n (remove cluster).

(** [adjust_node_to_cluster_strength(node, cluster, amount, last_encoding)] *)
Definition adjust_node_to_cluster_strength (node cluster : string) (amount : Q)
    (last_encoding : option Vec) : M DB unit :=
  d <-- get_st ;;
  let is_node_related := is_related node cluster (nodes_to_clusters d) in
  let is_cluster_related := is_related node cluster (nodes_to_clusters d) in
  assert_ (Bool.eqb is_node_related is_cluster_related) ;;;
  if negb is_node_related then
    on_n2c (add_related_item node cluster amount last_encoding) ;;;
    on_c2n (add_related_item cluster node amount None)
  else
    on_n2c (increase_relationship_strength node cluster amount last_encoding).

(** [adjust_cluster_to_node_strength(cluster, node, amount)] *)
Definition adjust_cluster_to_node_strength (cluster node : string) (amount : Q) : M DB unit :=
  on_c2n (increase_relationship_strength cluster node amount None).

End Database.

(** ** Configuration (src/config.py) *)

Definition CLUSTER_NODE_LEARNING_RATE : Q := 2 # 100.
Definition NODE_POSITION_LEARNING_RATE : Q := 4 # 100.
Definition NODE_POSITION_MOMENTUM_DECAY : Q := 1 # 2.
Definition NODE_POSITION_MOMENTUM_ALPHA : Q := 0.
Definition NODE_TO_CLUSTER_LEARNING_RATE : Q := 5 # 100.
Definition NODE_IS_NEW : Z := 25.
Definition NODE_CERTAINTY_AGE_FACTOR : Z := NODE_IS_NEW.
Definition NRND_OPTIMIZER_ENABLED : bool := true.
Definition AVG_DISTANCE_MOMENTUM_DECAY : Q := 1 # 2.
Definition MAX_NODES : nat := 6000.
Definition INITIAL_NODES : nat := 250.
Definition CE_LEARNING_RATE : Q := 2 # 100.
Definition CE_IGNORE_GAUSSIAN : bool := true.
Definition CE_CORRELATION_WINDOW_MAX : Z := 10.
Definition CE_CERTAINTY_AGE_FACTOR : Z := NODE_CERTAINTY_AGE_FACTOR.
Definition CLUSTER_REQUIRED_UTILIZATION : Z := 27500.

(** The kernel of [CDZ.__init__]: the first half of
    [signal.gaussian(2 * CE_CORRELATION_WINDOW_MAX, std=0.65)], reversed
    (here as rational approximations of its ten values), or, when
    [CE_IGNORE_GAUSSIAN], the degenerate kernel [1, 0, ..., 0]. *)
Definition bell_gaussian : list Q :=
  [7436 # 10000; 697 # 10000; 6 # 10000; 1 # 1000000; 1 # 100000000;
   1 # 10000000000; 1 # 1000000000000; 1 # 100000000000000;
   1 # 10000000000000000; 1 # 1000000000000000000].

Definition make_gaussian (ignore : bool) : list Q :=
  if ignore then 1 :: repeat 0 (Z.to_nat CE_CORRELATION_WINDOW_MAX - 1) else bell_gaussian.

(** ** Objects of the cortex (src/modules/cortex) and of the CDZ *)

(** The mutable fields of a [Node]; its name is its key on the heap. *)
Record NodeObj := mkNodeObj {
  (** [node.cortex], by name; a cortex has one node manager *)
  n_cortex : string;
  created_at : Z;
  position : Vec;
  (** [None] is the initial scalar [0] *)
  position_momentum : option Vec;
  qty_feedback_packets : Z;
  last_utilized : option Z;
  last_encoding : option Vec
}.

Record ClusterObj := mkClusterObj {
  c_cortex : string;
  c_created_at : Z;
  last_fired : option Z;
  last_feedback_packet : option Z;
  REQUIRED_UTILIZATION : Z
}.

(** The fields of a [NodeManager]; [nn_index] is the Annoy index, stored as
    the node positions it was built from. *)
Record NMObj := mkNMObj {
  last_fired_node : option string;
  finished_initial : bool;
  nn_index : option (list Vec);
  avg_distance : Q;
  distance_count : Z;
  avg_distance_momentum : Q
}.

(** [DataPacket(source_cluster, strength, time, source_node)] *)
Record DataPacket := mkPacket {
  pk_cluster : string;
  pk_strength : Q;
  pk_time : Z;
  pk_source_node : string
}.

(** [ClusterCorrelation]: [connections] is a [defaultdict(int)] in insertion
    order, [cluster_objects] a dict name -> cluster (its keys, in insertion
    order), [ref_clusters] a list of clusters. *)
Record ClusterCorrelation := mkCC {
  cc_cluster : string;
  cc_age : Z;
  connections : list (string * Q);
  cluster_objects : list string;
  ref_clusters : list string
}.

Record CDZ := mkCDZ {
  GAUSSIAN : list Q;
  LEARNING_RATE : Q;
  packet_queue : list DataPacket;
  correlations : gmap string ClusterCorrelation
}.

(** [CDZ.__init__] *)
Definition new_cdz (ignore_gaussian : bool) : CDZ :=
  mkCDZ (make_gaussian ignore_gaussian) CE_LEARNING_RATE [] ∅.

Definition PACKET_QUEUE_LENGTH (z : CDZ) : nat := S (length (GAUSSIAN z)).

(** The whole program state: the relationship store, the object heap (node,
    cluster and node-manager objects, keyed by name; node managers by the
    name of their cortex), the CDZ, the brain's timestep, and the counter of
    the name generator. *)
Record World := mkWorld {
  w_db : DB;
  w_nodes : gmap string NodeObj;
  w_clusters : gmap string ClusterObj;
  w_nms : gmap string NMObj;
  w_cdz : CDZ;
  w_timestep : Z;
  w_names : nat
}.

Definition set_db (d : DB) (w : World) : World :=
  mkWorld d (w_nodes w) (w_clusters w) (w_nms w) (w_cdz w) (w_timestep w) (w_names w).
Definition set_nodes (h : gmap string NodeObj) (w : World) : World :=
  mkWorld (w_db w) h (w_clusters w) (w_nms w) (w_cdz w) (w_timestep w) (w_names w).
Definition set_clusters (h : gmap string ClusterObj) (w : World) : World :=
  mkWorld (w_db w) (w_nodes w) h (w_nms w) (w_cdz w) (w_timestep w) (w_names w).
Definition set_nms (h : gmap string NMObj) (w : World) : World :=
  mkWorld (w_db w) (w_nodes w) (w_clusters w) h (w_cdz w) (w_timestep w) (w_names w).
Definition set_cdz (z : CDZ) (w : World) : World :=
  mkWorld (w_db w) (w_nodes w) (w_clusters w) (w_nms w) z (w_timestep w) (w_names w).
Definition set_names (n : nat) (w : World) : World :=
  mkWorld (w_db w) (w_nodes w) (w_clusters w) (w_nms w) (w_cdz w) (w_timestep w) n.

Definition on_db {A} (m : M DB A) : M World A :=
  fun w => let '(d, r) := m (w_db w) in (set_db d w, r).

Definition get_node (n : string) : M World NodeObj :=
  w <-- get_st ;; of_option NoObject (w_nodes w !! n).
Definition put_node (n : string) (o : NodeObj) : M World unit :=
  w <-- get_st ;; put_st (set_nodes (<[n := o]> (w_nodes w)) w).
Definition get_cluster (c : string) : M World ClusterObj :=
  w <-- get_st ;; of_option NoObject (w_clusters w !! c).
Definition put_cluster (c : string) (o : ClusterObj) : M World unit :=
  w <-- get_st ;; put_st (set_clusters (<[c := o]> (w_clusters w)) w).
Definition get_nm (cx : string) : M World NMObj :=
  w <-- get_st ;; of_option NoObject (w_nms w !! cx).
Definition put_nm (cx : string) (o : NMObj) : M World unit :=
  w <-- get_st ;; put_st (set_nms (<[cx := o]> (w_nms w)) w).
Definition get_cdz : M World CDZ := w <-- get_st ;; ret (w_cdz w).
Definition put_cdz (z : CDZ) : M World unit :=
  w <-- get_st ;; put_st (set_cdz z w).

(** [node.cortex.node_manager] for every node object of the heap. *)
Definition node_manager_of_heap (w : World) (n : string) : string :=
  match w_nodes w !! n with Some o => n_cortex o | None => "" end.

(** Monadic [map] over a list, left to right. *)
Fixpoint map_m {S A B} (f : A -> M S B) (xs : list A) : M S (list B) :=
  match xs with
  | [] => ret []
  | x :: xs' => y <-- f x ;; ys <-- map_m f xs' ;; ret (y :: ys)
  end.

(** [max(l)]: [None] is the [ValueError] of an empty sequence. *)
Definition list_max (l : list Q) : option Q :=
  match l with
  | [] => None
  | x :: l' => Some (fold_left (fun m y => if Qlt_le_dec m y then y else m) l' x)
  end.

(** [np.argmax(l)]: the first index of a maximum. *)
Fixpoint argmax_go (l : list Q) (i best : nat) (bv : Q) : nat :=
  match l with
  | [] => best
  | y :: l' => if Qlt_le_dec bv y then argmax_go l' (S i) i y else argmax_go l' (S i) best bv
  end.
Definition argmax (l : list Q) : option nat :=
  match l with [] => None | x :: l' => Some (argmax_go l' 1 0 x) end.

Definition vscale (k : Q) (v : Vec) : Vec := map (Qmult k) v.

(** [utils.name_generator(cortex, name)]. Modelled from the spec: the
    generator is not under src/; the spec says names are globally unique,
    made by a stream-scoped generator plus an optional suffix.  The counter
    of the world makes every generated name distinct. *)
Definition name_generator (cortex : string) (name : option string) : M World string :=
  w <-- get_st ;;
  put_st (set_names (S (w_names w)) w) ;;;
  ret (cortex +:+ "/" +:+ pretty (N.of_nat (w_names w)) +:+
       match name with Some s => "/" +:+ s | None => "" end).

Section Cortex.

(** [np.linalg.norm]: a square root of a float sum, left abstract. *)
Variable norm : Vec -> Q.
(** [AnnoyIndex.get_nns_by_vector(encoding, 1, include_distances=True)] on
    an index built from the given positions: index and distance of the
    (approximately) nearest item; [None] when the result lists are empty. *)
Variable annoy_nearest : list Vec -> Vec -> option (nat * Q).

(** *** Node (src/modules/cortex/node.py) *)

(** [Node(cortex, initial_position)] *)
Definition new_node (cortex : string) (initial_position : Vec) : M World string :=
  name <-- name_generator cortex None ;;
  w <-- get_st ;;
  put_node name (mkNodeObj cortex (w_timestep w) initial_position None 0 None None) ;;;
  ret name.

Definition is_new (o : NodeObj) : bool :=
  match last_utilized o with
  | None => true
  | Some _ => Z.leb (qty_feedback_packets o) NODE_IS_NEW
  end.

(** [receive_feedback_packet(packet)] *)
Definition node_receive_feedback_packet (n : string) (packet : DataPacket) : M World unit :=
  let amount := pk_strength packet * NODE_TO_CLUSTER_LEARNING_RATE in
  o <-- get_node n ;;
  on_db (adjust_node_to_cluster_strength n
           (pk_cluster packet) amount (last_encoding o)) ;;;
  o <-- get_node n ;;
  put_node n (mkNodeObj (n_cortex o) (created_at o) (position o) (position_momentum o)
                        (qty_feedback_packets o + 1) (last_utilized o) (last_encoding o)).

(** [get_distance(position)]: the distance and the vector [self.position - position] *)
Definition get_distance (n : string) (p : Vec) : M World (Q * Vec) :=
  o <-- get_node n ;;
  dv <-- of_option ValueError (vzip Qminus (position o) p) ;;
  ret (norm dv, dv).

(** [_move_in_direction(direction)] *)
Definition _move_in_direction (n : string) (direction : Vec) : M World unit :=
  o <-- get_node n ;;
  step <-- (match position_momentum o with
            | None => ret direction
            | Some m => of_option ValueError
                          (vzip Qplus direction (vscale NODE_POSITION_MOMENTUM_ALPHA m))
            end) ;;
  newp <-- of_option ValueError
             (vzip Qplus (position o) (vscale NODE_POSITION_LEARNING_RATE step)) ;;
  newm <-- (match position_momentum o with
            | None => ret (vscale NODE_POSITION_LEARNING_RATE direction)
            | Some m => of_option ValueError
                          (vzip Qplus (vscale NODE_POSITION_MOMENTUM_DECAY m)
                                      (vscale NODE_POSITION_LEARNING_RATE direction))
            end) ;;
  put_node n (mkNodeObj (n_cortex o) (created_at o) newp (Some newm)
                        (qty_feedback_packets o) (last_utilized o) (last_encoding o)).

(** [learn(position)] *)
Definition node_learn (n : string) (p : Vec) : M World unit :=
  r <-- get_distance n p ;;
  _move_in_direction n (vscale (-1) (snd r)) ;;;
  o <-- get_node n ;;
  w <-- get_st ;;
  put_node n (mkNodeObj (n_cortex o) (created_at o) (position o) (position_momentum o)
                        (qty_feedback_packets o) (Some (w_timestep w)) (last_encoding o)).

(** [uncertainty()] and [certainty()] *)
Definition node_uncertainty (n : string) : M World Q :=
  e <-- on_db (on_n2c (get n)) ;;
  o <-- get_node n ;;
  let feedback_scale := Qmin (inject_Z (qty_feedback_packets o) / inject_Z NODE_CERTAINTY_AGE_FACTOR) 1 in
  mx <-- of_option ValueError (list_max (e_strengths e)) ;;
  let certainty := mx ^ 2 * feedback_scale in
  assert_ (Qle_bool 0 certainty && Qle_bool certainty 1) ;;;
  ret (1 - certainty).
Definition node_certainty (n : string) : M World Q :=
  u <-- node_uncertainty n ;; ret (1 - u).

(** [get_strongest_cluster()] *)
Definition get_strongest_cluster (n : string) : M World string :=
  e <-- on_db (on_n2c (get n)) ;;
  i <-- of_option ValueError (argmax (e_strengths e)) ;;
  of_option IndexError (e_list e !! i).

(** *** ClusterCorrelation (src/modules/cdz/cluster_correlation.py) *)

(** [ClusterCorrelation(cluster, cdz)] *)
Definition new_cluster_correlation (cluster : string) : ClusterCorrelation :=
  mkCC cluster 1 [] [] [].

(** [self.connections[k] += v] on a [defaultdict(int)] *)
Fixpoint conn_add (k : string) (v : Q) (conns : list (string * Q)) : list (string * Q) :=
  match conns with
  | [] => [(k, 0 + v)]
  | (k', x) :: conns' =>
      if String.eqb k k' then (k', x + v) :: conns' else (k', x) :: conn_add k v conns'
  end.

(** [ClusterCorrelation._normalize()]: divides by the sum only when it is
    positive (quotients in lowest terms). *)
Definition cc_normalize (conns : list (string * Q)) : list (string * Q) :=
  let val_sum := qsum (map snd conns) in
  if Qlt_le_dec 0 val_sum then map (fun kv => (fst kv, Qred (snd kv / val_sum))) conns
  else conns.

(** [self.cluster_objects[k] = cluster] on a dict kept as its keys *)
Definition key_set (k : string) (ks : list string) : list string :=
  if decide (k ∈ ks) then ks else ks ++ [k].

(** [packet.cortex], i.e. [packet.cluster.cortex] *)
Definition packet_cortex (p : DataPacket) : M World string :=
  o <-- get_cluster (pk_cluster p) ;; ret (c_cortex o).

(** [update(q_packet, new_packet)]; every check precedes every mutation. *)
Definition cc_update (cc : ClusterCorrelation) (q_packet new_packet : DataPacket)
    : M World ClusterCorrelation :=
  assert_ (String.eqb (pk_cluster q_packet) (cc_cluster cc)) ;;;
  qc <-- packet_cortex q_packet ;;
  nc <-- packet_cortex new_packet ;;
  assert_ (negb (String.eqb qc nc)) ;;;
  assert_ (Qle_bool (Qmax (pk_strength q_packet) (pk_strength new_packet)) 1) ;;;
  let time_diff := (pk_time new_packet - pk_time q_packet)%Z in
  assert_ (Z.leb 0 time_diff) ;;;
  z <-- get_cdz ;;
  temporal_weight <-- of_option IndexError (GAUSSIAN z !! Z.to_nat time_diff) ;;
  let correlation_update :=
    LEARNING_RATE z * temporal_weight * pk_strength new_packet * pk_strength q_packet in
  let conns := cc_normalize (conn_add (pk_cluster new_packet) correlation_update (connections cc)) in
  ret (mkCC (cc_cluster cc) (cc_age cc + 1) conns
            (key_set (pk_cluster new_packet) (cluster_objects cc)) (ref_clusters cc)).

(** [add_ref(cluster)] *)
Definition cc_add_ref (cc : ClusterCorrelation) (cluster : string) : ClusterCorrelation :=
  if decide (cluster ∈ ref_clusters cc) then cc
  else mkCC (cc_cluster cc) (cc_age cc) (connections cc) (cluster_objects cc)
            (ref_clusters cc ++ [cluster]).

(** [max(self.connections, key=...)]: the first key of maximal weight *)
Definition conn_argmax (conns : list (string * Q)) : option (string * Q) :=
  match conns with
  | [] => None
  | kv :: conns' =>
      Some (fold_left (fun best kv' => if Qlt_le_dec (snd best) (snd kv') then kv' else best)
                      conns' kv)
  end.

(** [get_strongest_correlation()] *)
Definition get_strongest_correlation (cc : ClusterCorrelation) : M World (string * Q) :=
  kv <-- of_option ValueError (conn_argmax (connections cc)) ;;
  (if decide (fst kv ∈ cluster_objects cc) then ret tt else raise KeyError) ;;;
  ret kv.

(** [uncertainty()] and [certainty()] *)
Definition cc_uncertainty (cc : ClusterCorrelation) : M World Q :=
  kv <-- get_strongest_correlation cc ;;
  let feedback_scale := Qmin (inject_Z (cc_age cc) / inject_Z CE_CERTAINTY_AGE_FACTOR) 1 in
  let certainty := snd kv ^ 2 * feedback_scale in
  assert_ (Qle_bool 0 certainty && Qle_bool certainty 1) ;;;
  ret (1 - certainty).
Definition cc_certainty (cc : ClusterCorrelation) : M World Q :=
  u <-- cc_uncertainty cc ;; ret (1 - u).

(** [remove_cluster(cluster)] of a [ClusterCorrelation] *)
Definition cc_remove_cluster (cc : ClusterCorrelation) (cluster : string)
    : option ClusterCorrelation :=
  if decide (cluster ∈ map fst (connections cc)) then
    if decide (cluster ∈ cluster_objects cc) then
      Some (mkCC (cc_cluster cc) (cc_age cc)
                 (cc_normalize (filter (fun kv => negb (String.eqb (fst kv) cluster)) (connections cc)))
                 (filter (fun k => negb (String.eqb k cluster)) (cluster_objects cc))
                 (ref_clusters cc))
    else None
  else None.

(** *** Cluster and node manager feedback path *)

(** [NodeManager.receive_feedback_packet(packet)] *)
Definition nm_receive_feedback_packet (cortex : string) (packet : DataPacket) : M World unit :=
  nm <-- get_nm cortex ;;
  match last_fired_node nm with
  | None => raise AttributeError
  | Some n => node_receive_feedback_packet n packet
  end.

(** [Cluster.receive_feedback_packet(feedback_packet)] *)
Definition cluster_receive_feedback_packet (c : string) (feedback_packet : DataPacket)
    : M World unit :=
  o <-- get_cluster c ;;
  w <-- get_st ;;
  put_cluster c (mkClusterObj (c_cortex o) (c_created_at o) (last_fired o)
                              (Some (w_timestep w)) (REQUIRED_UTILIZATION o)) ;;;
  nm_receive_feedback_packet (c_cortex o) feedback_packet.

(** *** CDZ (src/modules/cdz/cdz.py) *)

Definition lookup_cc (name : string) : M World ClusterCorrelation :=
  z <-- get_cdz ;; of_option KeyError (correlations z !! name).

Definition put_cc (name : string) (cc : ClusterCorrelation) : M World unit :=
  z <-- get_cdz ;;
  put_cdz (mkCDZ (GAUSSIAN z) (LEARNING_RATE z) (packet_queue z) (<[name := cc]> (correlations z))).

(** [if not self.correlations.get(name): self.correlations[name] = ClusterCorrelation(...)] *)
Definition ensure_cc (name : string) : M World unit :=
  z <-- get_cdz ;;
  match correlations z !! name with
  | Some _ => ret tt
  | None => put_cc name (new_cluster_correlation name)
  end.

(** [_update_connection(old_packet, new_packet)] *)
Definition _update_connection (old_packet new_packet : DataPacket) : M World unit :=
  nc <-- packet_cortex new_packet ;;
  oc <-- packet_cortex old_packet ;;
  if String.eqb nc oc then ret tt
  else
    ensure_cc (pk_cluster old_packet) ;;;
    ensure_cc (pk_cluster new_packet) ;;;
    cc <-- lookup_cc (pk_cluster old_packet) ;;
    cc' <-- cc_update cc old_packet new_packet ;;
    put_cc (pk_cluster old_packet) cc' ;;;
    ccn <-- lookup_cc (pk_cluster new_packet) ;;
    put_cc (pk_cluster new_packet) (cc_add_ref ccn (pk_cluster old_packet)).

(** [_send_feedback_packet(packet)] *)
Definition _send_feedback_packet (packet : DataPacket) : M World unit :=
  cdz_connection <-- lookup_cc (pk_cluster packet) ;;
  kv <-- get_strongest_correlation cdz_connection ;;
  nc <-- node_certainty (pk_source_node packet) ;;
  ccc <-- cc_certainty cdz_connection ;;
  let certainty_factor := nc * ccc in
  let strength := (1 + certainty_factor) ^ 2 in
  let feedback_packet := mkPacket (fst kv) strength (pk_time packet) (pk_source_node packet) in
  cluster_receive_feedback_packet (fst kv) feedback_packet.

(** The loop of [receive_packet] over [self.packet_queue], newest first. *)
Fixpoint scan_queue (packet : DataPacket) (learn : bool) (queue : list DataPacket) : M World unit :=
  match queue with
  | [] => ret tt
  | q_packet :: queue' =>
      if Z.leb CE_CORRELATION_WINDOW_MAX (pk_time packet - pk_time q_packet) then ret tt
      else
        (if Z.eqb (pk_time packet) (pk_time q_packet) && learn then
           _update_connection q_packet packet ;;;
           _update_connection packet q_packet ;;;
           _send_feedback_packet q_packet ;;;
           _send_feedback_packet packet
         else ret tt) ;;;
        scan_queue packet learn queue'
  end.

(** [_process_output(packet)] returns at once. *)
Definition _process_output (packet : DataPacket) : M World unit := ret tt.

(** [receive_packet(packet, learn)] *)
Definition receive_packet (packet : DataPacket) (learn : bool) : M World unit :=
  z <-- get_cdz ;;
  scan_queue packet learn (packet_queue z) ;;;
  _process_output packet ;;;
  z <-- get_cdz ;;
  (* [appendleft] on a deque with [maxlen = PACKET_QUEUE_LENGTH] *)
  put_cdz (mkCDZ (GAUSSIAN z) (LEARNING_RATE z)
                 (firstn (PACKET_QUEUE_LENGTH z) (packet :: packet_queue z))
                 (correlations z)).

(** [list.remove(x)] raising [ValueError] when [x] is absent *)
Definition list_remove (x : string) (l : list string) : option (list string) :=
  if decide (x ∈ l) then Some (remove_first x l) else None.

(** [CDZ.remove_cluster(cluster)] *)
Definition remove_cluster (cluster : string) : M World unit :=
  z <-- get_cdz ;;
  match correlations z !! cluster with
  | None => ret tt
  | Some cc =>
      let excited_by := ref_clusters cc in
      let excites := cluster_objects cc in
      for_each (fun e_cluster =>
                  ecc <-- lookup_cc e_cluster ;;
                  refs <-- of_option ValueError (list_remove cluster (ref_clusters ecc)) ;;
                  put_cc e_cluster (mkCC (cc_cluster ecc) (cc_age ecc) (connections ecc)
                                         (cluster_objects ecc) refs)) excites ;;;
      for_each (fun excited_by_c =>
                  ecc <-- lookup_cc excited_by_c ;;
                  ecc' <-- of_option KeyError (cc_remove_cluster ecc cluster) ;;
                  put_cc excited_by_c ecc') excited_by ;;;
      z <-- get_cdz ;;
      put_cdz (mkCDZ (GAUSSIAN z) (LEARNING_RATE z) (packet_queue z) (delete cluster (correlations z)))
  end.

(** *** Cluster.excite_cdz and NodeManager.receive_encoding *)

(** [Cluster(cortex, name)] *)
Definition new_cluster (cortex : string) (name : string) : M World string :=
  cname <-- name_generator cortex (Some name) ;;
  w <-- get_st ;;
  put_cluster cname (mkClusterObj cortex (w_timestep w) None None CLUSTER_REQUIRED_UTILIZATION) ;;;
  ret cname.

(** [Cluster.excite_cdz(strength, source_node, learn)] *)
Definition excite_cdz (c : string) (strength : Q) (source_node : string) (learn : bool)
    : M World unit :=
  w <-- get_st ;;
  let packet := mkPacket c strength (w_timestep w) source_node in
  o <-- get_cluster c ;;
  put_cluster c (mkClusterObj (c_cortex o) (c_created_at o) (Some (w_timestep w))
                              (last_feedback_packet o) (REQUIRED_UTILIZATION o)) ;;;
  (if learn then on_db (adjust_cluster_to_node_strength c source_node CLUSTER_NODE_LEARNING_RATE)
   else ret tt) ;;;
  receive_packet packet learn.

(** [NodeManager.nodes] *)
Definition nm_nodes (cortex : string) : M World (list string) :=
  e <-- on_db (on_nm2n (get cortex)) ;; ret (e_list e).

Definition set_finished_initial (b : bool) (nm : NMObj) : NMObj :=
  mkNMObj (last_fired_node nm) b (nn_index nm) (avg_distance nm) (distance_count nm)
          (avg_distance_momentum nm).

(** [_add_initial_nodes(encoding)] *)
Definition _add_initial_nodes (cortex : string) (encoding : Vec) : M World unit :=
  ns <-- nm_nodes cortex ;;
  nm <-- get_nm cortex ;;
  (if Nat.leb (length ns) MAX_NODES && negb (finished_initial nm) then
     node <-- new_node cortex encoding ;;
     cluster <-- new_cluster cortex ("cluster_" +:+ node) ;;
     w <-- get_st ;;
     on_db (add_node (node_manager_of_heap w) node cluster)
   else ret tt) ;;;
  ns <-- nm_nodes cortex ;;
  if Nat.leb INITIAL_NODES (length ns) then
    nm <-- get_nm cortex ;; put_nm cortex (set_finished_initial true nm)
  else ret tt.

(** [min(tuples, key=lambda x: x[1])]: the first pair of least distance *)
Definition min_by_distance (l : list (string * Q)) : option (string * Q) :=
  match l with
  | [] => None
  | x :: l' => Some (fold_left (fun best y => if Qlt_le_dec (snd y) (snd best) then y else best) l' x)
  end.

(** [_find_nearest_node(encoding)] *)
Definition _find_nearest_node (cortex : string) (encoding : Vec) : M World (string * Q) :=
  nm <-- get_nm cortex ;;
  match nn_index nm with
  | Some idx =>
      r <-- of_option IndexError (annoy_nearest idx encoding) ;;
      ns <-- nm_nodes cortex ;;
      n <-- of_option IndexError (ns !! fst r) ;;
      ret (n, snd r)
  | None =>
      ns <-- nm_nodes cortex ;;
      tuples <-- map_m (fun n => r <-- get_distance n encoding ;; ret (n, fst r)) ns ;;
      assert_ (Nat.ltb 0 (length tuples)) ;;;
      of_option ValueError (min_by_distance tuples)
  end.

(** [_update_avg_distance(distance)]: as in the source, [avg_distance]
    itself is never assigned. *)
Definition _update_avg_distance (cortex : string) (distance : Q) : M World unit :=
  nm <-- get_nm cortex ;;
  let count := (distance_count nm + 1)%Z in
  let new_avg := avg_distance nm + (distance - avg_distance nm) / inject_Z count in
  let mom := AVG_DISTANCE_MOMENTUM_DECAY * avg_distance_momentum nm + new_avg - avg_distance nm in
  put_nm cortex (mkNMObj (last_fired_node nm) (finished_initial nm) (nn_index nm)
                         (avg_distance nm) count mom).

(** [receive_encoding(encoding, learn)] *)
Definition receive_encoding (cortex : string) (encoding : Vec) (learn : bool) : M World string :=
  _add_initial_nodes cortex encoding ;;;
  r <-- _find_nearest_node cortex encoding ;;
  let nearest_node := fst r in
  o <-- get_node nearest_node ;;
  put_node nearest_node (mkNodeObj (n_cortex o) (created_at o) (position o) (position_momentum o)
                                   (qty_feedback_packets o) (last_utilized o) (Some encoding)) ;;;
  strongest_cluster <-- get_strongest_cluster nearest_node ;;
  nm <-- get_nm cortex ;;
  put_nm cortex (mkNMObj (Some nearest_node) (finished_initial nm) (nn_index nm)
                         (avg_distance nm) (distance_count nm) (avg_distance_momentum nm)) ;;;
  (if learn then node_learn nearest_node encoding ;;; _update_avg_distance cortex (snd r)
   else ret tt) ;;;
  excite_cdz strongest_cluster 1 nearest_node learn ;;;
  ret strongest_cluster.

End Cortex.

(** ** Properties stated over the model *)

(** The tolerance of [verify_data_integrity] and of the spec: within 0.01 of 1. *)
Definition within_tol (x : Q) : Prop := 99 # 100 <= x /\ x <= 101 # 100.

(** Every item with at least one related item has strengths summing to 1 ± 0.01. *)
Definition tbl_normalized (t : Table) : Prop :=
  forall k e, t !! k = Some e -> e_list e <> [] -> within_tol (qsum (e_strengths e)).

Definition db_normalized (d : DB) : Prop :=
  tbl_normalized (nodes_to_clusters d) /\ tbl_normalized (clusters_to_nodes d) /\
  tbl_normalized (node_manager_to_nodes d).

Inductive TableName := NodesToClusters | ClustersToNodes | NodeManagerToNodes.

Definition on_table {A} (tn : TableName) (m : M Table A) : M DB A :=
  match tn with
  | NodesToClusters => on_n2c m
  | ClustersToNodes => on_c2n m
  | NodeManagerToNodes => on_nm2n m
  end.

(** The public mutating operations of the relationship store. *)
Inductive DBOp :=
  | OpAddNode (node cluster : string)
  | OpAdjustNodeToCluster (node cluster : string) (amount : Q) (last_encoding : option Vec)
  | OpAdjustClusterToNode (cluster node : string) (amount : Q)
  | OpDeleteNode (node : string)
  | OpDeleteCluster (cluster : string) (force : bool)
  | OpRemoveRelatedItem (tn : TableName) (item related : string).

Definition run_op (node_manager_of : string -> string) (op : DBOp) : M DB unit :=
  match op with
  | OpAddNode n c => add_node node_manager_of n c
  | OpAdjustNodeToCluster n c a p => adjust_node_to_cluster_strength n c a p
  | OpAdjustClusterToNode c n a => adjust_cluster_to_node_strength c n a
  | OpDeleteNode n => delete_node node_manager_of n
  | OpDeleteCluster c f => _delete_cluster node_manager_of c f
  | OpRemoveRelatedItem tn k r => on_table tn (remove_related_item k r)
  end.

(** A successful run of [m] keeps [P]. *)
Definition preserves {S A} (P : S -> Prop) (m : M S A) : Prop :=
  forall s s' a, P s -> m s = (s', Ok a) -> P s'.

(** [m] changes the table only at key [k]. *)
Definition frame_except {A} (k : string) (m : M Table A) : Prop :=
  forall t t' a, m t = (t', Ok a) -> forall j, j <> k -> t' !! j = t !! j.

Definition norm_except (k : string) (t : Table) : Prop :=
  forall j e, j <> k -> t !! j = Some e -> e_list e <> [] -> within_tol (qsum (e_strengths e)).

(** [m] re-establishes the invariant at [k] when it held elsewhere. *)
Definition restores {A} (k : string) (m : M Table A) : Prop :=
  forall t t' a, norm_except k t -> m t = (t', Ok a) -> tbl_normalized t'.

(** A decidable reading of [tbl_normalized], for concrete tables. *)
Definition entry_ok (e : Entry) : bool :=
  match e_list e with
  | [] => true
  | _ => Qle_bool (99 # 100) (qsum (e_strengths e)) && Qle_bool (qsum (e_strengths e)) (101 # 100)
  end.

Definition tbl_normalized_b (t : Table) : bool :=
  bool_decide (map_Forall (fun _ e => entry_ok e = true) t).

Definition db_normalized_b (d : DB) : bool :=
  tbl_normalized_b (nodes_to_clusters d) && tbl_normalized_b (clusters_to_nodes d) &&
  tbl_normalized_b (node_manager_to_nodes d).

(** ** Concrete stores *)

(** One cortex ["A"]: its node manager's entry as [Cortex.__init__] makes it. *)
Definition db0 : DB := mkDB ∅ ∅ ∅ ∅ (<["A" := mkEntry [] [] [None] [1%Z]]> ∅).

Definition mgrA (_ : string) : string := "A".

(** Three node/cluster pairs; nodes [n2] and [n3] are then also related to
    cluster [c], so [c] has the three nodes [n1], [n2], [n3] and only [n1]
    has no other cluster. *)
Definition fixture_ops : list DBOp :=
  [OpAddNode "n1" "c"; OpAddNode "n2" "c2"; OpAddNode "n3" "c3";
   OpAdjustNodeToCluster "n2" "c" 1 None; OpAdjustNodeToCluster "n3" "c" 1 None].

Definition db1 : DB := fst (for_each (run_op mgrA) fixture_ops db0).

(** ** Concrete worlds *)

Definition cluster_in (cortex : string) : ClusterObj :=
  mkClusterObj cortex 0 None None CLUSTER_REQUIRED_UTILIZATION.

(** A freshly built [Node]: [qty_feedback_packets = 0], [last_utilized = None]. *)
Definition node_in (cortex : string) : NodeObj :=
  mkNodeObj cortex 0 [0] None 0 None None.

Definition nm_fresh : NMObj := mkNMObj None false None 0 0 0.

(** Two clusters [cA1], [cA2] of the same cortex ["A"]; the queue holds one
    packet of [cA1] at time 5 and no correlation record exists yet. *)
Definition q_same_stream : DataPacket := mkPacket "cA1" 1 5 "nA1".
Definition p_same_stream : DataPacket := mkPacket "cA2" 1 5 "nA2".

Definition w_same_stream : World :=
  mkWorld db0
    (<["nA1" := node_in "A"]> (<["nA2" := node_in "A"]> ∅))
    (<["cA1" := cluster_in "A"]> (<["cA2" := cluster_in "A"]> ∅))
    (<["A" := nm_fresh]> ∅)
    (mkCDZ (GAUSSIAN (new_cdz CE_IGNORE_GAUSSIAN)) CE_LEARNING_RATE [q_same_stream] ∅)
    5 0.

(** Two cortices with the bell kernel; the queue holds a packet of cortex
    ["B"] at time [20 - (W - 1)] = 11, and a packet of cortex ["A"] arrives at 20. *)
Definition q_bell : DataPacket := mkPacket "cB" 1 (20 - (CE_CORRELATION_WINDOW_MAX - 1)) "nB".
Definition p_bell : DataPacket := mkPacket "cA" 1 20 "nA".

Definition w_bell : World :=
  mkWorld db0
    (<["nA" := node_in "A"]> (<["nB" := node_in "B"]> ∅))
    (<["cA" := cluster_in "A"]> (<["cB" := cluster_in "B"]> ∅))
    (<["A" := nm_fresh]> (<["B" := nm_fresh]> ∅))
    (mkCDZ (GAUSSIAN (new_cdz false)) CE_LEARNING_RATE [q_bell] ∅)
    20 0.

(** A node [n1] of cortex ["A"] with its cluster [c], as [add_node] makes them. *)
Definition w_fresh_node : World :=
  mkWorld (fst (add_node mgrA "n1" "c" db0))
    (<["n1" := node_in "A"]> ∅) (<["c" := cluster_in "A"]> ∅)
    (<["A" := nm_fresh]> ∅) (new_cdz CE_IGNORE_GAUSSIAN) 0 0.

(** A feedback packet for cluster [c], delivered [k] times to node [n1]. *)
Definition feedback_c : DataPacket := mkPacket "c" 1 0 "m1".

Definition feedback_times (k : nat) : M World unit :=
  for_each (fun p => node_receive_feedback_packet "n1" p) (repeat feedback_c k).

(** [m] relates its start and end states by [R], whatever its outcome. *)
Definition keeps {S A} (R : S -> S -> Prop) (m : M S A) : Prop :=
  forall s s' r, m s = (s', r) -> R s s'.

(** Every node object keeps its [last_utilized] field. *)
Definition same_last_utilized (w w' : World) : Prop :=
  forall m, option_map last_utilized (w_nodes w' !! m) = option_map last_utilized (w_nodes w !! m).

(** The arithmetic mean [(p1 + p2 + p3) / 3] of three vectors, as the
    specification states it, coordinate by coordinate. *)
Definition vmean3 (p1 p2 p3 : Vec) : Vec :=
  zip_with (fun a bc => (a + bc) / 3) p1 (zip_with Qplus p2 p3).


(** The weights: both edge tables and the correlation records. *)
Definition same_weights (w w' : World) : Prop :=
  nodes_to_clusters (w_db w') = nodes_to_clusters (w_db w) /\
  clusters_to_nodes (w_db w') = clusters_to_nodes (w_db w) /\
  correlations (w_cdz w') = correlations (w_cdz w).

(** Stand-ins for the two abstract functions: a squared norm and an index
    that finds nothing. *)
Definition sq_norm (v : Vec) : Q := qsum (map (fun x => x * x) v).
Definition no_index (_ : list Vec) (_ : Vec) : option (nat * Q) := None.

(** [w_fresh_node] once its stream has finished its bootstrap. *)
Definition w_inference : World :=
  set_nms (<["A" := set_finished_initial true nm_fresh]> ∅) w_fresh_node.

(** ** Further OneToManyTable methods and table invariants *)

(** [count()] *)
Definition count (t : Table) : nat := size t.

(** [get_items_without_related_items()], as names. *)
Definition get_items_without_related_items (t : Table) : list string :=
  fst <$> filter (fun kv : string * Entry => length (e_list kv.2) = 0%nat) (map_to_list t).

Definition entry_inv (e : Entry) : Prop :=
  NoDup (e_list e) /\ length (e_strengths e) = length (e_list e) /\
  (e_list e <> [] -> qsum (e_strengths e) == 1).

Definition tbl_inv (t : Table) : Prop := map_Forall (fun _ => entry_inv) t.

Definition db_consistent (d : DB) : Prop :=
  tbl_inv (nodes_to_clusters d) /\ tbl_inv (clusters_to_nodes d) /\
  tbl_inv (node_manager_to_nodes d) /\
  forall n c, is_related n c (nodes_to_clusters d) = true <-> is_related c n (clusters_to_nodes d) = true.

(** ** Database.verify_data_integrity (src/db/database.py, src/db/one_to_many_table.py) *)

Section Verify.

(** [data.items()]: the entries of a table in the dict's insertion order,
    which the store does not record; any enumeration of the entries. *)
Variable items : Table -> list (string * Entry).

(** [OneToManyTable.verify_data_integrity()] *)
Definition table_verify_data_integrity : M Table unit :=
  t <-- get_st ;;
  for_each (fun kv : string * Entry =>
    let val := kv.2 in
    assert_ (Nat.eqb (length (e_list val)) (length (e_strengths val))) ;;;
    if Nat.ltb 0 (length (e_list val)) then
      assert_ (negb (Qle_bool (qsum (e_strengths val)) (99 # 100)) &&
               Qle_bool (qsum (e_strengths val)) (101 # 100))
    else ret tt) (items t).

(** [_cross_table_validation(table1, table2)] *)
Definition _cross_table_validation (table1 table2 : Table) : M DB unit :=
  for_each (fun kv : string * Entry =>
    for_each (fun related_item =>
      _ <-- of_option KeyError (table2 !! related_item) ;;
      assert_ (is_related related_item kv.1 table2)) (e_list kv.2)) (items table1).

(** [Database.verify_data_integrity()]; the [verify_data_integrity] of the
    two [BasicTable]s is [pass]. *)
Definition verify_data_integrity : M DB unit :=
  on_n2c table_verify_data_integrity ;;;
  on_c2n table_verify_data_integrity ;;;
  on_nm2n table_verify_data_integrity ;;;
  d <-- get_st ;;
  _cross_table_validation (nodes_to_clusters d) (clusters_to_nodes d) ;;;
  _cross_table_validation (clusters_to_nodes d) (nodes_to_clusters d).

End Verify.

(** What a passing table check establishes about an entry. *)
Definition entry_checked (e : Entry) : Prop :=
  length (e_list e) = length (e_strengths e) /\
  (e_list e <> [] -> 99 # 100 < qsum (e_strengths e) /\ qsum (e_strengths e) <= 101 # 100).

(** ** Frames of the CDZ state *)

(** The packet queue and the kernel of the CDZ. *)
Definition same_queue (w w' : World) : Prop :=
  packet_queue (w_cdz w') = packet_queue (w_cdz w) /\ GAUSSIAN (w_cdz w') = GAUSSIAN (w_cdz w).

Definition same_timestep (w w' : World) : Prop := w_timestep w' = w_timestep w.

Definition same_corr (w w' : World) : Prop := correlations (w_cdz w') = correlations (w_cdz w).

(** ** Node clean-up (src/modules/cortex/node.py, node_manager.py) *)

Definition NODE_REQUIRED_UTILIZATION : Z := 55550.

(** [Node.is_underutilized()]; [timestep] is [self.cortex.timestep]. *)
Definition node_is_underutilized (timestep : Z) (o : NodeObj) : bool :=
  let time_to_use := Z.max (created_at o)
                           (match last_utilized o with Some t => t | None => 0%Z end) in
  Z.leb NODE_REQUIRED_UTILIZATION (timestep - time_to_use).

(** [Node.teardown()] *)
Definition teardown (n : string) : M World unit :=
  w <-- get_st ;; on_db (delete_node (node_manager_of_heap w) n).

(** [NodeManager._delete_underutilized_items()]: the loop runs over a copy
    of [self.nodes]. *)
Definition _delete_underutilized_items (cortex : string) : M World unit :=
  ns <-- nm_nodes cortex ;;
  for_each (fun n => o <-- get_node n ;;
                     w <-- get_st ;;
                     if node_is_underutilized (w_timestep w) o then teardown n else ret tt) ns.

(** [NodeManager._delete_new_items()] *)
Definition _delete_new_items (cortex : string) : M World unit :=
  ns <-- nm_nodes cortex ;;
  for_each (fun n => o <-- get_node n ;; if is_new o then teardown n else ret tt) ns.

(** ** Cluster.get_strongest_node (src/modules/cortex/cluster.py) *)

(** [Cluster.get_strongest_node()] *)
Definition get_strongest_node (c : string) : M World (option string) :=
  e <-- on_db (on_c2n (get c)) ;;
  if Nat.eqb (length (e_list e)) 0 then ret None
  else
    i <-- of_option ValueError (argmax (e_strengths e)) ;;
    n <-- of_option IndexError (e_list e !! i) ;;
    ret (Some n).

(** ** Well-formed correlation records *)

(** The keys of [connections] are distinct and all in [cluster_objects],
    whose keys are distinct too. *)
Definition cc_wf (cc : ClusterCorrelation) : Prop :=
  NoDup (map fst (connections cc)) /\ NoDup (cluster_objects cc) /\
  forall k, k ∈ map fst (connections cc) -> k ∈ cluster_objects cc.

(** Every correlation record of the CDZ is well formed. *)
Definition cdz_wf (w : World) : Prop := map_Forall (fun _ => cc_wf) (correlations (w_cdz w)).

(** ** More concrete stores *)

(** A heap for cortex ["A"] of [db1] at time 60000: [n2] has had feedback and was
    used at 59000, [n1] and [n3] are fresh. *)
Definition w_cleanup : World :=
  mkWorld db1
    (<["n1" := node_in "A"]> (<["n2" := mkNodeObj "A" 0 [0] None 30 (Some 59000%Z) None]>
      (<["n3" := node_in "A"]> ∅)))
    ∅ (<["A" := nm_fresh]> ∅) (new_cdz CE_IGNORE_GAUSSIAN) 60000 0.

Definition cc_two : ClusterCorrelation := mkCC "c" 3 [("d", 1 # 4); ("e", 3 # 4)] ["d"; "e"] [].

Definition t_nm : Table := <["A" := mkEntry ["n"; "m"] [1 # 2; 1 # 2] [None; None] [1%Z; 1%Z]]> ∅.
Definition t_n : Table := <["A" := mkEntry ["n"] [1] [None] [1%Z]]> ∅.

Definition e_cortex_A : Entry :=
  mkEntry ["n1"; "n2"; "n3"] [1 # 4; 1 # 4; 1 # 2] [None; None; None; None] [1%Z; 1%Z; 1%Z; 1%Z].

(* END OF DEFINITIONS *)

Section Monad_lemmas.

Lemma preserves_bind {S A B} (P : S -> Prop) (m : M S A) (f : A -> M S B) :
  preserves P m -> (forall a, preserves P (f a)) -> preserves P (bind m f).
Proof.
  intros Hm Hf s s' b Hs. unfold bind.
  destruct (m s) as [s1 [a1|e]] eqn:E; [|discriminate].
  intros H. eapply Hf; [eapply Hm|]; eauto.
Qed.

Lemma preserves_ret {S A} (P : S -> Prop) (a : A) : preserves P (ret a).
Proof. intros s s' b Hs H. unfold ret in H. congruence. Qed.

Lemma preserves_raise {S A} (P : S -> Prop) e : preserves P (@raise S A e).
Proof. intros s s' b Hs H. discriminate. Qed.

Lemma preserves_get_st {S} (P : S -> Prop) : preserves P get_st.
Proof. intros s s' b Hs H. unfold get_st in H. congruence. Qed.

Lemma preserves_of_option {S A} (P : S -> Prop) e (o : option A) : preserves P (of_option e o).
Proof. destruct o; [apply preserves_ret|apply preserves_raise]. Qed.

Lemma preserves_assert {S} (P : S -> Prop) b : preserves P (@assert_ S b).
Proof. destruct b; [apply preserves_ret|apply preserves_raise]. Qed.

Lemma preserves_if {S A} (P : S -> Prop) (b : bool) (m1 m2 : M S A) :
  preserves P m1 -> preserves P m2 -> preserves P (if b then m1 else m2).
Proof. destruct b; auto. Qed.

Lemma preserves_for_each {S A} (P : S -> Prop) (f : A -> M S unit) xs :
  (forall x, preserves P (f x)) -> preserves P (for_each f xs).
Proof.
  intros Hf. induction xs as [|x xs IH]; simpl.
  - apply preserves_ret.
  - apply preserves_bind; auto.
Qed.

End Monad_lemmas.

Create HintDb pres.
#[export] Hint Resolve preserves_ret preserves_raise preserves_get_st preserves_of_option
  preserves_assert : pres.

Ltac pres_step :=
  match goal with
  | |- preserves _ (bind _ _) => apply preserves_bind; [|intro]
  | |- preserves _ (if _ then _ else _) => apply preserves_if
  | |- preserves _ (match ?x with _ => _ end) => destruct x
  | |- preserves _ (for_each _ _) => apply preserves_for_each; intro
  | |- preserves _ (let _ := _ in _) => cbv zeta
  end.

Ltac solve_pres := repeat (pres_step || eauto with pres).

Section Sums.

Lemma fold_left_Qplus_acc (l : list Q) (a : Q) :
  fold_left Qplus l a == a + fold_left Qplus l 0.
Proof.
  revert a. induction l as [|x l IH]; intros a; simpl.
  - ring.
  - rewrite (IH (a + x)), (IH (0 + x)). ring.
Qed.

Lemma qsum_cons (x : Q) (l : list Q) : qsum (x :: l) == x + qsum l.
Proof. unfold qsum; simpl. rewrite fold_left_Qplus_acc. ring. Qed.

Lemma qsum_nil : qsum [] = 0.
Proof. reflexivity. Qed.

Lemma qsum_map_div (l : list Q) (t : Q) :
  qsum (map (fun x => Qred (x / t)) l) == qsum l / t.
Proof.
  induction l as [|x l IH]; simpl.
  - reflexivity.
  - rewrite !qsum_cons, IH, Qred_correct. unfold Qdiv. ring.
Qed.

Lemma qsum_normalized (l : list Q) :
  Qle_bool (qsum l) 0 = false -> qsum (map (fun x => Qred (x / qsum l)) l) == 1.
Proof.
  intros H. rewrite qsum_map_div.
  assert (~ qsum l == 0) as Hnz.
  { intros E. rewrite E in H. discriminate. }
  field. exact Hnz.
Qed.

Lemma within_tol_one (x : Q) : x == 1 -> within_tol x.
Proof. intros E. unfold within_tol. rewrite E. split; discriminate. Qed.

End Sums.

Create HintDb frame.


Lemma frame_bind {A B} k (m : M Table A) (f : A -> M Table B) :
  frame_except k m -> (forall a, frame_except k (f a)) -> frame_except k (bind m f).
Proof.
  intros Hm Hf t t' b. unfold bind.
  destruct (m t) as [t1 [a1|e]] eqn:E; [|discriminate].
  intros H j Hj. rewrite (Hf a1 t1 t' b H j Hj). eapply Hm; eauto.
Qed.

Lemma frame_ret {A} k (a : A) : frame_except k (ret a).
Proof. intros t t' b H j Hj. unfold ret in H. congruence. Qed.

Lemma frame_raise {A} k e : frame_except k (@raise Table A e).
Proof. intros t t' b H. discriminate. Qed.

Lemma frame_of_option {A} k e (o : option A) : frame_except k (of_option e o).
Proof. destruct o; [apply frame_ret|apply frame_raise]. Qed.

Lemma frame_get_st k : frame_except k get_st.
Proof. intros t t' b H j Hj. unfold get_st in H. congruence. Qed.

Lemma frame_assert k b : frame_except k (@assert_ Table b).
Proof. destruct b; [apply frame_ret|apply frame_raise]. Qed.

Lemma frame_get k item : frame_except k (get item).
Proof.
  intros t t' b H j Hj. unfold get in H. destruct (t !! item); congruence.
Qed.

Lemma frame_put_entry k e : frame_except k (put_entry k e).
Proof.
  intros t t' b H j Hj. unfold put_entry in H. inversion H; subst.
  by rewrite lookup_insert_ne.
Qed.

Lemma frame_normalize k l : frame_except k (_normalize l).
Proof.
  unfold _normalize. destruct (Qle_bool _ _); [apply frame_raise|apply frame_ret].
Qed.

Lemma frame_if {A} k (b : bool) (m1 m2 : M Table A) :
  frame_except k m1 -> frame_except k m2 -> frame_except k (if b then m1 else m2).
Proof. destruct b; auto. Qed.

#[export] Hint Resolve frame_ret frame_raise frame_of_option frame_get_st frame_assert
  frame_get frame_put_entry frame_normalize : frame.

Ltac solve_frame :=
  repeat (match goal with
          | |- frame_except _ (bind _ _) => apply frame_bind; [|intro]
          | |- frame_except _ (if _ then _ else _) => apply frame_if
          | |- frame_except _ (match ?x with _ => _ end) => destruct x
          end || eauto with frame).

Lemma frame_normalize_item k : frame_except k (_normalize_item k).
Proof. unfold _normalize_item. solve_frame. Qed.

Lemma norm_except_of k t : tbl_normalized t -> norm_except k t.
Proof. intros H j e _ He Hl. eapply H; eauto. Qed.

Lemma norm_except_frame {A} k (m : M Table A) t t' a :
  frame_except k m -> m t = (t', Ok a) -> norm_except k t -> norm_except k t'.
Proof.
  intros Hf Hm Hn j e Hj He Hl. rewrite (Hf _ _ _ Hm j Hj) in He. eapply Hn; eauto.
Qed.

Lemma restores_bind {A B} k (m : M Table A) (f : A -> M Table B) :
  frame_except k m -> (forall a, restores k (f a)) -> restores k (bind m f).
Proof.
  intros Hm Hf t t' b Hn. unfold bind.
  destruct (m t) as [t1 [a1|e]] eqn:E; [|discriminate].
  intros H. eapply Hf; [|exact H]. eapply norm_except_frame; eauto.
Qed.

Lemma restores_raise {A} k e : restores k (@raise Table A e).
Proof. intros t t' a _ H. discriminate. Qed.

Lemma restores_of_option {A B} k e (o : option A) (f : A -> M Table B) :
  (forall a, restores k (f a)) -> restores k (bind (of_option e o) f).
Proof. intros Hf. apply restores_bind; [apply frame_of_option|exact Hf]. Qed.

Lemma restores_normalize_item k : restores k (_normalize_item k).
Proof.
  intros t t' a Hn. unfold _normalize_item, bind, get, _normalize.
  destruct (t !! k) as [e|] eqn:Ek; [|discriminate].
  destruct (Qle_bool (qsum (e_strengths e)) 0) eqn:Hq; [discriminate|].
  unfold ret, put_entry. rewrite Ek. intros H. inversion H; subst; clear H.
  intros j e' Hj Hl. destruct (decide (j = k)) as [->|Hne].
  - rewrite lookup_insert_eq in Hj. inversion Hj; subst; clear Hj. simpl.
    apply within_tol_one. apply qsum_normalized. exact Hq.
  - rewrite lookup_insert_ne in Hj by congruence. eapply Hn; eauto.
Qed.

Lemma preserves_of_restores {A} k (m : M Table A) :
  restores k m -> preserves tbl_normalized m.
Proof. intros H t t' a Ht Hm. eapply H; [apply norm_except_of; exact Ht|exact Hm]. Qed.


Lemma restores_remove_tail k :
  restores k (e <-- get k ;;
              if Nat.ltb 0 (length (e_list e)) then _normalize_item k else ret tt).
Proof.
  intros t t' a Hn. unfold bind at 1, get.
  destruct (t !! k) as [e|] eqn:Ek; [|discriminate].
  destruct (Nat.ltb 0 (length (e_list e))) eqn:Hl.
  - intros H. eapply restores_normalize_item; eauto.
  - unfold ret. intros H. inversion H; subst; clear H.
    intros j e' Hj Hne. destruct (decide (j = k)) as [->|Hjk].
    + rewrite Ek in Hj. inversion Hj; subst.
      destruct (e_list e'); [congruence|discriminate].
    + eapply Hn; eauto.
Qed.

Lemma add_related_item_restores item related strength position :
  restores item (add_related_item item related strength position).
Proof.
  unfold add_related_item. apply restores_bind; [|intros; apply restores_normalize_item].
  intros t t' b H j Hj. destruct (t !! item) as [e|] eqn:E.
  - destruct (decide _); [discriminate|]. inversion H; subst.
    by rewrite lookup_insert_ne.
  - unfold add in H. rewrite E in H. inversion H; subst. by rewrite lookup_insert_ne.
Qed.

Lemma remove_related_item_restores item related :
  restores item (remove_related_item item related).
Proof.
  unfold remove_related_item.
  do 12 (apply restores_bind; [solve_frame|intro]).
  apply restores_remove_tail.
Qed.

Lemma increase_relationship_strength_restores item related amount position :
  restores item (increase_relationship_strength item related amount position).
Proof.
  unfold increase_relationship_strength.
  do 14 (apply restores_bind; [solve_frame|intro]).
  apply restores_normalize_item.
Qed.

Lemma remove_preserves item : preserves tbl_normalized (remove item).
Proof.
  intros t t' a Ht H. unfold remove in H. destruct (t !! item); [|discriminate].
  inversion H; subst. intros j e0 Hj Hl.
  destruct (decide (j = item)) as [->|Hne].
  - by rewrite lookup_delete_eq in Hj.
  - rewrite lookup_delete_ne in Hj by congruence. eapply Ht; eauto.
Qed.

Lemma add_preserves item related strengths position :
  (related = [] \/ within_tol (qsum strengths)) ->
  preserves tbl_normalized (add item related strengths position).
Proof.
  intros Hrs t t' a Ht H. unfold add in H. destruct (t !! item); [discriminate|].
  inversion H; subst. intros j e0 Hj Hl.
  destruct (decide (j = item)) as [->|Hne].
  - rewrite lookup_insert_eq in Hj. inversion Hj; subst; clear Hj.
    destruct Hrs as [Hr|Hr]; [subst; simpl in Hl; congruence|exact Hr].
  - rewrite lookup_insert_ne in Hj by congruence. eapply Ht; eauto.
Qed.

Lemma get_preserves item : preserves tbl_normalized (get item).
Proof.
  intros t t' a Ht H. unfold get in H.
  destruct (t !! item); inversion H; subst; assumption.
Qed.

Lemma on_n2c_preserves {A} (m : M Table A) :
  preserves tbl_normalized m -> preserves db_normalized (on_n2c m).
Proof.
  intros Hm d d' a [H1 [H2 H3]] H. unfold on_n2c in H.
  destruct (m (nodes_to_clusters d)) as [t r] eqn:E. inversion H; subst; clear H.
  unfold db_normalized; simpl; split_and!; eauto.
Qed.

Lemma on_c2n_preserves {A} (m : M Table A) :
  preserves tbl_normalized m -> preserves db_normalized (on_c2n m).
Proof.
  intros Hm d d' a [H1 [H2 H3]] H. unfold on_c2n in H.
  destruct (m (clusters_to_nodes d)) as [t r] eqn:E. inversion H; subst; clear H.
  unfold db_normalized; simpl; split_and!; eauto.
Qed.

Lemma on_nm2n_preserves {A} (m : M Table A) :
  preserves tbl_normalized m -> preserves db_normalized (on_nm2n m).
Proof.
  intros Hm d d' a [H1 [H2 H3]] H. unfold on_nm2n in H.
  destruct (m (node_manager_to_nodes d)) as [t r] eqn:E. inversion H; subst; clear H.
  unfold db_normalized; simpl; split_and!; eauto.
Qed.

Lemma on_table_preserves {A} tn (m : M Table A) :
  preserves tbl_normalized m -> preserves db_normalized (on_table tn m).
Proof.
  destruct tn; simpl; auto using on_n2c_preserves, on_c2n_preserves, on_nm2n_preserves.
Qed.

Ltac basic_set_tac :=
  intros d d' b Hd Hrun;
  repeat (destruct (decide _)); inversion Hrun; subst; exact Hd.

Lemma nodes_add_preserves x : preserves db_normalized (nodes_add x).
Proof. unfold nodes_add. basic_set_tac. Qed.
Lemma clusters_add_preserves x : preserves db_normalized (clusters_add x).
Proof. unfold clusters_add. basic_set_tac. Qed.
Lemma nodes_remove_preserves x : preserves db_normalized (nodes_remove x).
Proof. unfold nodes_remove. basic_set_tac. Qed.
Lemma clusters_remove_preserves x : preserves db_normalized (clusters_remove x).
Proof. unfold clusters_remove. basic_set_tac. Qed.

Lemma add_related_item_preserves item related strength position :
  preserves tbl_normalized (add_related_item item related strength position).
Proof. eapply preserves_of_restores, add_related_item_restores. Qed.
Lemma remove_related_item_preserves item related :
  preserves tbl_normalized (remove_related_item item related).
Proof. eapply preserves_of_restores, remove_related_item_restores. Qed.
Lemma increase_relationship_strength_preserves item related amount position :
  preserves tbl_normalized (increase_relationship_strength item related amount position).
Proof. eapply preserves_of_restores, increase_relationship_strength_restores. Qed.

#[export] Hint Resolve on_n2c_preserves on_c2n_preserves on_nm2n_preserves on_table_preserves
  nodes_add_preserves clusters_add_preserves nodes_remove_preserves clusters_remove_preserves
  add_related_item_preserves remove_related_item_preserves
  increase_relationship_strength_preserves remove_preserves get_preserves : pres.

Lemma within_tol_qsum_one : within_tol (qsum [1]).
Proof. split; unfold Qle; simpl; discriminate. Qed.

Lemma delete_node_preserves mgr n : preserves db_normalized (delete_node mgr n).
Proof. unfold delete_node, get_nodes_clusters. solve_pres. Qed.

Lemma add_node_preserves mgr n c : preserves db_normalized (add_node mgr n c).
Proof.
  unfold add_node. solve_pres;
    apply on_n2c_preserves || apply on_c2n_preserves; apply add_preserves;
    right; apply within_tol_qsum_one.
Qed.

Lemma detach_node_preserves mgr c n : preserves db_normalized (detach_node mgr c n).
Proof.
  unfold detach_node, get_nodes_clusters. solve_pres. apply delete_node_preserves.
Qed.

Lemma delete_cluster_preserves mgr c f : preserves db_normalized (_delete_cluster mgr c f).
Proof.
  unfold _delete_cluster, get_clusters_nodes. solve_pres. apply detach_node_preserves.
Qed.

Lemma adjust_n2c_preserves n c a p :
  preserves db_normalized (adjust_node_to_cluster_strength n c a p).
Proof. unfold adjust_node_to_cluster_strength. solve_pres. Qed.

Lemma adjust_c2n_preserves c n a :
  preserves db_normalized (adjust_cluster_to_node_strength c n a).
Proof. unfold adjust_cluster_to_node_strength. solve_pres. Qed.

Lemma tbl_normalized_b_sound (t : Table) : tbl_normalized_b t = true -> tbl_normalized t.
Proof.
  unfold tbl_normalized_b. intros H%bool_decide_eq_true_1 k e Hk Hl.
  specialize (H k e Hk). simpl in H. unfold entry_ok in H.
  destruct (e_list e); [congruence|].
  apply andb_true_iff in H as [H1 H2]. apply Qle_bool_iff in H1, H2. split; assumption.
Qed.

Lemma db_normalized_b_sound (d : DB) : db_normalized_b d = true -> db_normalized d.
Proof.
  unfold db_normalized_b. intros H. apply andb_true_iff in H as [H H3].
  apply andb_true_iff in H as [H1 H2].
  split_and!; apply tbl_normalized_b_sound; assumption.
Qed.

(** C1 (normalization, I1/P1): every public mutating operation of the
    relationship store ([add_node], [adjust_node_to_cluster_strength],
    [adjust_cluster_to_node_strength], [delete_node], [_delete_cluster],
    [remove_related_item] on any of the three tables) that completes keeps
    the invariant that each item with at least one related item has
    strengths summing to within 0.01 of 1.  In exact arithmetic each
    re-normalized sum is exactly 1.  (An operation that raises, e.g. on a
    non-positive total, does not complete.) *)
Theorem normalization_invariant (node_manager_of : string -> string) (op : DBOp) (d d' : DB) :
  db_normalized d -> run_op node_manager_of op d = (d', Ok tt) -> db_normalized d'.
Proof.
  intros Hd H. destruct op; simpl in H.
  - eapply add_node_preserves; eauto.
  - eapply adjust_n2c_preserves; eauto.
  - eapply adjust_c2n_preserves; eauto.
  - eapply delete_node_preserves; eauto.
  - eapply delete_cluster_preserves; eauto.
  - eapply on_table_preserves; [apply remove_related_item_preserves|exact Hd|exact H].
Qed.

Lemma normalization_invariant_witness :
  db_normalized (fst (run_op mgrA (OpDeleteCluster "c" true) db1)).
Proof.
  apply (normalization_invariant mgrA (OpDeleteCluster "c" true) db1).
  - apply db_normalized_b_sound. vm_compute. reflexivity.
  - vm_compute. reflexivity.
Defined.

(** C6 (no duplicate relation, I3/P3): adding a relation that already
    exists raises the source's duplicate-relation error
    ([Exception('The item is already related.')]) before any mutation, so
    the table (lists, strengths, positions and counts) is left exactly as it
    was. *)
Theorem duplicate_relation_rejected (t : Table) (item related : string) (strength : Q)
    (position : option Vec) :
  is_related item related t = true ->
  add_related_item item related strength position t =
    (t, Err (Exception "The item is already related.")).
Proof.
  unfold is_related, add_related_item, bind. intros H.
  destruct (t !! item) as [e|] eqn:E; [|discriminate].
  apply bool_decide_eq_true_1 in H. destruct (decide _); [reflexivity|contradiction].
Qed.

Lemma duplicate_relation_rejected_witness :
  is_related "n2" "c" (nodes_to_clusters db1) = true /\
  add_related_item "n2" "c" 1 None (nodes_to_clusters db1) =
    (nodes_to_clusters db1, Err (Exception "The item is already related.")).
Proof.
  split; [vm_compute; reflexivity|].
  apply duplicate_relation_rejected. vm_compute. reflexivity.
Defined.

(** C4 (non-self-correlation, P5): when the two packets come from clusters
    of the same cortex, [_update_connection] returns without touching the
    world: no correlation record, weight, age or reference list changes. *)
Theorem same_stream_update_is_noop (w : World) (old_packet new_packet : DataPacket)
    (o1 o2 : ClusterObj) :
  w_clusters w !! pk_cluster old_packet = Some o1 ->
  w_clusters w !! pk_cluster new_packet = Some o2 ->
  c_cortex o1 = c_cortex o2 ->
  _update_connection old_packet new_packet w = (w, Ok tt).
Proof.
  intros H1 H2 Hc. unfold _update_connection, packet_cortex, get_cluster, bind, get_st.
  simpl. rewrite H2. simpl. rewrite H1. simpl. rewrite Hc, String.eqb_refl. reflexivity.
Qed.

Lemma same_stream_update_is_noop_witness :
  _update_connection q_same_stream p_same_stream w_same_stream = (w_same_stream, Ok tt).
Proof.
  apply (same_stream_update_is_noop w_same_stream q_same_stream p_same_stream
           (cluster_in "A") (cluster_in "A")); reflexivity.
Defined.

(** C9: the feedback calls of [receive_packet] are not guarded by the
    different-cortex check.  Two packets of the same cortex at the same
    timestep, with [learn = true] and no correlation record for the queued
    packet's cluster: both [_update_connection] calls do nothing and
    [_send_feedback_packet] of the queued packet fails on
    [self.correlations[packet.cluster.name]] with a [KeyError], which
    [receive_packet] raises. *)
Theorem receive_packet_same_stream_keyerror :
  c_cortex (cluster_in "A") = c_cortex (cluster_in "A") /\
  correlations (w_cdz w_same_stream) !! pk_cluster q_same_stream = None /\
  _update_connection q_same_stream p_same_stream w_same_stream = (w_same_stream, Ok tt) /\
  _update_connection p_same_stream q_same_stream w_same_stream = (w_same_stream, Ok tt) /\
  _send_feedback_packet q_same_stream w_same_stream = (w_same_stream, Err KeyError) /\
  receive_packet p_same_stream true w_same_stream = (w_same_stream, Err KeyError).
Proof. split_and!; vm_compute; reflexivity. Qed.

(** C7, counterexample: [ClusterCorrelation._normalize] does not fail on a
    zero-sum weight set.  Removing the only correlated cluster leaves an
    empty [connections] (sum 0); the normalization is skipped silently and
    no error is raised; a record whose weights sum to 0 is likewise
    returned unchanged. *)
Lemma cc_normalize_silent_on_zero_sum :
  qsum (map snd [("b", 0)]) <= 0 /\ cc_normalize [("b", 0)] = [("b", 0)] /\
  cc_remove_cluster (mkCC "a" 2 [("b", 1)] ["b"] []) "b" = Some (mkCC "a" 2 [] [] []).
Proof. split_and!; [discriminate| vm_compute; reflexivity | vm_compute; reflexivity]. Qed.

(** C7, as the code does it: the relationship tables' [_normalize] raises
    on a zero-or-negative total, while [ClusterCorrelation._normalize] returns the
    weights unchanged, without an error, when their sum is zero or
    negative. *)
Theorem degenerate_normalization_behaviour :
  (forall (l : list Q) (t : Table), qsum l <= 0 ->
     _normalize l t = (t, Err (Exception "Cannot normalize a list with a total of zero or less."))) /\
  (forall conns : list (string * Q), qsum (map snd conns) <= 0 -> cc_normalize conns = conns).
Proof.
  split.
  - intros l t H. unfold _normalize. apply Qle_bool_iff in H. rewrite H. reflexivity.
  - intros conns H. unfold cc_normalize.
    destruct (Qlt_le_dec 0 _) as [Hlt|]; [|reflexivity].
    exfalso. apply (Qlt_not_le _ _ Hlt H).
Qed.

Lemma scan_queue_no_same_time (packet : DataPacket) (learn : bool) (queue : list DataPacket)
    (w : World) :
  (forall q, q ∈ queue -> pk_time q <> pk_time packet) ->
  scan_queue packet learn queue w = (w, Ok tt).
Proof.
  revert w. induction queue as [|q queue IH]; intros w H; simpl; [reflexivity|].
  destruct (Z.leb _ _); [reflexivity|].
  assert (Z.eqb (pk_time packet) (pk_time q) = false) as ->.
  { apply Z.eqb_neq. intros E. apply (H q); [left|]; congruence. }
  simpl. unfold bind, ret. apply IH. intros q' Hq'. apply H. right. exact Hq'.
Qed.

(** C2, counterexample: with the bell kernel configured (all ten weights
    positive), a packet of another cortex queued at [T - (W - 1)] produces
    no correlation update when a packet arrives at [T] with [learn = true]:
    [receive_packet] completes and the correlation map stays empty. *)
Lemma bell_kernel_no_update_before_T :
  GAUSSIAN (w_cdz w_bell) = bell_gaussian /\ Forall (fun x => 0 < x) bell_gaussian /\
  (pk_time p_bell - pk_time q_bell = CE_CORRELATION_WINDOW_MAX - 1)%Z /\
  option_map c_cortex (w_clusters w_bell !! pk_cluster q_bell) = Some "B" /\
  option_map c_cortex (w_clusters w_bell !! pk_cluster p_bell) = Some "A" /\
  packet_queue (w_cdz w_bell) = [q_bell] /\
  snd (receive_packet p_bell true w_bell) = Ok tt /\
  correlations (w_cdz (fst (receive_packet p_bell true w_bell))) = ∅.
Proof.
  split_and!; try (vm_compute; reflexivity); try discriminate.
  repeat constructor.
Qed.

(** C2, as the code does it: [receive_packet] correlates only queued packets
    of exactly the packet's timestep.  If no queued packet has time [T] —
    in particular for queued packets at [T - W] and at [T - (W - 1)],
    whatever the kernel — the correlation map is unchanged. *)
Theorem receive_packet_correlates_only_same_time (w w' : World) (packet : DataPacket)
    (learn : bool) (r : res unit) :
  (forall q, q ∈ packet_queue (w_cdz w) -> pk_time q <> pk_time packet) ->
  receive_packet packet learn w = (w', r) ->
  correlations (w_cdz w') = correlations (w_cdz w).
Proof.
  intros Hq H. cbn [receive_packet get_cdz get_st bind ret] in H.
  unfold bind at 1 in H. rewrite (scan_queue_no_same_time _ _ _ _ Hq) in H.
  cbn [_process_output put_cdz put_st get_st bind ret] in H. inversion H; subst.
  reflexivity.
Qed.

Lemma receive_packet_correlates_only_same_time_witness :
  correlations (w_cdz (fst (receive_packet p_bell true w_bell))) = correlations (w_cdz w_bell).
Proof.
  apply (receive_packet_correlates_only_same_time w_bell _ p_bell true
           (snd (receive_packet p_bell true w_bell))).
  - intros q Hq. vm_compute in Hq. apply list_elem_of_singleton in Hq. subst. vm_compute. discriminate.
  - apply surjective_pairing.
Defined.

Section Keeps.
Context {S : Type} (R : S -> S -> Prop) `{!Reflexive R} `{!Transitive R}.

Lemma keeps_bind {A B} (m : M S A) (k : A -> M S B) :
  keeps R m -> (forall a, keeps R (k a)) -> keeps R (bind m k).
Proof.
  intros Hm Hk s s' r H. unfold bind in H.
  destruct (m s) as [s1 [a|e]] eqn:E.
  - transitivity s1; [exact (Hm _ _ _ E) | exact (Hk a _ _ _ H)].
  - inversion H; subst. exact (Hm _ _ _ E).
Qed.

Lemma keeps_ret {A} (a : A) : keeps R (ret a).
Proof. intros s s' r H. inversion H; subst. reflexivity. Qed.

Lemma keeps_get_st : keeps R get_st.
Proof. intros s s' r H. inversion H; subst. reflexivity. Qed.

Lemma keeps_of_option {A} (e : Exc) (o : option A) : keeps R (of_option e o).
Proof. intros s s' r H. unfold of_option in H. destruct o; inversion H; subst; reflexivity. Qed.

Lemma keeps_for_each {A} (f : A -> M S unit) (xs : list A) :
  (forall x, keeps R (f x)) -> keeps R (for_each f xs).
Proof.
  intros Hf. induction xs as [|x xs IH]; simpl.
  - apply keeps_ret.
  - apply keeps_bind; [apply Hf | intros _; exact IH].
Qed.

End Keeps.

#[export] Instance same_last_utilized_refl : Reflexive same_last_utilized.
Proof. intros w m. reflexivity. Qed.

#[export] Instance same_last_utilized_trans : Transitive same_last_utilized.
Proof. intros w1 w2 w3 H12 H23 m. rewrite H23. apply H12. Qed.

Lemma on_db_keeps_last_utilized {A} (m : M DB A) : keeps same_last_utilized (on_db m).
Proof.
  intros w w' r H. unfold on_db in H. destruct (m (w_db w)). inversion H; subst.
  intros k. reflexivity.
Qed.

Lemma node_receive_feedback_keeps_last_utilized (n : string) (p : DataPacket) :
  keeps same_last_utilized (node_receive_feedback_packet n p).
Proof.
  unfold node_receive_feedback_packet, get_node.
  apply (keeps_bind same_last_utilized).
  { apply (keeps_bind same_last_utilized); [apply (keeps_get_st same_last_utilized) | intros; apply (keeps_of_option same_last_utilized)]. }
  intros o. apply (keeps_bind same_last_utilized); [apply on_db_keeps_last_utilized|].
  intros _. intros w w' r H. unfold bind, get_st in H. simpl in H.
  destruct (w_nodes w !! n) as [o'|] eqn:E; simpl in H; inversion H; subst; [|reflexivity].
  intros k. unfold set_nodes. cbn [w_nodes]. destruct (decide (k = n)) as [->|Hk].
  - rewrite lookup_insert_eq, E. reflexivity.
  - rewrite lookup_insert_ne by congruence. reflexivity.
Qed.

(** C5, counterexample: the node [n1] of [w_fresh_node], built with no
    feedback and no [last_utilized], is new; after [NODE_IS_NEW + 1]
    feedback packets, all processed without error and nothing else done
    to the node, it has 26 feedback packets and is still new. *)
Lemma fresh_node_still_new_after_feedback :
  option_map is_new (w_nodes w_fresh_node !! "n1") = Some true /\
  snd (feedback_times (Z.to_nat (NODE_IS_NEW + 1)) w_fresh_node) = Ok tt /\
  option_map qty_feedback_packets
    (w_nodes (fst (feedback_times (Z.to_nat (NODE_IS_NEW + 1)) w_fresh_node)) !! "n1")
    = Some (NODE_IS_NEW + 1)%Z /\
  option_map is_new
    (w_nodes (fst (feedback_times (Z.to_nat (NODE_IS_NEW + 1)) w_fresh_node)) !! "n1")
    = Some true.
Proof. split_and!; vm_compute; reflexivity. Qed.

(** C5, as the code does it: [is_new] is false exactly when
    [last_utilized] is set and more than [NODE_IS_NEW] feedback packets
    were counted; feedback packets never set [last_utilized], so a node
    without one stays new after any number of feedback packets. *)
Theorem feedback_never_makes_node_old (w w' : World) (n : string) (o : NodeObj)
    (packets : list DataPacket) (r : res unit) :
  w_nodes w !! n = Some o -> last_utilized o = None ->
  for_each (node_receive_feedback_packet n) packets w = (w', r) ->
  (forall o0, is_new o0 = false <->
     (exists t, last_utilized o0 = Some t) /\ (NODE_IS_NEW < qty_feedback_packets o0)%Z) /\
  exists o', w_nodes w' !! n = Some o' /\ last_utilized o' = None /\ is_new o' = true.
Proof.
  intros Ho Hlu H. split.
  - intros o0. unfold is_new. destruct (last_utilized o0) as [t|].
    + rewrite Z.leb_gt. split; [intros; split; [exists t; reflexivity | lia] | intros [_ ?]; lia].
    + split; [discriminate | intros [[t' ?] _]; discriminate].
  - pose proof (keeps_for_each same_last_utilized _ packets
                  (node_receive_feedback_keeps_last_utilized n) _ _ _ H n) as E.
    rewrite Ho in E. simpl in E.
    destruct (w_nodes w' !! n) as [o'|]; simpl in E; [|discriminate].
    exists o'. inversion E as [E']. rewrite Hlu in E'.
    split_and!; [reflexivity | exact E' | unfold is_new; rewrite E'; reflexivity].
Qed.

Lemma feedback_never_makes_node_old_witness :
  exists o', w_nodes (fst (feedback_times 26 w_fresh_node)) !! "n1" = Some o' /\
             last_utilized o' = None /\ is_new o' = true.
Proof.
  apply (feedback_never_makes_node_old w_fresh_node _ "n1" (node_in "A") (repeat feedback_c 26)
           (snd (feedback_times 26 w_fresh_node))).
  - vm_compute. reflexivity.
  - reflexivity.
  - apply surjective_pairing.
Defined.


Lemma bind_ok_inv {S A B} (m : M S A) (k : A -> M S B) s s' b :
  bind m k s = (s', Ok b) -> exists s1 a, m s = (s1, Ok a) /\ k a s1 = (s', Ok b).
Proof.
  unfold bind. destruct (m s) as [s1 [a|e]]; [eauto|discriminate].
Qed.

Lemma ret_ok_inv {S A} (a : A) s s' b : @ret S A a s = (s', Ok b) -> s' = s /\ b = a.
Proof. unfold ret. intros H. inversion H; auto. Qed.

Lemma get_st_ok_inv {S} (s s' b : S) : get_st s = (s', Ok b) -> s' = s /\ b = s.
Proof. unfold get_st. intros H. inversion H; auto. Qed.

Lemma of_option_ok_inv {S A} e (o : option A) (s s' : S) a :
  of_option e o s = (s', Ok a) -> s' = s /\ o = Some a.
Proof. unfold of_option. destruct o; intros H; inversion H; auto. Qed.

Lemma assert_ok_inv {S} (b : bool) (s s' : S) u :
  assert_ b s = (s', Ok u) -> s' = s /\ b = true.
Proof. unfold assert_. destruct b; intros H; inversion H; auto. Qed.

Lemma get_ok_inv item (t t' : Table) e : get item t = (t', Ok e) -> t' = t /\ t !! item = Some e.
Proof. unfold get. destruct (t !! item); intros H; inversion H; auto. Qed.

Lemma put_entry_ok_inv item e0 (t t' : Table) u :
  put_entry item e0 t = (t', Ok u) -> t' = <[item := e0]> t.
Proof. unfold put_entry. intros H. inversion H; auto. Qed.

Lemma remove_ok_inv item (t t' : Table) u : remove item t = (t', Ok u) -> t' = delete item t.
Proof. unfold remove. destruct (t !! item); intros H; inversion H; auto. Qed.

Lemma normalize_ok_inv l (t t' : Table) l' : _normalize l t = (t', Ok l') -> t' = t.
Proof.
  unfold _normalize. destruct (Qle_bool _ _); intros H; inversion H; auto.
Qed.

Lemma on_n2c_inv {A} (m : M Table A) d d' r :
  on_n2c m d = (d', r) -> exists t, m (nodes_to_clusters d) = (t, r) /\
    d' = mkDB (nodes d) (clusters d) t (clusters_to_nodes d) (node_manager_to_nodes d).
Proof. unfold on_n2c. destruct (m _) as [t r']. intros H. inversion H; subst. eauto. Qed.

Lemma on_c2n_inv {A} (m : M Table A) d d' r :
  on_c2n m d = (d', r) -> exists t, m (clusters_to_nodes d) = (t, r) /\
    d' = mkDB (nodes d) (clusters d) (nodes_to_clusters d) t (node_manager_to_nodes d).
Proof. unfold on_c2n. destruct (m _) as [t r']. intros H. inversion H; subst. eauto. Qed.

Lemma on_nm2n_inv {A} (m : M Table A) d d' r :
  on_nm2n m d = (d', r) -> exists t, m (node_manager_to_nodes d) = (t, r) /\
    d' = mkDB (nodes d) (clusters d) (nodes_to_clusters d) (clusters_to_nodes d) t.
Proof. unfold on_nm2n. destruct (m _) as [t r']. intros H. inversion H; subst. eauto. Qed.

Lemma nodes_remove_ok_inv x d d' u :
  nodes_remove x d = (d', Ok u) -> x ∈ nodes d /\
    d' = mkDB (nodes d ∖ {[x]}) (clusters d) (nodes_to_clusters d) (clusters_to_nodes d)
              (node_manager_to_nodes d).
Proof. unfold nodes_remove. destruct (decide _); intros H; inversion H; subst; auto. Qed.

Lemma clusters_remove_ok_inv x d d' u :
  clusters_remove x d = (d', Ok u) -> x ∈ clusters d /\
    d' = mkDB (nodes d) (clusters d ∖ {[x]}) (nodes_to_clusters d) (clusters_to_nodes d)
              (node_manager_to_nodes d).
Proof. unfold clusters_remove. destruct (decide _); intros H; inversion H; subst; auto. Qed.

Ltac db_simpl :=
  cbn [nodes clusters nodes_to_clusters clusters_to_nodes node_manager_to_nodes] in *.

Ltac ok_inv H :=
  repeat match type of H with
  | bind _ _ _ = (_, Ok _) =>
      let s1 := fresh "s" in let a := fresh "a" in let H1 := fresh "H" in
      apply bind_ok_inv in H; destruct H as (s1 & a & H1 & H); ok_inv H1
  | ret _ _ = (_, Ok _) =>
      let E1 := fresh "E" in let E2 := fresh "E" in
      apply ret_ok_inv in H; destruct H as [E1 E2]; subst
  | get_st _ = (_, Ok _) =>
      let E1 := fresh "E" in let E2 := fresh "E" in
      apply get_st_ok_inv in H; destruct H as [E1 E2]; subst
  | of_option _ _ _ = (_, Ok _) =>
      let E1 := fresh "E" in let E2 := fresh "E" in
      apply of_option_ok_inv in H; destruct H as [E1 E2]; subst
  | assert_ _ _ = (_, Ok _) =>
      let E1 := fresh "E" in let E2 := fresh "E" in
      apply assert_ok_inv in H; destruct H as [E1 E2]; subst
  | get _ _ = (_, Ok _) =>
      let E1 := fresh "E" in let E2 := fresh "E" in
      apply get_ok_inv in H; destruct H as [E1 E2]; subst;
      try (rewrite lookup_insert_eq in E2; injection E2 as <-)
  | put_entry _ _ _ = (_, Ok _) =>
      let E1 := fresh "E" in apply put_entry_ok_inv in H; subst
  | remove _ _ = (_, Ok _) =>
      apply remove_ok_inv in H; subst
  | _normalize _ _ = (_, Ok _) =>
      apply normalize_ok_inv in H; subst
  | on_n2c _ _ = (_, Ok _) =>
      let t := fresh "t" in let Hm := fresh "Hm" in
      apply on_n2c_inv in H; destruct H as (t & Hm & ->); ok_inv Hm
  | on_c2n _ _ = (_, Ok _) =>
      let t := fresh "t" in let Hm := fresh "Hm" in
      apply on_c2n_inv in H; destruct H as (t & Hm & ->); ok_inv Hm
  | on_nm2n _ _ = (_, Ok _) =>
      let t := fresh "t" in let Hm := fresh "Hm" in
      apply on_nm2n_inv in H; destruct H as (t & Hm & ->); ok_inv Hm
  | nodes_remove _ _ = (_, Ok _) =>
      let Hx := fresh "Hx" in apply nodes_remove_ok_inv in H; destruct H as [Hx ->]
  | clusters_remove _ _ = (_, Ok _) =>
      let Hx := fresh "Hx" in apply clusters_remove_ok_inv in H; destruct H as [Hx ->]
  end.

Lemma list_index_elem x l i : list_index x l = Some i -> x ∈ l.
Proof.
  revert i. induction l as [|y l IH]; intros i H; simpl in H; [discriminate|].
  destruct (String.eqb_spec x y) as [->|Hne]; [left|].
  destruct (list_index x l) eqn:E; [|discriminate]. right. eapply IH; eauto.
Qed.

Lemma remove_related_item_ok item related (t t' : Table) u :
  remove_related_item item related t = (t', Ok u) ->
  (forall j, j <> item -> t' !! j = t !! j) /\
  exists e, t !! item = Some e /\ related ∈ e_list e /\
            option_map e_list (t' !! item) = Some (remove_first related (e_list e)).
Proof.
  intros H. unfold remove_related_item in H. ok_inv H.
  destruct (0 <? _); [unfold _normalize_item in H|]; ok_inv H; rewrite ?insert_insert_eq in *.
  all: split; [intros j Hj; rewrite lookup_insert_ne by congruence; reflexivity|].
  all: exists a; split_and!; [exact E0 | eapply list_index_elem; eauto
                             | rewrite lookup_insert_eq; reflexivity].
Qed.

Lemma delete_node_empty_ok mgr n d d' u :
  delete_node mgr n d = (d', Ok u) -> option_map e_list (nodes_to_clusters d !! n) = Some [] ->
  nodes_to_clusters d' = delete n (nodes_to_clusters d) /\ nodes d' = nodes d ∖ {[n]}.
Proof.
  intros H Hn. unfold delete_node, get_nodes_clusters in H. ok_inv H.
  cbn [nodes clusters nodes_to_clusters clusters_to_nodes node_manager_to_nodes] in *.
  rewrite E0 in Hn. injection Hn as Hn. rewrite Hn in H0. cbn [for_each] in H0. ok_inv H0.
  cbn [nodes clusters nodes_to_clusters clusters_to_nodes node_manager_to_nodes]. auto.
Qed.

Lemma detach_node_ok mgr c n d d' u :
  detach_node mgr c n d = (d', Ok u) ->
  (forall j, j <> n -> nodes_to_clusters d' !! j = nodes_to_clusters d !! j /\
                       (j ∈ nodes d' <-> j ∈ nodes d)) /\
  exists L, option_map e_list (nodes_to_clusters d !! n) = Some L /\ c ∈ L /\
   ((remove_first c L = [] /\ nodes_to_clusters d' !! n = None /\ n ∉ nodes d') \/
    (remove_first c L <> [] /\
     option_map e_list (nodes_to_clusters d' !! n) = Some (remove_first c L) /\
     (n ∈ nodes d' <-> n ∈ nodes d))).
Proof.
  intros H. unfold detach_node, get_nodes_clusters in H. ok_inv H.
  apply remove_related_item_ok in Hm as (Hfr & e & He & Hc & Hl).
  db_simpl. rewrite E0 in Hl. injection Hl as Hl.
  destruct (length (e_list a2) =? 0) eqn:Hlen.
  - apply Nat.eqb_eq, length_zero_iff_nil in Hlen.
    apply delete_node_empty_ok in H as [Hn2c Hnodes];
      [|cbn [nodes_to_clusters]; rewrite E0; cbn [option_map]; rewrite Hlen; reflexivity].
    cbn [nodes nodes_to_clusters] in Hn2c, Hnodes. split.
    + intros j Hj. rewrite Hn2c, lookup_delete_ne by congruence.
      split; [apply Hfr; exact Hj|]. rewrite Hnodes. set_solver.
    + exists (e_list e). split_and!; [rewrite He; reflexivity | exact Hc | left].
      split_and!; [congruence | rewrite Hn2c; apply lookup_delete_eq | rewrite Hnodes; set_solver].
  - ok_inv H. cbn [nodes nodes_to_clusters]. split.
    + intros j Hj. split; [apply Hfr; exact Hj | reflexivity].
    + exists (e_list e). split_and!; [rewrite He; reflexivity | exact Hc | right].
      split_and!; [intros E; rewrite <- Hl in E; rewrite E in Hlen; discriminate
                  | rewrite E0; cbn [option_map]; rewrite Hl; reflexivity | reflexivity].
Qed.

Lemma db_eta d :
  mkDB (nodes d) (clusters d) (nodes_to_clusters d) (clusters_to_nodes d) (node_manager_to_nodes d) = d.
Proof. destruct d; reflexivity. Qed.

Lemma for_each_detach_ok mgr c ns d d' u :
  NoDup ns -> for_each (detach_node mgr c) ns d = (d', Ok u) ->
  (forall j, j ∉ ns -> nodes_to_clusters d' !! j = nodes_to_clusters d !! j /\
                       (j ∈ nodes d' <-> j ∈ nodes d)) /\
  (forall n, n ∈ ns -> exists L, option_map e_list (nodes_to_clusters d !! n) = Some L /\ c ∈ L /\
   ((remove_first c L = [] /\ nodes_to_clusters d' !! n = None /\ n ∉ nodes d') \/
    (remove_first c L <> [] /\
     option_map e_list (nodes_to_clusters d' !! n) = Some (remove_first c L) /\
     (n ∈ nodes d' <-> n ∈ nodes d)))).
Proof.
  revert d. induction ns as [|n ns IH]; intros d Hnd H; cbn [for_each] in H.
  - ok_inv H. split; [intros; split; reflexivity | intros n Hn; set_solver].
  - apply NoDup_cons in Hnd as [Hn Hnd].
    apply bind_ok_inv in H as (d1 & u1 & H1 & H2).
    apply detach_node_ok in H1 as (Hfr1 & L & HL & Hc & Hdisj).
    destruct (IH d1 Hnd H2) as [Hfr2 Hns]. split.
    + intros j Hj. apply not_elem_of_cons in Hj as [Hjn Hj].
      destruct (Hfr2 j Hj) as [E2 M2]. destruct (Hfr1 j Hjn) as [E1 M1].
      rewrite E2, E1. split; [reflexivity | rewrite M2; exact M1].
    + intros n0 Hn0. apply elem_of_cons in Hn0 as [->|Hn0].
      * exists L. split_and!; [exact HL | exact Hc|].
        destruct (Hfr2 n Hn) as [E2 M2]. rewrite E2, M2. exact Hdisj.
      * assert (n0 <> n) as Hne by (intros ->; contradiction).
        destruct (Hns n0 Hn0) as (L0 & HL0 & Hc0 & Hdisj0).
        destruct (Hfr1 n0 Hne) as [E1 M1]. rewrite E1 in HL0.
        exists L0. split_and!; [exact HL0 | exact Hc0|].
        rewrite <- M1. exact Hdisj0.
Qed.

Lemma remove_first_length c L : c ∈ L -> S (length (remove_first c L)) = length L.
Proof.
  induction L as [|y L IH]; intros H; [set_solver|]. simpl.
  destruct (String.eqb_spec c y) as [->|Hne]; [reflexivity|].
  simpl. rewrite IH; [reflexivity|]. apply elem_of_cons in H as [->|H]; [congruence|exact H].
Qed.

(** C3: a successful [_delete_cluster(cluster, force=True)] on a store
    whose entry for the cluster lists each node once removes the cluster
    from [clusters] and [clusters_to_nodes]; every node of its former list
    had the cluster in its own list, which loses exactly that one element
    (its length drops by one); a node whose list becomes empty is removed
    from [nodes] and [nodes_to_clusters], the others keep their entry with
    the shortened list; nodes not edged to the cluster are untouched. *)
Theorem force_delete_cluster_cascade mgr c d d' :
  (forall e, clusters_to_nodes d !! c = Some e -> NoDup (e_list e)) ->
  _delete_cluster mgr c true d = (d', Ok tt) ->
  (c ∉ clusters d') /\ clusters_to_nodes d' !! c = None /\
  exists ns, option_map e_list (clusters_to_nodes d !! c) = Some ns /\
  (forall j, j ∉ ns -> nodes_to_clusters d' !! j = nodes_to_clusters d !! j /\
                       (j ∈ nodes d' <-> j ∈ nodes d)) /\
  (forall n, n ∈ ns -> exists L, option_map e_list (nodes_to_clusters d !! n) = Some L /\
     c ∈ L /\ S (length (remove_first c L)) = length L /\
   ((remove_first c L = [] /\ nodes_to_clusters d' !! n = None /\ n ∉ nodes d') \/
    (remove_first c L <> [] /\
     option_map e_list (nodes_to_clusters d' !! n) = Some (remove_first c L) /\
     (n ∈ nodes d' <-> n ∈ nodes d)))).
Proof.
  intros Hnd H. unfold _delete_cluster, get_clusters_nodes in H. cbv beta iota in H.
  ok_inv H. db_simpl. rewrite db_eta in H0.
  apply for_each_detach_ok in H0 as [Hfr Hns]; [|apply Hnd; exact E0].
  split_and!; [set_solver | apply lookup_delete_eq |].
  exists (e_list a1). split_and!; [rewrite E0; reflexivity | exact Hfr |].
  intros n Hn. destruct (Hns n Hn) as (L & HL & Hc & Hdisj).
  exists L. split_and!; [exact HL | exact Hc | apply remove_first_length; exact Hc | exact Hdisj].
Qed.

(** On [db1], cluster [c] is edged to [n1], [n2], [n3] and only [n1] has
    no other cluster: forcing its deletion removes [n1], while [n2] and
    [n3] keep one cluster each. *)
Lemma force_delete_cluster_cascade_witness :
  option_map e_list (clusters_to_nodes db1 !! "c") = Some ["n1"; "n2"; "n3"] /\
  option_map e_list (nodes_to_clusters db1 !! "n1") = Some ["c"] /\
  option_map e_list (nodes_to_clusters db1 !! "n2") = Some ["c2"; "c"] /\
  option_map e_list (nodes_to_clusters db1 !! "n3") = Some ["c3"; "c"] /\
  snd (_delete_cluster mgrA "c" true db1) = Ok tt /\
  ("n1" ∉ nodes (fst (_delete_cluster mgrA "c" true db1))) /\
  option_map e_list (nodes_to_clusters (fst (_delete_cluster mgrA "c" true db1)) !! "n2")
    = Some ["c2"] /\
  option_map e_list (nodes_to_clusters (fst (_delete_cluster mgrA "c" true db1)) !! "n3")
    = Some ["c3"] /\
  ("c" ∉ clusters (fst (_delete_cluster mgrA "c" true db1))) /\
  clusters_to_nodes (fst (_delete_cluster mgrA "c" true db1)) !! "c" = None.
Proof.
  assert (Hnd : forall e, clusters_to_nodes db1 !! "c" = Some e -> NoDup (e_list e)).
  { intros e He. vm_compute in He. injection He as <-. vm_compute.
    repeat constructor; set_solver. }
  destruct (force_delete_cluster_cascade mgrA "c" db1 (fst (_delete_cluster mgrA "c" true db1)) Hnd)
    as (Hc & Hc2n & _); [vm_compute; reflexivity|].
  split_and!; try exact Hc; try exact Hc2n; try (vm_compute; reflexivity).
Defined.



Lemma normalize_item_ok k (t t' : Table) u e :
  _normalize_item k t = (t', Ok u) -> t !! k = Some e ->
  exists l, t' = <[k := set_strengths l e]> t.
Proof.
  intros H He. unfold _normalize_item in H. ok_inv H.
  match goal with E : t !! k = Some _ |- _ => rewrite He in E; injection E as <- end.
  eauto.
Qed.

Lemma list_index_app_notin x l : x ∉ l -> list_index x (l ++ [x]) = Some (length l).
Proof.
  induction l as [|y l IH]; intros H; simpl.
  - rewrite String.eqb_refl. reflexivity.
  - destruct (String.eqb_spec x y) as [->|Hne]; [set_solver|].
    rewrite IH by set_solver. reflexivity.
Qed.

Lemma add_related_item_new item related s p (t t' : Table) u :
  add_related_item item related s (Some p) t = (t', Ok u) ->
  is_related item related t = false ->
  (forall e, t !! item = Some e ->
     length (e_position e) = length (e_list e) /\ length (e_count e) = length (e_list e)) ->
  exists e' i, t' !! item = Some e' /\ list_index related (e_list e') = Some i /\
    e_position e' !! i = Some (Some p) /\ e_count e' !! i = Some 1%Z.
Proof.
  intros H Hrel Hal. unfold add_related_item in H.
  apply bind_ok_inv in H as (t1 & u1 & H1 & H2).
  unfold is_related in Hrel. destruct (t !! item) as [e|] eqn:Et.
  - apply bool_decide_eq_false in Hrel.
    destruct (decide _) as [Hin|_]; [contradiction|]. injection H1 as <- _.
    eapply normalize_item_ok in H2; [|apply lookup_insert_eq]. destruct H2 as [l ->].
    destruct (Hal e eq_refl) as [Hp Hc].
    eexists _, (length (e_list e)). rewrite lookup_insert_eq. split; [reflexivity|].
    unfold set_strengths. cbn.
    split_and!; [apply list_index_app_notin; exact Hrel | |].
    + rewrite lookup_app_r by lia. rewrite Hp, Nat.sub_diag. reflexivity.
    + rewrite lookup_app_r by lia. rewrite Hc, Nat.sub_diag. reflexivity.
  - unfold add in H1. rewrite Et in H1. injection H1 as <- _.
    eapply normalize_item_ok in H2; [|apply lookup_insert_eq]. destruct H2 as [l ->].
    eexists _, 0%nat. rewrite lookup_insert_eq. split; [reflexivity|].
    unfold set_strengths. cbn. rewrite String.eqb_refl. split_and!; reflexivity.
Qed.

Lemma set_at_ok {A} i (v : A) l l' : set_at i v l = Some l' -> l' = <[i:=v]> l /\ (i < length l)%nat.
Proof. unfold set_at. destruct (decide _); intros H; inversion H; auto. Qed.

Lemma vzip_ok f a b c : vzip f a b = Some c -> length a = length b /\ c = zip_with f a b.
Proof.
  unfold vzip. destruct (Nat.eqb_spec (length a) (length b)); intros H; inversion H; auto.
Qed.

Lemma increase_position_ok item related amount (p : Vec) (t t' : Table) u e i (old : Vec) k :
  increase_relationship_strength item related amount (Some p) t = (t', Ok u) ->
  t !! item = Some e -> list_index related (e_list e) = Some i ->
  e_position e !! i = Some (Some old) -> e_count e !! i = Some k ->
  exists e', t' !! item = Some e' /\ e_list e' = e_list e /\ e_count e' !! i = Some (k + 1)%Z /\
    length p = length old /\
    e_position e' !! i =
      Some (Some (zip_with Qplus old (vdiv (zip_with Qminus p old) (inject_Z (k + 1))))).
Proof.
  intros H He Hi Hp Hk. unfold increase_relationship_strength in H. ok_inv H.
  rewrite He in E1. injection E1 as <-. rewrite Hi in E2. injection E2 as <-.
  unfold set_strengths, set_count, set_position in *.
  cbn [e_count e_position e_list e_strengths] in *.
  rewrite Hk in E5. injection E5 as <-. rewrite Hp in E7. injection E7 as <-.
  apply set_at_ok in E6 as [-> Hlt].
  cbv iota in H0. ok_inv H0. injection E1 as <-.
  apply vzip_ok in E2 as [Hlen ->]. rewrite list_lookup_insert_eq in E5 by exact Hlt.
  injection E5 as <-. apply vzip_ok in E6 as [Hlen' ->].
  apply set_at_ok in E7 as [-> Hlt'].
  eapply normalize_item_ok in H; [|apply lookup_insert_eq]. destruct H as [l ->].
  eexists. rewrite lookup_insert_eq. split; [reflexivity|]. cbn.
  split_and!; [reflexivity | rewrite list_lookup_insert_eq by exact Hlt; reflexivity
              | exact Hlen | rewrite list_lookup_insert_eq by exact Hlt'; reflexivity].
Qed.

Lemma adjust_new_ok node cluster a p d d' u :
  adjust_node_to_cluster_strength node cluster a (Some p) d = (d', Ok u) ->
  is_related node cluster (nodes_to_clusters d) = false ->
  (forall e, nodes_to_clusters d !! node = Some e ->
     length (e_position e) = length (e_list e) /\ length (e_count e) = length (e_list e)) ->
  exists e i, nodes_to_clusters d' !! node = Some e /\ list_index cluster (e_list e) = Some i /\
    e_position e !! i = Some (Some p) /\ e_count e !! i = Some 1%Z.
Proof.
  intros H Hrel Hal. unfold adjust_node_to_cluster_strength in H. ok_inv H.
  rewrite Hrel in H. cbn [negb] in H. ok_inv H. db_simpl.
  eapply add_related_item_new; eauto.
Qed.

Lemma adjust_related_ok node cluster a (p : Vec) d d' u e i (old : Vec) k :
  adjust_node_to_cluster_strength node cluster a (Some p) d = (d', Ok u) ->
  nodes_to_clusters d !! node = Some e -> list_index cluster (e_list e) = Some i ->
  e_position e !! i = Some (Some old) -> e_count e !! i = Some k ->
  exists e', nodes_to_clusters d' !! node = Some e' /\ e_list e' = e_list e /\
    e_count e' !! i = Some (k + 1)%Z /\ length p = length old /\
    e_position e' !! i =
      Some (Some (zip_with Qplus old (vdiv (zip_with Qminus p old) (inject_Z (k + 1))))).
Proof.
  intros H He Hi Hp Hk. unfold adjust_node_to_cluster_strength in H. ok_inv H.
  assert (is_related node cluster (nodes_to_clusters d) = true) as Hrel.
  { unfold is_related. rewrite He. apply bool_decide_eq_true. eapply list_index_elem; eauto. }
  rewrite Hrel in H. cbn [negb] in H. ok_inv H. db_simpl.
  eapply increase_position_ok; eauto.
Qed.

Lemma running_mean3 (p1 p2 p3 : Vec) :
  length p2 = length p1 ->
  length p3 = length (zip_with Qplus p1 (vdiv (zip_with Qminus p2 p1) (inject_Z (1 + 1)))) ->
  Forall2 Qeq
    (zip_with Qplus (zip_with Qplus p1 (vdiv (zip_with Qminus p2 p1) (inject_Z (1 + 1))))
       (vdiv (zip_with Qminus p3
                (zip_with Qplus p1 (vdiv (zip_with Qminus p2 p1) (inject_Z (1 + 1)))))
             (inject_Z (1 + 1 + 1))))
    (vmean3 p1 p2 p3).
Proof.
  change (inject_Z (1 + 1)) with 2. change (inject_Z (1 + 1 + 1)) with 3.
  revert p2 p3. induction p1 as [|x1 p1 IH]; intros [|x2 p2] [|x3 p3] H2 H3;
    simpl in *; try discriminate; constructor.
  - field.
  - apply IH; lia.
Qed.

(** C8: when [node] is not yet related to [cluster] (and its entry, if
    any, has one position and one count per related cluster), three
    successful calls [adjust_node_to_cluster_strength] with positions [p1],
    [p2], [p3] leave at the cluster's index of the node's entry a position
    equal, coordinate by coordinate, to the mean [(p1 + p2 + p3) / 3]. *)
Theorem running_mean_position node cluster a1 a2 a3 (p1 p2 p3 : Vec) d d1 d2 d3 :
  is_related node cluster (nodes_to_clusters d) = false ->
  (forall e, nodes_to_clusters d !! node = Some e ->
     length (e_position e) = length (e_list e) /\ length (e_count e) = length (e_list e)) ->
  adjust_node_to_cluster_strength node cluster a1 (Some p1) d = (d1, Ok tt) ->
  adjust_node_to_cluster_strength node cluster a2 (Some p2) d1 = (d2, Ok tt) ->
  adjust_node_to_cluster_strength node cluster a3 (Some p3) d2 = (d3, Ok tt) ->
  exists e i p, nodes_to_clusters d3 !! node = Some e /\ list_index cluster (e_list e) = Some i /\
    e_position e !! i = Some (Some p) /\ Forall2 Qeq p (vmean3 p1 p2 p3).
Proof.
  intros Hrel Hal H1 H2 H3.
  destruct (adjust_new_ok _ _ _ _ _ _ _ H1 Hrel Hal) as (e1 & i & He1 & Hi1 & Hp1 & Hk1).
  destruct (adjust_related_ok _ _ _ _ _ _ _ _ _ _ _ H2 He1 Hi1 Hp1 Hk1)
    as (e2 & He2 & Hl2 & Hk2 & Hlen2 & Hp2).
  rewrite <- Hl2 in Hi1.
  destruct (adjust_related_ok _ _ _ _ _ _ _ _ _ _ _ H3 He2 Hi1 Hp2 Hk2)
    as (e3 & He3 & Hl3 & Hk3 & Hlen3 & Hp3).
  rewrite <- Hl3 in Hi1.
  eexists e3, i, _. split_and!; [exact He3 | exact Hi1 | exact Hp3 |].
  apply running_mean3; assumption.
Qed.

(** Node [n1] of [db1] and cluster [c3], with positions [0], [3], [6]. *)
Lemma running_mean_position_witness :
  exists e i p,
    nodes_to_clusters
      (fst (adjust_node_to_cluster_strength "n1" "c3" 1 (Some [6])
        (fst (adjust_node_to_cluster_strength "n1" "c3" 1 (Some [3])
          (fst (adjust_node_to_cluster_strength "n1" "c3" 1 (Some [0]) db1)))))) !! "n1" = Some e /\
    list_index "c3" (e_list e) = Some i /\
    e_position e !! i = Some (Some p) /\ Forall2 Qeq p (vmean3 [0] [3] [6]).
Proof.
  apply (running_mean_position "n1" "c3" 1 1 1 [0] [3] [6] db1
           (fst (adjust_node_to_cluster_strength "n1" "c3" 1 (Some [0]) db1))
           (fst (adjust_node_to_cluster_strength "n1" "c3" 1 (Some [3])
              (fst (adjust_node_to_cluster_strength "n1" "c3" 1 (Some [0]) db1))))).
  - vm_compute. reflexivity.
  - intros e He. vm_compute in He. injection He as <-. split; reflexivity.
  - vm_compute. reflexivity.
  - vm_compute. reflexivity.
  - vm_compute. reflexivity.
Defined.

#[export] Instance same_weights_refl : Reflexive same_weights.
Proof. intros w. unfold same_weights. auto. Qed.

#[export] Instance same_weights_trans : Transitive same_weights.
Proof.
  intros w1 w2 w3 (A1 & B1 & C1) (A2 & B2 & C2). unfold same_weights.
  rewrite A2, B2, C2. auto.
Qed.

Create HintDb weights.

Lemma sw_put_node n o : keeps same_weights (put_node n o).
Proof. intros w w' r H. unfold put_node, bind, get_st, put_st in H. inversion H; subst. split_and!; reflexivity. Qed.
Lemma sw_put_nm c o : keeps same_weights (put_nm c o).
Proof. intros w w' r H. unfold put_nm, bind, get_st, put_st in H. inversion H; subst. split_and!; reflexivity. Qed.
Lemma sw_put_cluster c o : keeps same_weights (put_cluster c o).
Proof. intros w w' r H. unfold put_cluster, bind, get_st, put_st in H. inversion H; subst. split_and!; reflexivity. Qed.
Lemma sw_get_st : keeps same_weights get_st.
Proof. apply keeps_get_st; typeclasses eauto. Qed.
Lemma sw_ret {A} (a : A) : keeps same_weights (ret a).
Proof. apply keeps_ret; typeclasses eauto. Qed.
Lemma sw_of_option {A} e (o : option A) : keeps same_weights (of_option e o).
Proof. apply keeps_of_option; typeclasses eauto. Qed.
Lemma sw_assert b : keeps same_weights (@assert_ World b).
Proof. destruct b; [apply sw_ret|]. intros w w' r H. inversion H; subst. reflexivity. Qed.
Lemma sw_bind {A B} (m : M World A) (k : A -> M World B) :
  keeps same_weights m -> (forall a, keeps same_weights (k a)) -> keeps same_weights (bind m k).
Proof. apply keeps_bind; typeclasses eauto. Qed.
Lemma sw_if {A} (b : bool) (m1 m2 : M World A) :
  keeps same_weights m1 -> keeps same_weights m2 -> keeps same_weights (if b then m1 else m2).
Proof. destruct b; auto. Qed.

Lemma sw_on_db_get_n2c k : keeps same_weights (on_db (on_n2c (get k))).
Proof.
  intros w w' r H. unfold on_db, on_n2c, get in H.
  destruct (nodes_to_clusters (w_db w) !! k); inversion H; subst; unfold same_weights; simpl; auto.
Qed.
Lemma sw_on_db_get_nm2n k : keeps same_weights (on_db (on_nm2n (get k))).
Proof.
  intros w w' r H. unfold on_db, on_nm2n, get in H.
  destruct (node_manager_to_nodes (w_db w) !! k); inversion H; subst; unfold same_weights; simpl; auto.
Qed.

Lemma sw_put_cdz_same q :
  keeps same_weights (z <-- get_cdz ;; put_cdz (mkCDZ (GAUSSIAN z) (LEARNING_RATE z) (q z) (correlations z))).
Proof.
  intros w w' r H. unfold get_cdz, put_cdz, bind, get_st, ret, put_st in H. inversion H; subst.
  unfold same_weights; simpl; auto.
Qed.

#[export] Hint Resolve sw_put_node sw_put_nm sw_put_cluster sw_get_st sw_ret sw_of_option sw_assert
  sw_on_db_get_n2c sw_on_db_get_nm2n : weights.

Ltac solve_sw :=
  repeat (match goal with
          | |- keeps same_weights (bind _ _) => apply sw_bind; [|intro]
          | |- keeps same_weights (if _ then _ else _) => apply sw_if
          | |- keeps same_weights (match ?x with _ => _ end) => destruct x
          end || eauto with weights).

Lemma sw_get_node n : keeps same_weights (get_node n).
Proof. unfold get_node. solve_sw. Qed.
Lemma sw_get_nm c : keeps same_weights (get_nm c).
Proof. unfold get_nm. solve_sw. Qed.
Lemma sw_get_cluster c : keeps same_weights (get_cluster c).
Proof. unfold get_cluster. solve_sw. Qed.
Lemma sw_get_cdz : keeps same_weights get_cdz.
Proof. unfold get_cdz. solve_sw. Qed.
Lemma sw_nm_nodes c : keeps same_weights (nm_nodes c).
Proof. unfold nm_nodes. solve_sw. Qed.

#[export] Hint Resolve sw_get_node sw_get_nm sw_get_cluster sw_get_cdz sw_nm_nodes : weights.

Lemma sw_scan_queue_no_learn packet queue : keeps same_weights (scan_queue packet false queue).
Proof.
  induction queue as [|q queue IH]; simpl; [apply sw_ret|].
  apply sw_if; [apply sw_ret|]. rewrite andb_false_r. apply sw_bind; [apply sw_ret|intros _; exact IH].
Qed.

Lemma sw_receive_packet_no_learn packet : keeps same_weights (receive_packet packet false).
Proof.
  unfold receive_packet. apply sw_bind; [apply sw_get_cdz|intros z].
  apply sw_bind; [apply sw_scan_queue_no_learn|intros _].
  apply sw_bind; [apply sw_ret|intros _].
  apply (sw_put_cdz_same (fun z => take (PACKET_QUEUE_LENGTH z) (packet :: packet_queue z))).
Qed.

Lemma sw_excite_cdz_no_learn c s n : keeps same_weights (excite_cdz c s n false).
Proof. unfold excite_cdz. solve_sw. apply sw_receive_packet_no_learn. Qed.

Lemma sw_map_m {A B} (f : A -> M World B) xs :
  (forall x, keeps same_weights (f x)) -> keeps same_weights (map_m f xs).
Proof. intros Hf. induction xs as [|x xs IH]; simpl; solve_sw. Qed.

Section Inference.
Variable norm : Vec -> Q.
Variable annoy_nearest : list Vec -> Vec -> option (nat * Q).

Lemma sw_get_distance n p : keeps same_weights (get_distance norm n p).
Proof. unfold get_distance. solve_sw. Qed.

Lemma sw_find_nearest_node c enc : keeps same_weights (_find_nearest_node norm annoy_nearest c enc).
Proof.
  unfold _find_nearest_node. solve_sw. apply sw_map_m. intros n. solve_sw. apply sw_get_distance.
Qed.

Lemma sw_get_strongest_cluster n : keeps same_weights (get_strongest_cluster n).
Proof. unfold get_strongest_cluster. solve_sw. Qed.

End Inference.

Lemma nm_nodes_state c w : fst (nm_nodes c w) = w.
Proof.
  unfold nm_nodes, bind, on_db, on_nm2n, get, ret.
  destruct (node_manager_to_nodes (w_db w) !! c); destruct w as [[] ? ? ? ? ? ?]; reflexivity.
Qed.

Lemma get_nm_at c w nm : w_nms w !! c = Some nm -> get_nm c w = (w, Ok nm).
Proof. intros H. unfold get_nm, bind, get_st, of_option. rewrite H. reflexivity. Qed.

Lemma sw_add_initial_finished c enc w w1 r nm :
  w_nms w !! c = Some nm -> finished_initial nm = true ->
  _add_initial_nodes c enc w = (w1, r) -> same_weights w w1.
Proof.
  intros Hnm Hfin H. unfold _add_initial_nodes in H. unfold bind at 1 in H.
  destruct (nm_nodes c w) as [w0 [ns|e]] eqn:E0.
  2: { inversion H; subst. exact (sw_nm_nodes c w w1 _ E0). }
  pose proof (nm_nodes_state c w) as Hs. rewrite E0 in Hs. simpl in Hs. subst w0.
  unfold bind at 1 in H. rewrite (get_nm_at c w nm Hnm) in H. cbv beta iota in H.
  rewrite Hfin, andb_false_r in H. unfold bind at 1, ret in H. cbv beta iota in H.
  match type of H with ?m w = _ =>
    assert (K : keeps same_weights m) by solve_sw; exact (K _ _ _ H) end.
Qed.

(** C10: a call [receive_encoding(encoding, learn=False)] on a stream
    whose node manager has [finished_initial] set changes neither
    [nodes_to_clusters] nor [clusters_to_nodes] (so no relationship
    strength) nor the CDZ's correlation records, whatever its outcome. *)
Theorem inference_keeps_weights norm annoy_nearest cortex enc w w' r nm :
  w_nms w !! cortex = Some nm -> finished_initial nm = true ->
  receive_encoding norm annoy_nearest cortex enc false w = (w', r) ->
  nodes_to_clusters (w_db w') = nodes_to_clusters (w_db w) /\
  clusters_to_nodes (w_db w') = clusters_to_nodes (w_db w) /\
  correlations (w_cdz w') = correlations (w_cdz w).
Proof.
  intros Hnm Hfin H. change (same_weights w w').
  unfold receive_encoding in H. unfold bind at 1 in H.
  destruct (_add_initial_nodes cortex enc w) as [w0 [u|e]] eqn:E0.
  2: { inversion H; subst. exact (sw_add_initial_finished _ _ _ _ _ _ Hnm Hfin E0). }
  transitivity w0; [exact (sw_add_initial_finished _ _ _ _ _ _ Hnm Hfin E0)|].
  match type of H with ?m w0 = _ =>
    assert (K : keeps same_weights m); [|exact (K _ _ _ H)] end.
  solve_sw; auto using sw_find_nearest_node, sw_get_strongest_cluster, sw_excite_cdz_no_learn.
Qed.

Lemma inference_keeps_weights_witness :
  snd (receive_encoding sq_norm no_index "A" [1] false w_inference) = Ok "c" /\
  nodes_to_clusters (w_db (fst (receive_encoding sq_norm no_index "A" [1] false w_inference)))
    = nodes_to_clusters (w_db w_inference) /\
  clusters_to_nodes (w_db (fst (receive_encoding sq_norm no_index "A" [1] false w_inference)))
    = clusters_to_nodes (w_db w_inference) /\
  correlations (w_cdz (fst (receive_encoding sq_norm no_index "A" [1] false w_inference)))
    = correlations (w_cdz w_inference).
Proof.
  split; [vm_compute; reflexivity|].
  apply (inference_keeps_weights sq_norm no_index "A" [1] w_inference _
           (snd (receive_encoding sq_norm no_index "A" [1] false w_inference))
           (set_finished_initial true nm_fresh)).
  - vm_compute. reflexivity.
  - reflexivity.
  - apply surjective_pairing.
Defined.

Lemma qsum_one : qsum [1] = 1. Proof. reflexivity. Qed.

(** X1: OneToManyTable.add_related_item on an item absent from the table creates its entry with the
    single related item, strength 1, the given position and count 1, and returns normally; no other
    key changes. *)
Theorem add_related_item_missing_item (t : Table) item related strength position :
  t !! item = None ->
  add_related_item item related strength position t =
    (<[item := mkEntry [related] [1] [position] [1%Z]]> t, Ok tt).
Proof.
  intros H. unfold add_related_item, add, bind. rewrite H.
  unfold _normalize_item, bind, get. rewrite lookup_insert_eq.
  unfold _normalize. cbn [e_strengths]. rewrite qsum_one.
  change (Qle_bool 1 0) with false. change (Qred (1 / 1)) with 1.
  unfold ret. cbv beta iota. rewrite lookup_insert_eq. cbv beta iota.
  unfold set_strengths. cbn [e_list e_position e_count]. unfold put_entry. cbn [map]. change (Qred (1 / 1)) with 1. rewrite insert_insert_eq. reflexivity.
Qed.

Lemma add_related_item_missing_item_witness :
  (∅ : Table) !! "A" = None /\
  add_related_item "A" "n" (1 # 4) None ∅ = (<["A" := mkEntry ["n"] [1] [None] [1%Z]]> ∅, Ok tt).
Proof. split; [reflexivity|]. apply add_related_item_missing_item. reflexivity. Defined.

(** X2: When the new strength makes an existing entry's strength sum zero or less, add_related_item
    still leaves the related item, strength, position and count appended to the entry and then
    raises 'Cannot normalize a list with a total of zero or less.' *)
Theorem add_related_item_append_kept_on_normalize_error (t : Table) item related strength position e :
  t !! item = Some e -> related ∉ e_list e -> qsum (e_strengths e ++ [strength]) <= 0 ->
  add_related_item item related strength position t =
    (<[item := mkEntry (e_list e ++ [related]) (e_strengths e ++ [strength])
                       (e_position e ++ [position]) (e_count e ++ [1%Z])]> t,
     Err (Exception "Cannot normalize a list with a total of zero or less.")).
Proof.
  intros He Hn Hq. unfold add_related_item, bind. rewrite He.
  destruct (decide _) as [Hin|_]; [contradiction|].
  unfold _normalize_item, bind, get. rewrite lookup_insert_eq. unfold _normalize. cbn [e_strengths].
  apply Qle_bool_iff in Hq. rewrite Hq. reflexivity.
Qed.

Lemma list_index_some x l : x ∈ l -> exists i, list_index x l = Some i /\ (i < length l)%nat.
Proof.
  induction l as [|y l IH]; intros H; [set_solver|]. simpl.
  destruct (String.eqb_spec x y) as [->|Hne]; [exists 0%nat; split; [reflexivity|lia]|].
  apply elem_of_cons in H as [->|H]; [congruence|].
  destruct (IH H) as (i & -> & Hi). exists (S i). split; [reflexivity|lia].
Qed.

Lemma pop_at_some {A} i (l : list A) :
  (i < length l)%nat -> exists l', pop_at i l = Some l' /\ S (length l') = length l.
Proof.
  revert i. induction l as [|y l IH]; intros [|i] H; simpl in *; try lia.
  - eauto.
  - destruct (IH i ltac:(lia)) as (l' & -> & Hl). exists (y :: l'). simpl. auto.
Qed.

Lemma remove_first_notin x l : NoDup l -> x ∉ remove_first x l.
Proof.
  induction l as [|y l IH]; intros Hnd; simpl; [set_solver|].
  apply NoDup_cons in Hnd as [Hy Hnd].
  destruct (String.eqb_spec x y) as [->|Hne]; [exact Hy|].
  rewrite elem_of_cons. intros [->|H]; [congruence|]. exact (IH Hnd H).
Qed.

Lemma remove_first_elem_ne x y l : y <> x -> y ∈ remove_first x l <-> y ∈ l.
Proof.
  intros Hne. induction l as [|z l IH]; simpl; [reflexivity|].
  destruct (String.eqb_spec x z) as [->|Hxz]; rewrite ?elem_of_cons, ?IH; [|reflexivity].
  split; [auto|]. intros [->|H]; [congruence|exact H].
Qed.

Lemma remove_first_NoDup x l : NoDup l -> NoDup (remove_first x l).
Proof.
  induction l as [|y l IH]; intros Hnd; simpl; [constructor|].
  apply NoDup_cons in Hnd as [Hy Hnd].
  destruct (String.eqb_spec x y) as [->|Hne]; [exact Hnd|].
  constructor; [|exact (IH Hnd)].
  intros H. destruct (decide (y = x)) as [->|Hyx]; [congruence|].
  apply (remove_first_elem_ne x y l Hyx) in H. contradiction.
Qed.

Lemma length_map_Qred (l : list Q) (t : Q) : length (map (fun x => Qred (x / t)) l) = length l.
Proof. apply length_map. Qed.


Lemma list_index_none x l : x ∉ l -> list_index x l = None.
Proof.
  intros H. destruct (list_index x l) eqn:E; [|reflexivity].
  apply list_index_elem in E. contradiction.
Qed.

(** X4: remove_related_item of a pair that is not related leaves the table unchanged and raises
    KeyError if the item is missing and ValueError otherwise. *)
Theorem remove_related_item_not_related (t : Table) item related :
  is_related item related t = false ->
  remove_related_item item related t =
    (t, Err (match t !! item with Some _ => ValueError | None => KeyError end)).
Proof.
  unfold is_related. intros H. unfold remove_related_item, bind, get.
  destruct (t !! item) as [e|] eqn:E; [|reflexivity].
  apply bool_decide_eq_false in H. unfold of_option. rewrite (list_index_none _ _ H). reflexivity.
Qed.

(** X5: increase_relationship_strength of a pair that is not related fails its assertion and leaves
    the table unchanged. *)
Theorem increase_relationship_strength_not_related (t : Table) item related amount position :
  is_related item related t = false ->
  increase_relationship_strength item related amount position t = (t, Err AssertionError).
Proof. intros H. unfold increase_relationship_strength, bind, get_st. rewrite H. reflexivity. Qed.

(** X6: count() is the number of items: add on a new item inserts it and increases the count by one,
    remove of a missing item raises KeyError and changes nothing, add of a present item raises 'Item
    already in table' and changes nothing, and remove of a present item deletes it and decreases the
    count by one. *)
Theorem count_add_remove (t : Table) item related strengths position :
  (t !! item = None ->
     add item related strengths position t =
       (<[item := mkEntry related strengths [position] [1%Z]]> t, Ok tt) /\
     count (<[item := mkEntry related strengths [position] [1%Z]]> t) = S (count t) /\
     remove item t = (t, Err KeyError)) /\
  (forall e, t !! item = Some e ->
     add item related strengths position t = (t, Err (Exception "Item already in table")) /\
     remove item t = (delete item t, Ok tt) /\ S (count (delete item t)) = count t).
Proof.
  unfold add, remove, count. split.
  - intros H. rewrite H. split_and!; [reflexivity | apply map_size_insert_None; exact H | reflexivity].
  - intros e H. rewrite H. split_and!; [reflexivity | reflexivity |].
    rewrite map_size_delete_Some by (exists e; exact H).
    assert (size t <> 0%nat) by (rewrite map_size_non_empty_iff; intros ->; rewrite lookup_empty in H; discriminate).
    lia.
Qed.

Lemma elem_of_items_without (t : Table) x :
  x ∈ get_items_without_related_items t <-> exists e, t !! x = Some e /\ e_list e = [].
Proof.
  unfold get_items_without_related_items. rewrite list_elem_of_fmap. split.
  - intros ([y e] & -> & Hin). apply list_elem_of_filter in Hin as [Hl Hin].
    apply elem_of_map_to_list in Hin. exists e. split; [exact Hin|]. cbn in Hl.
    destruct (e_list e); [reflexivity|discriminate].
  - intros (e & He & Hl). exists (x, e). split; [reflexivity|].
    apply list_elem_of_filter. split; [cbn; rewrite Hl; reflexivity|].
    apply elem_of_map_to_list. exact He.
Qed.

(** X7: After a successful remove_related_item of the only related item of an entry,
    get_items_without_related_items returns that item together with the items it returned before. *)
Theorem last_removal_lists_item_without_related (t t' : Table) item related e :
  t !! item = Some e -> e_list e = [related] ->
  remove_related_item item related t = (t', Ok tt) ->
  forall x, x ∈ get_items_without_related_items t' <->
            x = item \/ x ∈ get_items_without_related_items t.
Proof.
  intros He Hl H x. pose proof (remove_related_item_ok _ _ _ _ _ H) as (Hfr & e0 & He0 & _ & Hl').
  rewrite He in He0. injection He0 as <-. rewrite Hl in Hl'. cbn in Hl'.
  rewrite String.eqb_refl in Hl'.
  rewrite !elem_of_items_without. destruct (decide (x = item)) as [->|Hne].
  - split; [auto|]. intros _. destruct (t' !! item) as [e'|]; [|discriminate].
    injection Hl' as Hl'. eauto.
  - rewrite (Hfr x Hne). split; [auto|]. intros [->|H0]; [congruence|exact H0].
Qed.

Lemma is_related_true k x (t : Table) :
  is_related k x t = true <-> exists e, t !! k = Some e /\ x ∈ e_list e.
Proof.
  unfold is_related. destruct (t !! k) as [e|]; split.
  - intros H. apply bool_decide_eq_true in H. eauto.
  - intros (e' & He & Hx). injection He as <-. apply bool_decide_eq_true. exact Hx.
  - discriminate.
  - intros (e' & He & _). discriminate.
Qed.

Lemma is_related_frame k x (t t' : Table) : t' !! k = t !! k -> is_related k x t' = is_related k x t.
Proof. unfold is_related. intros ->. reflexivity. Qed.

Lemma normalize_item_ok' k (t t' : Table) u e :
  _normalize_item k t = (t', Ok u) -> t !! k = Some e ->
  exists l, t' = <[k := set_strengths l e]> t /\ length l = length (e_strengths e) /\ qsum l == 1.
Proof.
  intros H He. unfold _normalize_item, bind, get in H. rewrite He in H.
  unfold _normalize in H. destruct (Qle_bool (qsum (e_strengths e)) 0) eqn:Hq; [discriminate|].
  unfold ret, put_entry in H. rewrite He in H. injection H as <- _.
  eexists. split; [reflexivity|]. split; [apply length_map|]. apply qsum_normalized. exact Hq.
Qed.

Lemma add_related_item_inv item related s p (t t' : Table) u :
  tbl_inv t -> add_related_item item related s p t = (t', Ok u) ->
  tbl_inv t' /\ (forall j, j <> item -> t' !! j = t !! j) /\
  (forall x, is_related item x t' = true <-> x = related \/ is_related item x t = true).
Proof.
  intros Hinv H. unfold add_related_item in H. apply bind_ok_inv in H as (t1 & u1 & H1 & H2).
  destruct (t !! item) as [e|] eqn:Et.
  - destruct (decide _) as [Hin|Hnin]; [discriminate|]. injection H1 as <- _.
    eapply normalize_item_ok' in H2; [|apply lookup_insert_eq].
    destruct H2 as (l & -> & Hl & Hq). rewrite insert_insert_eq.
    destruct (Hinv item e Et) as (Hnd & Hls & _). cbn [e_strengths] in Hl.
    split_and!.
    + apply map_Forall_insert_2; [|exact Hinv]. unfold entry_inv, set_strengths. cbn.
      split_and!.
      * apply NoDup_app. split_and!; [exact Hnd | set_solver | apply NoDup_singleton].
      * rewrite Hl, !length_app. cbn. lia.
      * intros _. exact Hq.
    + intros j Hj. apply lookup_insert_ne. congruence.
    + intros x. rewrite !is_related_true, lookup_insert_eq, Et. cbn. split.
      * intros (e' & He' & Hx). injection He' as <-. cbn in Hx.
        apply elem_of_app in Hx as [Hx|Hx]; [right; eauto|left; set_solver].
      * intros Hx. eexists. split; [reflexivity|]. cbn. apply elem_of_app.
        destruct Hx as [->|(e' & He' & Hx)]; [right; set_solver|].
        injection He' as <-. left. exact Hx.
  - unfold add in H1. rewrite Et in H1. injection H1 as <- _.
    eapply normalize_item_ok' in H2; [|apply lookup_insert_eq].
    destruct H2 as (l & -> & Hl & Hq). rewrite insert_insert_eq. cbn [e_strengths] in Hl.
    split_and!.
    + apply map_Forall_insert_2; [|exact Hinv]. unfold entry_inv, set_strengths. cbn.
      split_and!; [apply NoDup_singleton | rewrite Hl; reflexivity | intros _; exact Hq].
    + intros j Hj. apply lookup_insert_ne. congruence.
    + intros x. rewrite !is_related_true, lookup_insert_eq, Et. cbn. split.
      * intros (e' & He' & Hx). injection He' as <-. cbn in Hx. left. set_solver.
      * intros [->|(e' & He' & _)]; [|discriminate]. eexists. split; [reflexivity|]. cbn. set_solver.
Qed.

Lemma pop_at_length {A} i (l l' : list A) : pop_at i l = Some l' -> S (length l') = length l.
Proof.
  revert i l'. induction l as [|y l IH]; intros [|i] l' H; simpl in H; try discriminate.
  - injection H as <-. reflexivity.
  - destruct (pop_at i l) as [l0|] eqn:E; [|discriminate]. injection H as <-.
    simpl. rewrite (IH i l0 E). reflexivity.
Qed.

Lemma remove_related_item_inv item related (t t' : Table) u :
  tbl_inv t -> remove_related_item item related t = (t', Ok u) ->
  tbl_inv t' /\ (forall j, j <> item -> t' !! j = t !! j) /\
  (forall x, is_related item x t' = true <-> x <> related /\ is_related item x t = true).
Proof.
  intros Hinv H. unfold remove_related_item in H. ok_inv H.
  cbn [set_list set_strengths set_position set_count e_list e_strengths e_position e_count] in *.
  rewrite !insert_insert_eq in H.
  set (e1 := mkEntry (remove_first related (e_list a)) a2 a4 a6) in H.
  change (set_count a6 (set_position a4 (set_strengths a2 (set_list (remove_first related (e_list a)) a))))
    with e1 in H.
  destruct (Hinv item a E0) as (Hnd & Hls & _).
  pose proof (list_index_elem _ _ _ E1) as Hin.
  pose proof (remove_first_length _ _ Hin) as Hlr.
  pose proof (pop_at_length _ _ _ E2) as Hl2.
  assert (Hrel : forall x, x ∈ remove_first related (e_list a) <-> x <> related /\ x ∈ e_list a).
  { intros x. destruct (decide (x = related)) as [->|Hne].
    - split; [intros Hx; exfalso; exact (remove_first_notin _ _ Hnd Hx)|intros [? _]; congruence].
    - rewrite remove_first_elem_ne by exact Hne. tauto. }
  assert (Hfin : forall (t2 : Table) e2, e_list e2 = remove_first related (e_list a) -> entry_inv e2 ->
            t2 = <[item := e2]> t ->
            tbl_inv t2 /\ (forall j, j <> item -> t2 !! j = t !! j) /\
            (forall x, is_related item x t2 = true <-> x <> related /\ is_related item x t = true)).
  { intros t2 e2 Hl He2 ->. split_and!.
    - apply map_Forall_insert_2; [exact He2|exact Hinv].
    - intros j Hj. apply lookup_insert_ne. congruence.
    - intros x. rewrite !is_related_true, lookup_insert_eq, E0. split.
      + intros (e' & He' & Hx). injection He' as <-. rewrite Hl, Hrel in Hx.
        destruct Hx as [Hx1 Hx2]. eauto.
      + intros [Hx1 (e' & He' & Hx2)]. injection He' as <-. eexists. split; [reflexivity|].
        rewrite Hl, Hrel. auto. }
  destruct (0 <? length (remove_first related (e_list a))) eqn:Hlen.
  - eapply normalize_item_ok' in H; [|apply lookup_insert_eq].
    destruct H as (l & -> & Hl & Hq). rewrite insert_insert_eq.
    apply (Hfin _ (set_strengths l e1)); [reflexivity| |reflexivity].
    unfold entry_inv, set_strengths. cbn. cbn in Hl. split_and!.
    + apply remove_first_NoDup. exact Hnd.
    + lia.
    + intros _. exact Hq.
  - unfold ret in H. injection H as <- _. apply (Hfin _ e1); [reflexivity| |reflexivity].
    unfold entry_inv. cbn. split_and!.
    + apply remove_first_NoDup. exact Hnd.
    + lia.
    + intros Hne. apply Nat.ltb_ge in Hlen. destruct (remove_first related (e_list a)); simpl in *; [congruence|lia].
Qed.

Lemma is_related_insert_same_list k e e' (t : Table) :
  t !! k = Some e -> e_list e' = e_list e ->
  forall j x, is_related j x (<[k := e']> t) = is_related j x t.
Proof.
  intros He Hl j x. unfold is_related. destruct (decide (j = k)) as [->|Hne].
  - rewrite lookup_insert_eq, He, Hl. reflexivity.
  - rewrite lookup_insert_ne by congruence. reflexivity.
Qed.

Lemma increase_relationship_strength_inv item related amount position (t t' : Table) u :
  tbl_inv t -> increase_relationship_strength item related amount position t = (t', Ok u) ->
  tbl_inv t' /\ (forall j x, is_related j x t' = is_related j x t).
Proof.
  intros Hinv H. unfold increase_relationship_strength in H. ok_inv H.
  cbn [set_list set_strengths set_position set_count e_list e_strengths e_position e_count] in *.
  destruct (Hinv item a0 E1) as (Hnd & Hls & _).
  apply set_at_ok in E4 as [-> Hlt].
  assert (Hs : exists l, s = <[item := mkEntry (e_list a0) (<[a1 := a2 + amount]> (e_strengths a0)) l a6]> t).
  { destruct a8; ok_inv H0; rewrite !insert_insert_eq; eexists; reflexivity. }
  destruct Hs as [l ->]. clear H0.
  eapply normalize_item_ok' in H; [|apply lookup_insert_eq].
  destruct H as (l' & -> & Hl & Hq). rewrite insert_insert_eq. cbn in Hl. rewrite length_insert in Hl.
  split.
  - apply map_Forall_insert_2; [|exact Hinv]. unfold entry_inv, set_strengths. cbn.
    split_and!; [exact Hnd | lia | intros _; exact Hq].
  - apply (is_related_insert_same_list item a0). exact E1. reflexivity.
Qed.

Lemma rel_after_add item related s p (t t' : Table) u :
  tbl_inv t -> add_related_item item related s p t = (t', Ok u) ->
  tbl_inv t' /\ forall j x, is_related j x t' = true <->
                            is_related j x t = true \/ (j = item /\ x = related).
Proof.
  intros Hinv H. destruct (add_related_item_inv _ _ _ _ _ _ _ Hinv H) as (Hi & Hfr & Hrel).
  split; [exact Hi|]. intros j x. destruct (decide (j = item)) as [->|Hne].
  - rewrite Hrel. tauto.
  - rewrite (is_related_frame j x t' t (eq_sym (Hfr j Hne))). tauto.
Qed.

Lemma rel_after_remove item related (t t' : Table) u :
  tbl_inv t -> remove_related_item item related t = (t', Ok u) ->
  tbl_inv t' /\ forall j x, is_related j x t' = true <->
                            is_related j x t = true /\ ~ (j = item /\ x = related).
Proof.
  intros Hinv H. destruct (remove_related_item_inv _ _ _ _ _ Hinv H) as (Hi & Hfr & Hrel).
  split; [exact Hi|]. intros j x. destruct (decide (j = item)) as [->|Hne].
  - rewrite Hrel. tauto.
  - rewrite (is_related_frame j x t' t (eq_sym (Hfr j Hne))). tauto.
Qed.

Lemma add_ok_inv item related strengths position (t t' : Table) u :
  add item related strengths position t = (t', Ok u) ->
  t !! item = None /\ t' = <[item := mkEntry related strengths [position] [1%Z]]> t.
Proof. unfold add. destruct (t !! item); intros H; inversion H; auto. Qed.

Lemma rel_after_add_single item x0 (t : Table) :
  t !! item = None ->
  forall j x, is_related j x (<[item := mkEntry [x0] [1] [None] [1%Z]]> t) = true <->
              is_related j x t = true \/ (j = item /\ x = x0).
Proof.
  intros Hn j x. rewrite !is_related_true. destruct (decide (j = item)) as [->|Hne].
  - rewrite lookup_insert_eq, Hn. cbn. split.
    + intros (e & He & Hx). injection He as <-. cbn in Hx. right. set_solver.
    + intros [(e & He & _)|[_ ->]]; [discriminate|]. eexists. split; [reflexivity|]. cbn. set_solver.
  - rewrite lookup_insert_ne by congruence. split; [auto|]. intros [H|[? _]]; [exact H|congruence].
Qed.

Lemma tbl_inv_add_single item x0 (t : Table) :
  tbl_inv t -> tbl_inv (<[item := mkEntry [x0] [1] [None] [1%Z]]> t).
Proof.
  intros H. apply map_Forall_insert_2; [|exact H].
  unfold entry_inv. cbn. split_and!; [apply NoDup_singleton | reflexivity | intros _; reflexivity].
Qed.

Lemma rel_absent k x (t : Table) : t !! k = None -> is_related k x t = false.
Proof. unfold is_related. intros ->. reflexivity. Qed.

Lemma rel_delete j k x (t : Table) :
  is_related j x (delete k t) = true <-> is_related j x t = true /\ j <> k.
Proof.
  rewrite !is_related_true. destruct (decide (j = k)) as [->|Hne].
  - rewrite lookup_delete_eq. split; [intros (e & He & _); discriminate|intros [_ H]; congruence].
  - rewrite lookup_delete_ne by congruence. tauto.
Qed.

Lemma add_node_consistent mgr n c d d' u :
  db_consistent d -> add_node mgr n c d = (d', Ok u) -> db_consistent d'.
Proof.
  intros (H1 & H2 & H3 & Hsym) H. unfold add_node, nodes_add, clusters_add in H.
  apply bind_ok_inv in H as (d1 & u1 & E1 & H). injection E1 as <- _.
  apply bind_ok_inv in H as (d2 & u2 & E2 & H). injection E2 as <- _.
  ok_inv H. db_simpl.
  apply add_ok_inv in Hm as [Hn ->]. apply add_ok_inv in Hm0 as [Hc ->].
  destruct (rel_after_add _ _ _ _ _ _ _ H3 Hm1) as [H3' _].
  unfold db_consistent; db_simpl.
  split_and!; [apply tbl_inv_add_single; exact H1 | apply tbl_inv_add_single; exact H2 | exact H3' |].
  intros p q. db_simpl. rewrite (rel_after_add_single _ _ _ Hn), (rel_after_add_single _ _ _ Hc), Hsym.
  destruct (decide (p = n)) as [->|Hne1]; destruct (decide (q = c)) as [->|Hne2].
  - tauto.
  - rewrite <- Hsym, (rel_absent _ _ _ Hn). intuition congruence.
  - rewrite (rel_absent _ _ _ Hc). intuition congruence.
  - intuition congruence.
Qed.

Lemma c2n_remove_loop_inv n cs d d' u :
  tbl_inv (clusters_to_nodes d) ->
  for_each (fun c => on_c2n (remove_related_item c n)) cs d = (d', Ok u) ->
  exists t', d' = mkDB (nodes d) (clusters d) (nodes_to_clusters d) t' (node_manager_to_nodes d) /\
  tbl_inv t' /\
  forall j x, is_related j x t' = true <->
              is_related j x (clusters_to_nodes d) = true /\ ~ (j ∈ cs /\ x = n).
Proof.
  revert d. induction cs as [|c cs IH]; intros d Hinv H; cbn [for_each] in H.
  - unfold ret in H. injection H as <- _. exists (clusters_to_nodes d).
    split_and!; [destruct d; reflexivity | exact Hinv |]. intros j x. set_solver.
  - apply bind_ok_inv in H as (d1 & u1 & H1 & H). ok_inv H1.
    destruct (rel_after_remove _ _ _ _ _ Hinv Hm) as [Hi Hrel].
    destruct (IH (mkDB (nodes d) (clusters d) (nodes_to_clusters d) t (node_manager_to_nodes d)) Hi H)
      as (t' & -> & Hi' & Hrel'). db_simpl.
    exists t'. split_and!; [reflexivity | exact Hi' |]. intros j x. rewrite Hrel', Hrel. set_solver.
Qed.

Lemma delete_node_consistent mgr n d d' u :
  db_consistent d -> delete_node mgr n d = (d', Ok u) -> db_consistent d'.
Proof.
  intros (H1 & H2 & H3 & Hsym) H. unfold delete_node, get_nodes_clusters in H.
  apply bind_ok_inv in H as (d1 & u1 & E1 & H). ok_inv E1. db_simpl.
  apply bind_ok_inv in H as (d2 & cs & E2 & H). ok_inv E2. db_simpl.
  apply bind_ok_inv in H as (d3 & u3 & E3 & H).
  destruct (c2n_remove_loop_inv _ _ (mkDB (nodes d ∖ {[n]}) (clusters d) (nodes_to_clusters d)
    (clusters_to_nodes d) (node_manager_to_nodes d)) _ _ H2 E3) as (t3 & -> & Hi & Hrel). db_simpl.
  ok_inv H. db_simpl.
  destruct (rel_after_remove _ _ _ _ _ H3 Hm) as [H3' _].
  unfold db_consistent; db_simpl. split_and!.
  - apply map_Forall_delete. exact H1.
  - exact Hi.
  - exact H3'.
  - intros p q. rewrite rel_delete, Hrel, <- Hsym.
    destruct (decide (p = n)) as [->|Hpn]; [|tauto].
    assert (is_related n q (nodes_to_clusters d) = true <-> q ∈ e_list a) as Hq.
    { rewrite is_related_true. split; [intros (e1 & He1 & Hq1); congruence|eauto]. }
    rewrite Hq. tauto.
Qed.

Lemma unlink_consistent n c d d' u :
  db_consistent d ->
  (on_n2c (remove_related_item n c) ;;; on_c2n (remove_related_item c n)) d = (d', Ok u) ->
  db_consistent d'.
Proof.
  intros (H1 & H2 & H3 & Hsym) H. ok_inv H. db_simpl.
  destruct (rel_after_remove _ _ _ _ _ H1 Hm) as [Hi1 Hr1].
  destruct (rel_after_remove _ _ _ _ _ H2 Hm0) as [Hi2 Hr2].
  unfold db_consistent; db_simpl. split_and!; [exact Hi1 | exact Hi2 | exact H3 |].
  intros p q. rewrite Hr1, Hr2, Hsym. tauto.
Qed.

Lemma detach_node_consistent mgr c n : preserves db_consistent (detach_node mgr c n).
Proof.
  intros d d' u Hd H. unfold detach_node in H.
  apply bind_ok_inv in H as (d1 & u1 & E1 & H).
  apply bind_ok_inv in H as (d2 & u2 & E2 & H).
  assert (Hd2 : db_consistent d2).
  { eapply unlink_consistent; [exact Hd|]. unfold bind. rewrite E1. exact E2. }
  apply bind_ok_inv in H as (d3 & cs & E3 & H). unfold get_nodes_clusters in E3. ok_inv E3.
  destruct (Nat.eqb _ _).
  - rewrite db_eta in H. eapply delete_node_consistent; eauto.
  - unfold ret in H. rewrite db_eta in H. congruence.
Qed.

Lemma delete_cluster_consistent mgr c force : preserves db_consistent (_delete_cluster mgr c force).
Proof.
  intros d d' u Hd H. unfold _delete_cluster in H.
  apply bind_ok_inv in H as (d1 & u1 & E1 & H).
  assert (Hd1 : db_consistent d1).
  { destruct force.
    - unfold get_clusters_nodes in E1. apply bind_ok_inv in E1 as (d0 & ns & E0 & E1).
      ok_inv E0. rewrite db_eta in E1.
      exact (preserves_for_each _ _ _ (detach_node_consistent mgr c) _ _ _ Hd E1).
    - unfold ret in E1. congruence. }
  clear E1 Hd. unfold get_clusters_nodes in H. ok_inv H. db_simpl.
  destruct Hd1 as (H1 & H2 & H3 & Hsym).
  apply Nat.eqb_eq, length_zero_iff_nil in E1.
  unfold db_consistent; db_simpl. split_and!; [exact H1 | apply map_Forall_delete; exact H2 | exact H3 |].
  intros p q. rewrite rel_delete, Hsym. destruct (decide (q = c)) as [->|Hqc]; [|tauto].
  unfold is_related. rewrite E0, E1. cbn. rewrite bool_decide_eq_true. set_solver.
Qed.

Lemma adjust_n2c_consistent n c a p : preserves db_consistent (adjust_node_to_cluster_strength n c a p).
Proof.
  intros d d' u Hd H. unfold adjust_node_to_cluster_strength in H.
  ok_inv H. destruct Hd as (H1 & H2 & H3 & Hsym).
  destruct (is_related n c (nodes_to_clusters d)) eqn:Er; cbn [negb] in H; ok_inv H; db_simpl.
  - destruct (increase_relationship_strength_inv _ _ _ _ _ _ _ H1 Hm) as [Hi Hr].
    unfold db_consistent; db_simpl. split_and!; [exact Hi | exact H2 | exact H3 |].
    intros x y. rewrite Hr. apply Hsym.
  - destruct (rel_after_add _ _ _ _ _ _ _ H1 Hm) as [Hi1 Hr1].
    destruct (rel_after_add _ _ _ _ _ _ _ H2 Hm0) as [Hi2 Hr2].
    unfold db_consistent; db_simpl. split_and!; [exact Hi1 | exact Hi2 | exact H3 |].
    intros x y. rewrite Hr1, Hr2, Hsym. tauto.
Qed.

Lemma adjust_c2n_consistent c n a : preserves db_consistent (adjust_cluster_to_node_strength c n a).
Proof.
  intros d d' u (H1 & H2 & H3 & Hsym) H. unfold adjust_cluster_to_node_strength in H.
  ok_inv H. db_simpl.
  destruct (increase_relationship_strength_inv _ _ _ _ _ _ _ H2 Hm) as [Hi Hr].
  unfold db_consistent; db_simpl. split_and!; [exact H1 | exact Hi | exact H3 |].
  intros x y. rewrite Hr. apply Hsym.
Qed.

Lemma run_op_consistent mgr op d d' u :
  (forall tn k r, op <> OpRemoveRelatedItem tn k r) ->
  db_consistent d -> run_op mgr op d = (d', Ok u) -> db_consistent d'.
Proof.
  intros Hop Hd H. destruct op; cbn [run_op] in H.
  - eapply add_node_consistent; eauto.
  - eapply adjust_n2c_consistent; eauto.
  - eapply adjust_c2n_consistent; eauto.
  - eapply delete_node_consistent; eauto.
  - eapply delete_cluster_consistent; eauto.
  - exfalso. eapply Hop. reflexivity.
Qed.

Lemma for_each_all_ok {S A} (f : A -> M S unit) xs s :
  (forall x, x ∈ xs -> f x s = (s, Ok tt)) -> for_each f xs s = (s, Ok tt).
Proof.
  induction xs as [|x xs IH]; intros H; cbn [for_each]; [reflexivity|].
  unfold bind. rewrite (H x) by set_solver. apply IH. intros y Hy. apply H. set_solver.
Qed.

Lemma items_lookup (items : Table -> list (string * Entry)) (t : Table) kv :
  items t ≡ₚ map_to_list t -> kv ∈ items t -> t !! kv.1 = Some kv.2.
Proof.
  intros Hp Hin. rewrite Hp in Hin. destruct kv. apply elem_of_map_to_list. exact Hin.
Qed.

Lemma table_verify_ok items (t : Table) :
  (forall t, items t ≡ₚ map_to_list t) -> tbl_inv t ->
  table_verify_data_integrity items t = (t, Ok tt).
Proof.
  intros Hp Hinv. unfold table_verify_data_integrity, get_st, bind at 1.
  apply for_each_all_ok. intros kv Hkv.
  destruct (Hinv _ _ (items_lookup items t kv (Hp t) Hkv)) as (_ & Hlen & Hsum).
  rewrite Hlen, Nat.eqb_refl. cbn [assert_]. unfold bind at 1, ret at 1.
  destruct (Nat.ltb_spec 0 (length (e_list kv.2))) as [Hlt|]; [|reflexivity].
  rewrite Hsum by (intros E; rewrite E in Hlt; cbn in Hlt; lia).
  reflexivity.
Qed.

Lemma cross_ok items (t1 t2 : Table) (d : DB) :
  (forall t, items t ≡ₚ map_to_list t) ->
  (forall n c, is_related n c t1 = true -> is_related c n t2 = true) ->
  _cross_table_validation items t1 t2 d = (d, Ok tt).
Proof.
  intros Hp Hsym. unfold _cross_table_validation. apply for_each_all_ok. intros kv Hkv.
  apply for_each_all_ok. intros r Hr.
  pose proof (items_lookup items t1 kv (Hp t1) Hkv) as Hl.
  assert (Hrel : is_related r kv.1 t2 = true).
  { apply Hsym. apply is_related_true. eauto. }
  pose proof Hrel as Hrel'. apply is_related_true in Hrel' as (e & He & _).
  rewrite He. cbn [of_option]. unfold bind, ret. rewrite Hrel. reflexivity.
Qed.

Lemma consistent_verify_ok items d :
  (forall t, items t ≡ₚ map_to_list t) -> db_consistent d ->
  verify_data_integrity items d = (d, Ok tt).
Proof.
  intros Hp (H1 & H2 & H3 & Hsym). unfold verify_data_integrity.
  unfold bind at 1, on_n2c at 1. rewrite (table_verify_ok items _ Hp H1). rewrite db_eta.
  unfold bind at 1, on_c2n at 1. rewrite (table_verify_ok items _ Hp H2). rewrite db_eta.
  unfold bind at 1, on_nm2n at 1. rewrite (table_verify_ok items _ Hp H3). rewrite db_eta.
  unfold bind at 1, get_st at 1.
  unfold bind at 1. rewrite cross_ok; [|exact Hp|intros n c; apply Hsym].
  apply cross_ok; [exact Hp|]. intros n c. apply Hsym.
Qed.

Lemma for_each_ok_each {S A} (f : A -> M S unit) xs s s' u :
  (forall x s1 s2 v, f x s1 = (s2, Ok v) -> s2 = s1) ->
  for_each f xs s = (s', Ok u) ->
  s' = s /\ forall x, x ∈ xs -> exists v, f x s = (s, Ok v).
Proof.
  intros Hf. revert s. induction xs as [|x xs IH]; intros s H; cbn [for_each] in H.
  - unfold ret in H. injection H as <- _. split; [reflexivity|]. intros x Hx. set_solver.
  - apply bind_ok_inv in H as (s1 & v1 & H1 & H).
    pose proof (Hf _ _ _ _ H1) as ->. destruct (IH _ H) as [-> Hall].
    split; [reflexivity|]. intros y Hy. apply elem_of_cons in Hy as [->|Hy]; eauto.
Qed.

Lemma assert_ok_true {S} b (s s' : S) v : assert_ b s = (s', Ok v) -> s' = s /\ b = true.
Proof. destruct b; cbn; unfold ret, raise; intros H; inversion H; auto. Qed.

Lemma table_verify_sound items (t t' : Table) u :
  (forall t, items t ≡ₚ map_to_list t) ->
  table_verify_data_integrity items t = (t', Ok u) ->
  t' = t /\ forall k e, t !! k = Some e ->
    length (e_list e) = length (e_strengths e) /\
    (e_list e <> [] -> 99 # 100 < qsum (e_strengths e) /\ qsum (e_strengths e) <= 101 # 100).
Proof.
  intros Hp H. unfold table_verify_data_integrity in H. ok_inv H.
  apply for_each_ok_each in H as [-> Hall].
  2:{ intros kv s1 s2 v E. apply bind_ok_inv in E as (s3 & v3 & E1 & E).
      apply assert_ok_true in E1 as [-> _].
      destruct (Nat.ltb _ _); [apply assert_ok_true in E as [-> _]|unfold ret in E; congruence]; reflexivity. }
  split; [reflexivity|]. intros k e Hk.
  assert (Hin : (k, e) ∈ items t) by (rewrite (Hp t); apply elem_of_map_to_list; exact Hk).
  destruct (Hall _ Hin) as (v & Hv). cbn [fst snd] in Hv.
  apply bind_ok_inv in Hv as (s3 & v3 & E1 & Hv). apply assert_ok_true in E1 as [-> E1].
  apply Nat.eqb_eq in E1. split; [exact E1|]. intros Hne.
  destruct (Nat.ltb_spec 0 (length (e_list e))) as [_|Hle].
  - apply assert_ok_true in Hv as [_ Hb]. apply andb_true_iff in Hb as [Hlo Hhi].
    apply negb_true_iff in Hlo. split.
    + apply Qnot_le_lt. intros Hc. apply Qle_bool_iff in Hc. congruence.
    + apply Qle_bool_iff. exact Hhi.
  - exfalso. apply Hne. destruct (e_list e); [reflexivity|cbn in Hle; lia].
Qed.

Lemma cross_sound items (t1 t2 : Table) (d d' : DB) u :
  (forall t, items t ≡ₚ map_to_list t) ->
  _cross_table_validation items t1 t2 d = (d', Ok u) ->
  d' = d /\ forall n c, is_related n c t1 = true -> is_related c n t2 = true.
Proof.
  intros Hp H. unfold _cross_table_validation in H.
  assert (Hstep : forall r kv (s1 s2 : DB) v,
    ((_ <-- of_option KeyError (t2 !! r) ;; assert_ (is_related r kv t2)) : M DB unit) s1 = (s2, Ok v) ->
    s2 = s1 /\ is_related r kv t2 = true).
  { intros r kv s1 s2 v E. apply bind_ok_inv in E as (s3 & v3 & E1 & E).
    apply of_option_ok_inv in E1 as [-> _]. exact (assert_ok_true _ _ _ _ E). }
  apply for_each_ok_each in H as [-> Hall].
  2:{ intros kv s1 s2 v E. apply for_each_ok_each in E as [-> _]; [reflexivity|].
      intros r s3 s4 w E'. exact (proj1 (Hstep _ _ _ _ _ E')). }
  split; [reflexivity|]. intros n c Hnc. apply is_related_true in Hnc as (e & He & Hc).
  assert (Hin : (n, e) ∈ items t1) by (rewrite (Hp t1); apply elem_of_map_to_list; exact He).
  destruct (Hall _ Hin) as (v & Hv).
  apply for_each_ok_each in Hv as [_ Hall2].
  2:{ intros r s3 s4 w E'. exact (proj1 (Hstep _ _ _ _ _ E')). }
  destruct (Hall2 c Hc) as (w & Hw). exact (proj2 (Hstep _ _ _ _ _ Hw)).
Qed.

Lemma verify_sound items d d' u :
  (forall t, items t ≡ₚ map_to_list t) ->
  verify_data_integrity items d = (d', Ok u) ->
  d' = d /\
  map_Forall (fun _ => entry_checked) (nodes_to_clusters d) /\
  map_Forall (fun _ => entry_checked) (clusters_to_nodes d) /\
  map_Forall (fun _ => entry_checked) (node_manager_to_nodes d) /\
  forall n c, is_related n c (nodes_to_clusters d) = true <-> is_related c n (clusters_to_nodes d) = true.
Proof.
  intros Hp H. unfold verify_data_integrity in H.
  apply bind_ok_inv in H as (d1 & u1 & E1 & H). apply on_n2c_inv in E1 as (t1 & E1 & ->).
  apply (table_verify_sound items) in E1 as [-> V1]; [|exact Hp]. rewrite db_eta in H.
  apply bind_ok_inv in H as (d2 & u2 & E2 & H). apply on_c2n_inv in E2 as (t2 & E2 & ->).
  apply (table_verify_sound items) in E2 as [-> V2]; [|exact Hp]. rewrite db_eta in H.
  apply bind_ok_inv in H as (d3 & u3 & E3 & H). apply on_nm2n_inv in E3 as (t3 & E3 & ->).
  apply (table_verify_sound items) in E3 as [-> V3]; [|exact Hp]. rewrite db_eta in H.
  apply bind_ok_inv in H as (d4 & d5 & E4 & H). apply get_st_ok_inv in E4 as [<- <-].
  apply bind_ok_inv in H as (d6 & u6 & E6 & H).
  apply (cross_sound items) in E6 as [-> S1]; [|exact Hp].
  apply (cross_sound items) in H as [-> S2]; [|exact Hp].
  split_and!; [reflexivity | exact V1 | exact V2 | exact V3 |].
  intros n c. split; [apply S1 | apply S2].
Qed.

#[export] Instance same_queue_refl : Reflexive same_queue.
Proof. intros w. split; reflexivity. Qed.

#[export] Instance same_queue_trans : Transitive same_queue.
Proof. intros w1 w2 w3 [A1 B1] [A2 B2]. split; congruence. Qed.

Create HintDb queue.

Lemma sq_put_node n o : keeps same_queue (put_node n o).
Proof. intros w w' r H. unfold put_node, bind, get_st, put_st in H. inversion H; subst. split; reflexivity. Qed.
Lemma sq_put_nm c o : keeps same_queue (put_nm c o).
Proof. intros w w' r H. unfold put_nm, bind, get_st, put_st in H. inversion H; subst. split; reflexivity. Qed.
Lemma sq_put_cluster c o : keeps same_queue (put_cluster c o).
Proof. intros w w' r H. unfold put_cluster, bind, get_st, put_st in H. inversion H; subst. split; reflexivity. Qed.
Lemma sq_put_cc c o : keeps same_queue (put_cc c o).
Proof.
  intros w w' r H. unfold put_cc, put_cdz, get_cdz, bind, get_st, ret, put_st in H.
  inversion H; subst. split; reflexivity.
Qed.
Lemma sq_on_db {A} (m : M DB A) : keeps same_queue (on_db m).
Proof. intros w w' r H. unfold on_db in H. destruct (m (w_db w)). inversion H; subst. split; reflexivity. Qed.
Lemma sq_get_st : keeps same_queue get_st.
Proof. apply keeps_get_st; typeclasses eauto. Qed.
Lemma sq_ret {A} (a : A) : keeps same_queue (ret a).
Proof. apply keeps_ret; typeclasses eauto. Qed.
Lemma sq_raise {A} e : keeps same_queue (@raise World A e).
Proof. intros w w' r H. inversion H; subst. reflexivity. Qed.
Lemma sq_of_option {A} e (o : option A) : keeps same_queue (of_option e o).
Proof. apply keeps_of_option; typeclasses eauto. Qed.
Lemma sq_assert b : keeps same_queue (@assert_ World b).
Proof. destruct b; [apply sq_ret|apply sq_raise]. Qed.
Lemma sq_bind {A B} (m : M World A) (k : A -> M World B) :
  keeps same_queue m -> (forall a, keeps same_queue (k a)) -> keeps same_queue (bind m k).
Proof. apply keeps_bind; typeclasses eauto. Qed.
Lemma sq_if {A} (b : bool) (m1 m2 : M World A) :
  keeps same_queue m1 -> keeps same_queue m2 -> keeps same_queue (if b then m1 else m2).
Proof. destruct b; auto. Qed.

#[export] Hint Resolve sq_put_node sq_put_nm sq_put_cluster sq_put_cc sq_on_db sq_get_st sq_ret
  sq_raise sq_of_option sq_assert : queue.

Ltac solve_sq :=
  repeat (match goal with
          | |- keeps same_queue (bind _ _) => apply sq_bind; [|intro]
          | |- keeps same_queue (if _ then _ else _) => apply sq_if
          | |- keeps same_queue (match ?x with _ => _ end) => destruct x
          end || eauto with queue).

Lemma sq_get_node n : keeps same_queue (get_node n).
Proof. unfold get_node. solve_sq. Qed.
Lemma sq_get_nm c : keeps same_queue (get_nm c).
Proof. unfold get_nm. solve_sq. Qed.
Lemma sq_get_cluster c : keeps same_queue (get_cluster c).
Proof. unfold get_cluster. solve_sq. Qed.
Lemma sq_get_cdz : keeps same_queue get_cdz.
Proof. unfold get_cdz. solve_sq. Qed.

#[export] Hint Resolve sq_get_node sq_get_nm sq_get_cluster sq_get_cdz : queue.

Lemma sq_lookup_cc c : keeps same_queue (lookup_cc c).
Proof. unfold lookup_cc. solve_sq. Qed.
Lemma sq_ensure_cc c : keeps same_queue (ensure_cc c).
Proof. unfold ensure_cc. solve_sq. Qed.
Lemma sq_packet_cortex p : keeps same_queue (packet_cortex p).
Proof. unfold packet_cortex. solve_sq. Qed.

#[export] Hint Resolve sq_lookup_cc sq_ensure_cc sq_packet_cortex : queue.

Lemma sq_cc_update cc q p : keeps same_queue (cc_update cc q p).
Proof. unfold cc_update. solve_sq. Qed.
Lemma sq_get_strongest_correlation cc : keeps same_queue (get_strongest_correlation cc).
Proof. unfold get_strongest_correlation. solve_sq. Qed.
Lemma sq_node_certainty n : keeps same_queue (node_certainty n).
Proof. unfold node_certainty, node_uncertainty. solve_sq. Qed.

#[export] Hint Resolve sq_cc_update sq_get_strongest_correlation sq_node_certainty : queue.

Lemma sq_cc_certainty cc : keeps same_queue (cc_certainty cc).
Proof. unfold cc_certainty, cc_uncertainty. solve_sq. Qed.
Lemma sq_update_connection q p : keeps same_queue (_update_connection q p).
Proof. unfold _update_connection. solve_sq. Qed.
Lemma sq_cluster_receive_feedback_packet c p : keeps same_queue (cluster_receive_feedback_packet c p).
Proof.
  unfold cluster_receive_feedback_packet, nm_receive_feedback_packet, node_receive_feedback_packet.
  solve_sq.
Qed.

#[export] Hint Resolve sq_cc_certainty sq_update_connection sq_cluster_receive_feedback_packet : queue.

Lemma sq_send_feedback_packet p : keeps same_queue (_send_feedback_packet p).
Proof. unfold _send_feedback_packet. solve_sq. Qed.

#[export] Hint Resolve sq_send_feedback_packet : queue.

Lemma sq_scan_queue packet learn queue : keeps same_queue (scan_queue packet learn queue).
Proof. induction queue as [|q queue IH]; cbn [scan_queue]; solve_sq. Qed.

Lemma receive_packet_queue_step packet learn w w' r :
  receive_packet packet learn w = (w', r) ->
  GAUSSIAN (w_cdz w') = GAUSSIAN (w_cdz w) /\
  match r with
  | Ok _ => packet_queue (w_cdz w') =
              firstn (PACKET_QUEUE_LENGTH (w_cdz w)) (packet :: packet_queue (w_cdz w))
  | Err _ => packet_queue (w_cdz w') = packet_queue (w_cdz w)
  end.
Proof.
  intros H. unfold receive_packet in H.
  destruct (scan_queue packet learn (packet_queue (w_cdz w)) w) as [w1 [u1|e1]] eqn:E;
    pose proof (sq_scan_queue _ _ _ _ _ _ E) as [Q1 G1];
    unfold get_cdz, bind, get_st, ret in H; cbv beta iota in H; rewrite E in H.
  - unfold _process_output, put_cdz, get_st, put_st in H. cbn in H.
    inversion H; subst. cbn. unfold PACKET_QUEUE_LENGTH. rewrite Q1, G1. split; reflexivity.
  - inversion H; subst. split; assumption.
Qed.

Lemma argmax_go_spec (l pre : list Q) best bv :
  pre !! best = Some bv ->
  (forall j x, pre !! j = Some x -> x <= bv) ->
  (forall j x, (j < best)%nat -> pre !! j = Some x -> x < bv) ->
  exists v, (pre ++ l) !! argmax_go l (length pre) best bv = Some v /\
    (forall j x, (pre ++ l) !! j = Some x -> x <= v) /\
    (forall j x, (j < argmax_go l (length pre) best bv)%nat -> (pre ++ l) !! j = Some x -> x < v).
Proof.
  revert pre best bv. induction l as [|y l IH]; intros pre best bv Hb Hle Hlt; cbn [argmax_go].
  - rewrite app_nil_r. eauto.
  - assert (Hlen : S (length pre) = length (pre ++ [y])) by (rewrite length_app; cbn; lia).
    assert (Hlk : forall j x, (pre ++ [y]) !! j = Some x -> pre !! j = Some x \/ (j = length pre /\ x = y)).
    { intros j x Hj. destruct (decide (j < length pre)%nat).
      - left. rewrite lookup_app_l in Hj by lia. exact Hj.
      - right. rewrite lookup_app_r in Hj by lia. destruct (j - length pre)%nat as [|k] eqn:E.
        + cbn in Hj. split; [lia|congruence].
        + cbn in Hj. destruct k; discriminate. }
    replace (pre ++ y :: l) with ((pre ++ [y]) ++ l) by (rewrite <- app_assoc; reflexivity).
    destruct (Qlt_le_dec bv y) as [Hy|Hy]; rewrite Hlen; apply IH.
    + rewrite list_lookup_middle by reflexivity. reflexivity.
    + intros j x Hj. apply Hlk in Hj as [Hj|[_ ->]]; [|apply Qle_refl].
      apply Qlt_le_weak. eapply Qle_lt_trans; [eapply Hle; eauto|exact Hy].
    + intros j x Hj Hx. apply Hlk in Hx as [Hx|[-> _]]; [|lia].
      eapply Qle_lt_trans; [eapply Hle; eauto|exact Hy].
    + rewrite lookup_app_l; [exact Hb|]. apply lookup_lt_is_Some_1. eauto.
    + intros j x Hj. apply Hlk in Hj as [Hj|[_ ->]]; [eapply Hle; eauto|exact Hy].
    + intros j x Hj Hx. apply Hlk in Hx as [Hx|[-> _]]; [eapply Hlt; eauto|].
      exfalso. assert (best < length pre)%nat by (apply lookup_lt_is_Some_1; eauto). lia.
Qed.

Lemma argmax_spec (l : list Q) :
  match argmax l with
  | None => l = []
  | Some i => exists v, l !! i = Some v /\ (forall j x, l !! j = Some x -> x <= v) /\
                        (forall j x, (j < i)%nat -> l !! j = Some x -> x < v)
  end.
Proof.
  destruct l as [|x l]; [reflexivity|]. cbn [argmax].
  apply (argmax_go_spec l [x] 0 x); [reflexivity| |].
  - intros j y Hj. destruct j; [cbn in Hj; injection Hj as <-; apply Qle_refl|cbn in Hj; destruct j; discriminate].
  - intros j y Hj. lia.
Qed.

Lemma delete_node_nm2n mgr n d d' u :
  delete_node mgr n d = (d', Ok u) ->
  remove_related_item (mgr n) n (node_manager_to_nodes d) = (node_manager_to_nodes d', Ok u).
Proof.
  intros H. unfold delete_node, get_nodes_clusters in H.
  apply bind_ok_inv in H as (d1 & u1 & E1 & H). ok_inv E1. db_simpl.
  apply bind_ok_inv in H as (d2 & cs & E2 & H). ok_inv E2. db_simpl.
  apply bind_ok_inv in H as (d3 & u3 & E3 & H).
  assert (Hnm : forall cs d d' u, for_each (fun c => on_c2n (remove_related_item c n)) cs d = (d', Ok u) ->
                node_manager_to_nodes d' = node_manager_to_nodes d).
  { clear. intros cs. induction cs as [|c cs IH]; intros d d' u H; cbn [for_each] in H.
    - unfold ret in H. congruence.
    - apply bind_ok_inv in H as (d1 & u1 & H1 & H). apply on_c2n_inv in H1 as (t & _ & ->).
      rewrite (IH _ _ _ H). reflexivity. }
  pose proof (Hnm _ _ _ _ E3) as Hd3. cbn in Hd3.
  apply bind_ok_inv in H as (d4 & u4 & E4 & H). apply on_n2c_inv in E4 as (t4 & _ & ->).
  apply on_nm2n_inv in H as (t5 & H & ->). cbn. rewrite <- Hd3. exact H.
Qed.

Lemma teardown_ok n w w' u :
  teardown n w = (w', Ok u) ->
  w_nodes w' = w_nodes w /\ w_timestep w' = w_timestep w /\
  remove_related_item (node_manager_of_heap w n) n (node_manager_to_nodes (w_db w)) =
    (node_manager_to_nodes (w_db w'), Ok u).
Proof.
  intros H. unfold teardown in H. ok_inv H. unfold on_db in H.
  destruct (delete_node _ n (w_db w)) as [d r] eqn:E. injection H as <- ->.
  split_and!; [reflexivity|reflexivity|]. cbn. exact (delete_node_nm2n _ _ _ _ _ E).
Qed.

Lemma remove_related_item_list item related (t t' : Table) u :
  remove_related_item item related t = (t', Ok u) ->
  (forall j, j <> item -> t' !! j = t !! j) /\
  option_map e_list (t' !! item) = option_map (fun e => remove_first related (e_list e)) (t !! item).
Proof.
  intros H. destruct (remove_related_item_ok _ _ _ _ _ H) as (Hfr & e & He & _ & Hl).
  split; [exact Hfr|]. rewrite Hl, He. reflexivity.
Qed.

Lemma remove_first_middle x (P l : list string) : x ∉ P -> remove_first x (P ++ x :: l) = P ++ l.
Proof.
  induction P as [|y P IH]; intros Hx; cbn.
  - rewrite String.eqb_refl. reflexivity.
  - destruct (String.eqb_spec x y) as [->|_]; [set_solver|]. rewrite IH by set_solver. reflexivity.
Qed.

(** The shared loop of the two clean-up methods: a body that tears the node
    down when [drop] holds and does nothing otherwise. *)
Lemma delete_loop_list (w0 : World) (drop : string -> bool) (body : string -> M World unit) cortex
    xs P (w w' : World) u :
  (forall n w1 w2 v, w_nodes w1 = w_nodes w0 -> w_timestep w1 = w_timestep w0 ->
     body n w1 = (w2, Ok v) ->
     (drop n = true -> teardown n w1 = (w2, Ok v)) /\ (drop n = false -> w2 = w1)) ->
  (forall n, n ∈ xs -> node_manager_of_heap w0 n = cortex) ->
  NoDup (P ++ xs) ->
  w_nodes w = w_nodes w0 -> w_timestep w = w_timestep w0 ->
  option_map e_list (node_manager_to_nodes (w_db w) !! cortex) = Some (P ++ xs) ->
  for_each body xs w = (w', Ok u) ->
  w_nodes w' = w_nodes w0 /\ w_timestep w' = w_timestep w0 /\
  option_map e_list (node_manager_to_nodes (w_db w') !! cortex) = Some (P ++ filter (fun n => negb (drop n)) xs).
Proof.
  intros Hbody. revert P w. induction xs as [|x xs IH]; intros P w Hmgr Hnd Hn Ht Hl H; cbn [for_each] in H.
  - unfold ret in H. injection H as <- _. rewrite app_nil_r in Hl. cbn. rewrite app_nil_r. auto.
  - apply bind_ok_inv in H as (w1 & v1 & E1 & H).
    destruct (Hbody _ _ _ _ Hn Ht E1) as [Hdrop Hkeep].
    destruct (drop x) eqn:Ed.
    + destruct (teardown_ok _ _ _ _ (Hdrop eq_refl)) as (Hn1 & Ht1 & Hr).
      assert (Hm : node_manager_of_heap w x = cortex).
      { unfold node_manager_of_heap. rewrite Hn. apply Hmgr. set_solver. }
      rewrite Hm in Hr.
      destruct (remove_related_item_list _ _ _ _ _ Hr) as [_ Hl1].
      assert (Hx : x ∉ P) by (apply NoDup_app in Hnd as (_ & Hd & _); intros Hin; eapply Hd; [exact Hin|set_solver]).
      destruct (IH P w1) as (A & B & C).
      * intros n Hin. apply Hmgr. set_solver.
      * apply NoDup_app in Hnd as (H1 & H2 & H3). apply NoDup_app. split_and!; [exact H1| |].
        -- intros y Hy Hy'. eapply H2; [exact Hy|set_solver].
        -- apply NoDup_cons in H3 as [_ H3]. exact H3.
      * rewrite Hn1. exact Hn.
      * rewrite Ht1. exact Ht.
      * rewrite Hl1. destruct (node_manager_to_nodes (w_db w) !! cortex) as [e|]; [|discriminate].
        cbn in Hl |- *. injection Hl as ->. rewrite remove_first_middle by exact Hx. reflexivity.
      * exact H.
      * cbn. rewrite Ed. cbn. auto.
    + pose proof (Hkeep eq_refl) as ->.
      destruct (IH (P ++ [x]) w) as (A & B & C).
      * intros n Hin. apply Hmgr. set_solver.
      * rewrite <- app_assoc. exact Hnd.
      * exact Hn.
      * exact Ht.
      * rewrite <- app_assoc. exact Hl.
      * exact H.
      * cbn. rewrite Ed. cbn. rewrite <- app_assoc in C. auto.
Qed.

Lemma set_db_eta w : set_db (w_db w) w = w.
Proof. destruct w; reflexivity. Qed.

Lemma get_node_ok_inv n (w w' : World) o : get_node n w = (w', Ok o) -> w' = w /\ w_nodes w !! n = Some o.
Proof. unfold get_node. intros H. ok_inv H. auto. Qed.

(** X11: NodeManager._delete_new_items never changes the node objects, and it removes from the
    manager's node list exactly the nodes that are new, keeping the others in order. *)
Theorem delete_new_items_keeps_old_nodes cortex w w' u e :
  node_manager_to_nodes (w_db w) !! cortex = Some e -> NoDup (e_list e) ->
  (forall n, n ∈ e_list e -> node_manager_of_heap w n = cortex) ->
  _delete_new_items cortex w = (w', Ok u) ->
  w_nodes w' = w_nodes w /\
  option_map e_list (node_manager_to_nodes (w_db w') !! cortex) =
    Some (filter (fun n => negb (match w_nodes w !! n with Some o => is_new o | None => false end))
                 (e_list e)).
Proof.
  intros He Hnd Hmgr H. unfold _delete_new_items, nm_nodes in H.
  apply bind_ok_inv in H as (w1 & ns & E1 & H). apply bind_ok_inv in E1 as (w2 & e2 & E2 & E1).
  unfold on_db, on_nm2n, get in E2. rewrite He in E2. cbn in E2. injection E2 as <- <-. unfold ret in E1.
  injection E1 as <- <-. rewrite db_eta, set_db_eta in H.
  edestruct (delete_loop_list w (fun n => match w_nodes w !! n with Some o => is_new o | None => false end)
               (fun n => o <-- get_node n ;; if is_new o then teardown n else ret tt) cortex (e_list e) [] w w' u) as (A & _ & C).
  - intros n w1 w2 v Hn1 _ E. apply bind_ok_inv in E as (w3 & o & E3 & E).
    apply get_node_ok_inv in E3 as [-> Ho]. rewrite Hn1 in Ho. rewrite Ho.
    split; [intros Hd; rewrite Hd in E; exact E|intros Hd; rewrite Hd in E; unfold ret in E; congruence].
  - exact Hmgr.
  - exact Hnd.
  - reflexivity.
  - reflexivity.
  - rewrite He. reflexivity.
  - exact H.
  - split; [exact A|exact C].
Qed.

(** X12: NodeManager._delete_underutilized_items never changes the node objects, and it removes from
    the manager's node list exactly the nodes that are underutilized at the current timestep,
    keeping the others in order. *)
Theorem delete_underutilized_items_keeps_used_nodes cortex w w' u e :
  node_manager_to_nodes (w_db w) !! cortex = Some e -> NoDup (e_list e) ->
  (forall n, n ∈ e_list e -> node_manager_of_heap w n = cortex) ->
  _delete_underutilized_items cortex w = (w', Ok u) ->
  w_nodes w' = w_nodes w /\
  option_map e_list (node_manager_to_nodes (w_db w') !! cortex) =
    Some (filter (fun n => negb (match w_nodes w !! n with
                                 | Some o => node_is_underutilized (w_timestep w) o
                                 | None => false end))
                 (e_list e)).
Proof.
  intros He Hnd Hmgr H. unfold _delete_underutilized_items, nm_nodes in H.
  apply bind_ok_inv in H as (w1 & ns & E1 & H). apply bind_ok_inv in E1 as (w2 & e2 & E2 & E1).
  unfold on_db, on_nm2n, get in E2. rewrite He in E2. cbn in E2. injection E2 as <- <-. unfold ret in E1.
  injection E1 as <- <-. rewrite db_eta, set_db_eta in H.
  edestruct (delete_loop_list w
               (fun n => match w_nodes w !! n with
                         | Some o => node_is_underutilized (w_timestep w) o | None => false end)
               (fun n => o <-- get_node n ;; w <-- get_st ;;
                         if node_is_underutilized (w_timestep w) o then teardown n else ret tt)
               cortex (e_list e) [] w w' u) as (A & _ & C).
  - intros n w1 w2 v Hn1 Ht1 E. apply bind_ok_inv in E as (w3 & o & E3 & E).
    apply get_node_ok_inv in E3 as [-> Ho]. rewrite Hn1 in Ho. rewrite Ho.
    apply bind_ok_inv in E as (w4 & w5 & E4 & E). apply get_st_ok_inv in E4 as [-> ->].
    rewrite Ht1 in E.
    split; [intros Hd; rewrite Hd in E; exact E|intros Hd; rewrite Hd in E; unfold ret in E; congruence].
  - exact Hmgr.
  - exact Hnd.
  - reflexivity.
  - reflexivity.
  - rewrite He. reflexivity.
  - exact H.
  - split; [exact A|exact C].
Qed.

Lemma put_node_ok_inv n o (w w' : World) u :
  put_node n o w = (w', Ok u) -> w' = set_nodes (<[n := o]> (w_nodes w)) w.
Proof. unfold put_node, bind, get_st, put_st. intros H. congruence. Qed.

#[export] Instance same_timestep_refl : Reflexive same_timestep.
Proof. intros w. reflexivity. Qed.

#[export] Instance same_timestep_trans : Transitive same_timestep.
Proof. intros w1 w2 w3 A B. unfold same_timestep in *. congruence. Qed.

Lemma st_put_node n o : keeps same_timestep (put_node n o).
Proof. intros w w' r H. unfold put_node, bind, get_st, put_st in H. inversion H; subst. reflexivity. Qed.
Lemma st_bind {A B} (m : M World A) (k : A -> M World B) :
  keeps same_timestep m -> (forall a, keeps same_timestep (k a)) -> keeps same_timestep (bind m k).
Proof. apply keeps_bind; typeclasses eauto. Qed.
Lemma st_get_node n : keeps same_timestep (get_node n).
Proof.
  unfold get_node. apply st_bind; [apply keeps_get_st; typeclasses eauto|].
  intros w. apply keeps_of_option; typeclasses eauto.
Qed.

Lemma st_move_in_direction n d : keeps same_timestep (_move_in_direction n d).
Proof.
  unfold _move_in_direction.
  repeat (match goal with
          | |- keeps same_timestep (bind _ _) => apply st_bind; [|intro]
          | |- keeps same_timestep (match ?x with _ => _ end) => destruct x
          end || apply st_get_node || apply st_put_node
          || (apply keeps_of_option; typeclasses eauto) || (apply keeps_ret; typeclasses eauto)).
Qed.

(** X13: After a successful Node.learn the node's last_utilized is the current timestep, so the node
    is not underutilized at that timestep. *)
Theorem learning_node_is_not_underutilized norm n p w w' u :
  node_learn norm n p w = (w', Ok u) ->
  exists o, w_nodes w' !! n = Some o /\ last_utilized o = Some (w_timestep w) /\
            node_is_underutilized (w_timestep w') o = false.
Proof.
  intros H. unfold node_learn, get_distance in H.
  apply bind_ok_inv in H as (w1 & r & E1 & H). ok_inv E1. apply get_node_ok_inv in H0 as [-> _].
  apply bind_ok_inv in H as (w2 & u2 & E2 & H).
  pose proof (st_move_in_direction _ _ _ _ _ E2) as Ht2. unfold same_timestep in Ht2.
  apply bind_ok_inv in H as (w3 & o & E3 & H). apply get_node_ok_inv in E3 as [-> _].
  apply bind_ok_inv in H as (w4 & w5 & E4 & H). apply get_st_ok_inv in E4 as [-> ->].
  apply put_node_ok_inv in H as ->.
  eexists. cbn. rewrite lookup_insert_eq. split_and!; [reflexivity|cbn; rewrite Ht2; reflexivity|].
  unfold node_is_underutilized. cbn. apply Z.leb_gt. unfold NODE_REQUIRED_UTILIZATION. lia.
Qed.

Lemma on_db_get_n2c_ok k (w w' : World) e :
  on_db (on_n2c (get k)) w = (w', Ok e) -> w' = w /\ nodes_to_clusters (w_db w) !! k = Some e.
Proof.
  unfold on_db, on_n2c, get. destruct (nodes_to_clusters (w_db w) !! k) eqn:E; intros H; inversion H; subst.
  rewrite db_eta, set_db_eta. auto.
Qed.

Lemma on_db_get_c2n_ok k (w w' : World) e :
  on_db (on_c2n (get k)) w = (w', Ok e) -> w' = w /\ clusters_to_nodes (w_db w) !! k = Some e.
Proof.
  unfold on_db, on_c2n, get. destruct (clusters_to_nodes (w_db w) !! k) eqn:E; intros H; inversion H; subst.
  rewrite db_eta, set_db_eta. auto.
Qed.



Lemma map_fst_conn_add k v conns :
  map fst (conn_add k v conns) = if decide (k ∈ map fst conns) then map fst conns else map fst conns ++ [k].
Proof.
  induction conns as [|[k' x] conns IH]; cbn.
  - destruct (decide (k ∈ [])); [set_solver|reflexivity].
  - destruct (String.eqb_spec k k') as [->|Hne].
    + destruct (decide (k' ∈ k' :: map fst conns)); [reflexivity|set_solver].
    + cbn. rewrite IH. destruct (decide (k ∈ map fst conns)), (decide (k ∈ k' :: map fst conns));
        try reflexivity; set_solver.
Qed.

Lemma map_fst_cc_normalize conns : map fst (cc_normalize conns) = map fst conns.
Proof.
  unfold cc_normalize. destruct (Qlt_le_dec _ _); [|reflexivity].
  rewrite map_map. cbn. reflexivity.
Qed.

Lemma key_set_spec k ks : forall x, x ∈ key_set k ks <-> x = k \/ x ∈ ks.
Proof. intros x. unfold key_set. destruct (decide (k ∈ ks)); set_solver. Qed.

Lemma key_set_NoDup k ks : NoDup ks -> NoDup (key_set k ks).
Proof.
  intros H. unfold key_set. destruct (decide (k ∈ ks)); [exact H|].
  apply NoDup_app. split_and!; [exact H| |apply NoDup_singleton]. set_solver.
Qed.

Lemma cc_update_ok_inv cc q p w w' cc' :
  cc_update cc q p w = (w', Ok cc') ->
  exists v, cc' = mkCC (cc_cluster cc) (cc_age cc + 1)
                       (cc_normalize (conn_add (pk_cluster p) v (connections cc)))
                       (key_set (pk_cluster p) (cluster_objects cc)) (ref_clusters cc).
Proof.
  intros H. unfold cc_update in H. ok_inv H.
  repeat match goal with
  | Hx : packet_cortex _ _ = (_, Ok _) |- _ => unfold packet_cortex, get_cluster in Hx; ok_inv Hx
  | Hx : get_cdz _ = (_, Ok _) |- _ => unfold get_cdz in Hx; ok_inv Hx
  end.
  eexists. reflexivity.
Qed.

Lemma cc_wf_new c : cc_wf (new_cluster_correlation c).
Proof. unfold cc_wf. cbn. split_and!; [constructor|constructor|set_solver]. Qed.

Lemma cc_wf_update cc q p w w' cc' :
  cc_wf cc -> cc_update cc q p w = (w', Ok cc') -> cc_wf cc'.
Proof.
  intros (H1 & H2 & H3) H. apply cc_update_ok_inv in H as [v ->]. unfold cc_wf. cbn.
  rewrite map_fst_cc_normalize, map_fst_conn_add. split_and!.
  - destruct (decide _); [exact H1|]. apply NoDup_app. split_and!; [exact H1| |apply NoDup_singleton]. set_solver.
  - apply key_set_NoDup. exact H2.
  - intros k Hk. apply key_set_spec. destruct (decide _); [right; apply H3; exact Hk|].
    apply elem_of_app in Hk as [Hk|Hk]; [right; apply H3; exact Hk|left; set_solver].
Qed.

Lemma cc_wf_add_ref cc c : cc_wf cc -> cc_wf (cc_add_ref cc c).
Proof. unfold cc_add_ref. destruct (decide _); [auto|]. unfold cc_wf. cbn. auto. Qed.

Lemma map_fst_filter_not c (conns : list (string * Q)) :
  map fst (filter (fun kv => negb (String.eqb (fst kv) c)) conns) =
  filter (fun k => negb (String.eqb k c)) (map fst conns).
Proof.
  induction conns as [|[k x] conns IH]; [reflexivity|].
  cbn [map]. rewrite !filter_cons. cbn [fst]. destruct (decide _); cbn [map]; rewrite IH; reflexivity.
Qed.

Lemma cc_wf_remove_cluster cc c cc' :
  cc_wf cc -> cc_remove_cluster cc c = Some cc' ->
  cc_wf cc' /\ (c ∉ map fst (connections cc')) /\ (c ∉ cluster_objects cc').
Proof.
  intros (H1 & H2 & H3) H. unfold cc_remove_cluster in H.
  destruct (decide _); [|discriminate]. destruct (decide _); [|discriminate].
  injection H as <-. unfold cc_wf. cbn. rewrite map_fst_cc_normalize, map_fst_filter_not.
  split_and!.
  - apply NoDup_filter. exact H1.
  - apply NoDup_filter. exact H2.
  - intros k Hk. apply list_elem_of_filter in Hk as [Hk Hin].
    apply list_elem_of_filter. split; [exact Hk|]. apply H3. exact Hin.
  - intros Hk. apply list_elem_of_filter in Hk as [Hk _]. rewrite String.eqb_refl in Hk. exact Hk.
  - intros Hk. apply list_elem_of_filter in Hk as [Hk _]. rewrite String.eqb_refl in Hk. exact Hk.
Qed.

Lemma conn_argmax_fold (conns : list (string * Q)) best :
  let r := fold_left (fun best kv' => if Qlt_le_dec (snd best) (snd kv') then kv' else best) conns best in
  (r = best \/ r ∈ conns) /\ snd best <= snd r /\ forall kv, kv ∈ conns -> snd kv <= snd r.
Proof.
  revert best. induction conns as [|kv conns IH]; intros best; cbn [fold_left].
  - split_and!; [left; reflexivity|apply Qle_refl|intros kv Hkv; set_solver].
  - destruct (Qlt_le_dec (snd best) (snd kv)) as [Hlt|Hle].
    + destruct (IH kv) as (Hr & Hb & Hall). split_and!.
      * right. destruct Hr as [->|Hr]; set_solver.
      * apply Qlt_le_weak. eapply Qlt_le_trans; [exact Hlt|exact Hb].
      * intros kv' Hkv'. apply elem_of_cons in Hkv' as [->|Hkv']; [exact Hb|exact (Hall _ Hkv')].
    + destruct (IH best) as (Hr & Hb & Hall). split_and!.
      * destruct Hr as [->|Hr]; [left; reflexivity|right; set_solver].
      * exact Hb.
      * intros kv' Hkv'. apply elem_of_cons in Hkv' as [->|Hkv']; [|exact (Hall _ Hkv')].
        eapply Qle_trans; [exact Hle|exact Hb].
Qed.

Lemma conn_argmax_spec conns kv :
  conn_argmax conns = Some kv -> kv ∈ conns /\ forall kv', kv' ∈ conns -> snd kv' <= snd kv.
Proof.
  destruct conns as [|kv0 conns]; cbn; [discriminate|]. intros H. injection H as <-.
  destruct (conn_argmax_fold conns kv0) as (Hr & Hb & Hall). split.
  - destruct Hr as [->|Hr]; set_solver.
  - intros kv' Hkv'. apply elem_of_cons in Hkv' as [->|Hkv']; [exact Hb|exact (Hall _ Hkv')].
Qed.

Lemma get_strongest_correlation_ok cc (w : World) :
  cc_wf cc -> connections cc <> [] ->
  exists kv, get_strongest_correlation cc w = (w, Ok kv) /\ kv ∈ connections cc /\
             forall kv', kv' ∈ connections cc -> snd kv' <= snd kv.
Proof.
  intros (_ & _ & Htr) Hne. unfold get_strongest_correlation.
  destruct (conn_argmax (connections cc)) as [kv|] eqn:E.
  - destruct (conn_argmax_spec _ _ E) as [Hin Hmax]. exists kv. split_and!; [|exact Hin|exact Hmax].
    cbn [of_option]. unfold bind at 1, ret at 1. destruct (decide (fst kv ∈ cluster_objects cc)) as [_|Hn].
    + reflexivity.
    + exfalso. apply Hn, Htr. apply list_elem_of_fmap. eauto.
  - destruct (connections cc); [congruence|discriminate].
Qed.

#[export] Instance same_corr_refl : Reflexive same_corr.
Proof. intros w. reflexivity. Qed.

#[export] Instance same_corr_trans : Transitive same_corr.
Proof. intros w1 w2 w3 A B. unfold same_corr in *. congruence. Qed.

Create HintDb corr.

Lemma sc_put_node n o : keeps same_corr (put_node n o).
Proof. intros w w' r H. unfold put_node, bind, get_st, put_st in H. inversion H; subst. reflexivity. Qed.
Lemma sc_put_nm c o : keeps same_corr (put_nm c o).
Proof. intros w w' r H. unfold put_nm, bind, get_st, put_st in H. inversion H; subst. reflexivity. Qed.
Lemma sc_put_cluster c o : keeps same_corr (put_cluster c o).
Proof. intros w w' r H. unfold put_cluster, bind, get_st, put_st in H. inversion H; subst. reflexivity. Qed.
Lemma sc_on_db {A} (m : M DB A) : keeps same_corr (on_db m).
Proof. intros w w' r H. unfold on_db in H. destruct (m (w_db w)). inversion H; subst. reflexivity. Qed.
Lemma sc_get_st : keeps same_corr get_st.
Proof. apply keeps_get_st; typeclasses eauto. Qed.
Lemma sc_ret {A} (a : A) : keeps same_corr (ret a).
Proof. apply keeps_ret; typeclasses eauto. Qed.
Lemma sc_raise {A} e : keeps same_corr (@raise World A e).
Proof. intros w w' r H. inversion H; subst. reflexivity. Qed.
Lemma sc_of_option {A} e (o : option A) : keeps same_corr (of_option e o).
Proof. apply keeps_of_option; typeclasses eauto. Qed.
Lemma sc_assert b : keeps same_corr (@assert_ World b).
Proof. destruct b; [apply sc_ret|apply sc_raise]. Qed.
Lemma sc_bind {A B} (m : M World A) (k : A -> M World B) :
  keeps same_corr m -> (forall a, keeps same_corr (k a)) -> keeps same_corr (bind m k).
Proof. apply keeps_bind; typeclasses eauto. Qed.
Lemma sc_if {A} (b : bool) (m1 m2 : M World A) :
  keeps same_corr m1 -> keeps same_corr m2 -> keeps same_corr (if b then m1 else m2).
Proof. destruct b; auto. Qed.

#[export] Hint Resolve sc_put_node sc_put_nm sc_put_cluster sc_on_db sc_get_st sc_ret
  sc_raise sc_of_option sc_assert : corr.

Ltac solve_sc :=
  repeat (match goal with
          | |- keeps same_corr (bind _ _) => apply sc_bind; [|intro]
          | |- keeps same_corr (if _ then _ else _) => apply sc_if
          | |- keeps same_corr (match ?x with _ => _ end) => destruct x
          | |- keeps same_corr (let _ := _ in _) => cbv zeta
          end || eauto with corr).

Lemma sc_get_node n : keeps same_corr (get_node n).
Proof. unfold get_node. solve_sc. Qed.
Lemma sc_get_nm c : keeps same_corr (get_nm c).
Proof. unfold get_nm. solve_sc. Qed.
Lemma sc_get_cluster c : keeps same_corr (get_cluster c).
Proof. unfold get_cluster. solve_sc. Qed.
Lemma sc_get_cdz : keeps same_corr get_cdz.
Proof. unfold get_cdz. solve_sc. Qed.

#[export] Hint Resolve sc_get_node sc_get_nm sc_get_cluster sc_get_cdz : corr.

Lemma sc_lookup_cc c : keeps same_corr (lookup_cc c).
Proof. unfold lookup_cc. solve_sc. Qed.
Lemma sc_get_strongest_correlation cc : keeps same_corr (get_strongest_correlation cc).
Proof. unfold get_strongest_correlation. solve_sc. Qed.
Lemma sc_node_certainty n : keeps same_corr (node_certainty n).
Proof. unfold node_certainty, node_uncertainty. solve_sc. Qed.

#[export] Hint Resolve sc_lookup_cc sc_get_strongest_correlation sc_node_certainty : corr.

Lemma sc_cc_certainty cc : keeps same_corr (cc_certainty cc).
Proof. unfold cc_certainty, cc_uncertainty. solve_sc. Qed.
Lemma sc_cluster_receive_feedback_packet c p : keeps same_corr (cluster_receive_feedback_packet c p).
Proof.
  unfold cluster_receive_feedback_packet, nm_receive_feedback_packet, node_receive_feedback_packet.
  solve_sc.
Qed.

#[export] Hint Resolve sc_cc_certainty sc_cluster_receive_feedback_packet : corr.

Lemma sc_send_feedback_packet p : keeps same_corr (_send_feedback_packet p).
Proof. unfold _send_feedback_packet. solve_sc. Qed.

Lemma keeps_corr_preserves {A} (m : M World A) : keeps same_corr m -> preserves cdz_wf m.
Proof. intros Hk w w' a Hw H. unfold cdz_wf. rewrite (Hk _ _ _ H). exact Hw. Qed.

Lemma put_cc_ok_inv name cc (w w' : World) u :
  put_cc name cc w = (w', Ok u) ->
  correlations (w_cdz w') = <[name := cc]> (correlations (w_cdz w)).
Proof. unfold put_cc, put_cdz, get_cdz, bind, get_st, ret, put_st. intros H. inversion H; subst. reflexivity. Qed.

Lemma lookup_cc_ok_inv name (w w' : World) cc :
  lookup_cc name w = (w', Ok cc) -> w' = w /\ correlations (w_cdz w) !! name = Some cc.
Proof. unfold lookup_cc, get_cdz. intros H. ok_inv H. auto. Qed.

Lemma put_cc_wf name cc : cc_wf cc -> preserves cdz_wf (put_cc name cc).
Proof.
  intros Hcc w w' u Hw H. unfold cdz_wf. rewrite (put_cc_ok_inv _ _ _ _ _ H).
  apply map_Forall_insert_2; [exact Hcc|exact Hw].
Qed.

Lemma ensure_cc_wf name : preserves cdz_wf (ensure_cc name).
Proof.
  intros w w' u Hw H. unfold ensure_cc, get_cdz in H. ok_inv H.
  destruct (correlations (w_cdz w) !! name).
  - ok_inv H. exact Hw.
  - eapply put_cc_wf; [apply cc_wf_new|exact Hw|exact H].
Qed.

Lemma sc_packet_cortex p : keeps same_corr (packet_cortex p).
Proof. unfold packet_cortex. solve_sc. Qed.

Lemma cc_update_keeps_corr cc q p : keeps same_corr (cc_update cc q p).
Proof. unfold cc_update. solve_sc; apply sc_packet_cortex. Qed.

Lemma update_connection_wf q p : preserves cdz_wf (_update_connection q p).
Proof.
  intros w w' u Hw H. unfold _update_connection in H.
  apply bind_ok_inv in H as (w1 & nc & E1 & H). apply sc_packet_cortex in E1.
  apply bind_ok_inv in H as (w2 & oc & E2 & H). apply sc_packet_cortex in E2.
  assert (Hw2 : cdz_wf w2) by (unfold cdz_wf in *; rewrite E2, E1; exact Hw).
  clear Hw E1 E2. destruct (String.eqb nc oc).
  - unfold ret in H. injection H as <- _. exact Hw2.
  - apply bind_ok_inv in H as (w3 & u3 & E3 & H). pose proof (ensure_cc_wf _ _ _ _ Hw2 E3) as Hw3.
    apply bind_ok_inv in H as (w4 & u4 & E4 & H). pose proof (ensure_cc_wf _ _ _ _ Hw3 E4) as Hw4.
    apply bind_ok_inv in H as (w5 & cc & E5 & H). apply lookup_cc_ok_inv in E5 as [-> Hcc].
    apply bind_ok_inv in H as (w6 & cc' & E6 & H).
    pose proof (cc_wf_update _ _ _ _ _ _ (Hw4 _ _ Hcc) E6) as Hcc'.
    apply cc_update_keeps_corr in E6.
    assert (Hw6 : cdz_wf w6) by (unfold cdz_wf in *; rewrite E6; exact Hw4).
    apply bind_ok_inv in H as (w7 & u7 & E7 & H). pose proof (put_cc_wf _ _ Hcc' _ _ _ Hw6 E7) as Hw7.
    apply bind_ok_inv in H as (w8 & ccn & E8 & H). apply lookup_cc_ok_inv in E8 as [-> Hccn].
    exact (put_cc_wf _ _ (cc_wf_add_ref _ _ (Hw7 _ _ Hccn)) _ _ _ Hw7 H).
Qed.

Lemma scan_queue_wf packet learn queue : preserves cdz_wf (scan_queue packet learn queue).
Proof.
  induction queue as [|q queue IH]; cbn [scan_queue]; [apply preserves_ret|].
  apply preserves_if; [apply preserves_ret|]. apply preserves_bind; [|intros _; exact IH].
  apply preserves_if; [|apply preserves_ret].
  apply preserves_bind; [apply update_connection_wf|intros _].
  apply preserves_bind; [apply update_connection_wf|intros _].
  apply preserves_bind; [apply keeps_corr_preserves, sc_send_feedback_packet|intros _].
  apply keeps_corr_preserves, sc_send_feedback_packet.
Qed.

Lemma receive_packet_wf packet learn : preserves cdz_wf (receive_packet packet learn).
Proof.
  unfold receive_packet. apply preserves_bind; [apply keeps_corr_preserves, sc_get_cdz|intros z].
  apply preserves_bind; [apply scan_queue_wf|intros _].
  intros w w' u Hw H. unfold _process_output, get_cdz, put_cdz, bind, get_st, ret, put_st in H.
  inversion H; subst. exact Hw.
Qed.

Lemma remove_cluster_wf c : preserves cdz_wf (remove_cluster c).
Proof.
  intros w w' u Hw H. unfold remove_cluster, get_cdz at 1 in H. ok_inv H.
  destruct (correlations (w_cdz w) !! c) as [cc|] eqn:Ec; [|ok_inv H; exact Hw].
  apply bind_ok_inv in H as (w1 & u1 & E1 & H).
  assert (Hw1 : cdz_wf w1).
  { refine (preserves_for_each _ _ _ _ _ _ _ Hw E1). intros x v1 v2 b Hv E.
    apply bind_ok_inv in E as (v3 & ecc & E3 & E). apply lookup_cc_ok_inv in E3 as [-> Hecc].
    apply bind_ok_inv in E as (v4 & refs & E4 & E). ok_inv E4.
    eapply put_cc_wf; [|exact Hv|exact E].
    destruct (Hv _ _ Hecc) as (A & B & C). split_and!; assumption. }
  apply bind_ok_inv in H as (w2 & u2 & E2 & H).
  assert (Hw2 : cdz_wf w2).
  { refine (preserves_for_each _ _ _ _ _ _ _ Hw1 E2). intros x v1 v2 b Hv E.
    apply bind_ok_inv in E as (v3 & ecc & E3 & E). apply lookup_cc_ok_inv in E3 as [-> Hecc].
    apply bind_ok_inv in E as (v4 & ecc' & E4 & E). ok_inv E4.
    eapply put_cc_wf; [|exact Hv|exact E].
    exact (proj1 (cc_wf_remove_cluster _ _ _ (Hv _ _ Hecc) E3)). }
  unfold get_cdz, put_cdz, bind, get_st, ret, put_st in H. inversion H; subst.
  unfold cdz_wf. cbn. apply map_Forall_delete. exact Hw2.
Qed.

Lemma list_max_fold_in (l : list Q) x :
  fold_left (fun m y => if Qlt_le_dec m y then y else m) l x ∈ x :: l.
Proof.
  revert x. induction l as [|y l IH]; intros x; cbn; [set_solver|].
  destruct (Qlt_le_dec x y); [pose proof (IH y)|pose proof (IH x)]; set_solver.
Qed.

Lemma list_max_in (l : list Q) mx : list_max l = Some mx -> mx ∈ l.
Proof.
  destruct l as [|x l]; cbn; [discriminate|]. intros H; injection H as <-. apply list_max_fold_in.
Qed.

Lemma feedback_scale_unit (q f : Z) : (0 <= q)%Z -> (0 < f)%Z ->
  0 <= Qmin (inject_Z q / inject_Z f) 1 <= 1.
Proof.
  intros Hq Hf. split; [|apply Q.le_min_r].
  apply Q.min_glb; [|lra].
  assert (0 <= inject_Z q) by (change 0 with (inject_Z 0); rewrite <- Zle_Qle; exact Hq).
  assert (0 < inject_Z f) by (change 0 with (inject_Z 0); rewrite <- Zlt_Qlt; exact Hf).
  unfold Qdiv. apply Qmult_le_0_compat; [lra|]. apply Qlt_le_weak, Qinv_lt_0_compat; lra.
Qed.

Lemma certainty_unit m f : 0 <= m <= 1 -> 0 <= f <= 1 ->
  Qle_bool 0 (m ^ 2 * f) && Qle_bool (m ^ 2 * f) 1 = true /\ 0 <= 1 - m ^ 2 * f <= 1.
Proof.
  intros [Hm0 Hm1] [Hf0 Hf1].
  assert (0 <= m ^ 2 * f /\ m ^ 2 * f <= 1) as [Hc0 Hc1] by (cbn; split; nra).
  split; [|split; lra]. apply andb_true_iff; split; apply Qle_bool_iff; assumption.
Qed.

Lemma node_uncertainty_ok n (w : World) e o :
  nodes_to_clusters (w_db w) !! n = Some e -> w_nodes w !! n = Some o ->
  e_strengths e <> [] -> Forall (fun s => 0 <= s <= 1) (e_strengths e) ->
  (0 <= qty_feedback_packets o)%Z ->
  exists u, node_uncertainty n w = (w, Ok u) /\ 0 <= u <= 1.
Proof.
  intros He Ho Hne Hs Hq.
  destruct (list_max (e_strengths e)) as [mx|] eqn:Em.
  2:{ destruct (e_strengths e); [congruence|discriminate]. }
  pose proof (list_max_in _ _ Em) as Hin. rewrite Forall_forall in Hs.
  destruct (certainty_unit mx (Qmin (inject_Z (qty_feedback_packets o) / inject_Z NODE_CERTAINTY_AGE_FACTOR) 1))
    as [Hc Hu]; [exact (Hs _ Hin)|apply feedback_scale_unit; [exact Hq|reflexivity]|].
  eexists; split; [|exact Hu].
  unfold node_uncertainty, on_db, on_n2c, get, get_node, bind, get_st, of_option, assert_, ret.
  rewrite He. cbn [fst snd]. rewrite db_eta, set_db_eta, Ho, Em. cbv beta iota zeta. rewrite Hc. reflexivity.
Qed.

Lemma cc_uncertainty_ok cc (w : World) :
  cc_wf cc -> connections cc <> [] -> Forall (fun kv => 0 <= snd kv <= 1) (connections cc) ->
  (0 <= cc_age cc)%Z ->
  exists u, cc_uncertainty cc w = (w, Ok u) /\ 0 <= u <= 1.
Proof.
  intros Hwf Hne Hs Ha.
  destruct (get_strongest_correlation_ok cc w Hwf Hne) as (kv & Hg & Hin & _).
  rewrite Forall_forall in Hs.
  destruct (certainty_unit (snd kv) (Qmin (inject_Z (cc_age cc) / inject_Z CE_CERTAINTY_AGE_FACTOR) 1))
    as [Hc Hu]; [exact (Hs _ Hin)|apply feedback_scale_unit; [exact Ha|reflexivity]|].
  eexists; split; [|exact Hu].
  unfold cc_uncertainty, bind at 1. rewrite Hg. cbv beta iota zeta.
  unfold bind, assert_, ret. rewrite Hc. reflexivity.
Qed.

Lemma db0_consistent : db_consistent db0.
Proof.
  unfold db_consistent, db0, tbl_inv. cbn. split_and!.
  - apply map_Forall_empty.
  - apply map_Forall_empty.
  - apply map_Forall_insert_2; [|apply map_Forall_empty].
    unfold entry_inv. cbn. split_and!; [constructor|reflexivity|congruence].
  - intros n c. unfold is_related. rewrite !lookup_empty. reflexivity.
Qed.

Lemma add_related_item_append_kept_on_normalize_error_witness :
  add_related_item "A" "m" (-1) None (<["A" := mkEntry ["n"] [1] [None] [1%Z]]> ∅) =
    (<["A" := mkEntry ["n"; "m"] [1; -1] [None; None] [1%Z; 1%Z]]> (<["A" := mkEntry ["n"] [1] [None] [1%Z]]> ∅),
     Err (Exception "Cannot normalize a list with a total of zero or less.")).
Proof.
  apply (add_related_item_append_kept_on_normalize_error _ "A" "m" (-1) None (mkEntry ["n"] [1] [None] [1%Z])).
  - reflexivity.
  - cbn. set_solver.
  - apply Qle_bool_iff. reflexivity.
Defined.


Lemma remove_related_item_not_related_witness :
  remove_related_item "A" "x" t_nm = (t_nm, Err ValueError).
Proof. apply (remove_related_item_not_related t_nm "A" "x"). reflexivity. Defined.

Lemma increase_relationship_strength_not_related_witness :
  increase_relationship_strength "A" "x" 1 None t_nm = (t_nm, Err AssertionError).
Proof. apply (increase_relationship_strength_not_related t_nm "A" "x" 1 None). reflexivity. Defined.

Lemma last_removal_lists_item_without_related_witness :
  "A" ∈ get_items_without_related_items (fst (remove_related_item "A" "n" t_n)).
Proof.
  apply (proj2 (last_removal_lists_item_without_related t_n (fst (remove_related_item "A" "n" t_n)) "A" "n" (mkEntry ["n"] [1] [None] [1%Z])
                  eq_refl eq_refl ltac:(vm_compute; reflexivity) "A")).
  left. reflexivity.
Defined.

Lemma run_ops_consistent mgr ops d d' u :
  Forall (fun op => forall tn k r, op <> OpRemoveRelatedItem tn k r) ops ->
  db_consistent d -> for_each (run_op mgr) ops d = (d', Ok u) -> db_consistent d'.
Proof.
  intros Hops. revert d. induction Hops as [|op ops Hop Hops IH]; intros d Hd H; cbn in H.
  - unfold ret in H. injection H as <- _. exact Hd.
  - apply bind_ok_inv in H as (d1 & u1 & E1 & H).
    exact (IH d1 (run_op_consistent mgr op d d1 u1 Hop Hd E1) H).
Qed.

(** X8: Any successful sequence of Database operations (add_node, adjust_node_to_cluster_strength,
    adjust_cluster_to_node_strength, delete_node, _delete_cluster) from a consistent database keeps
    the entries well formed and the two relation tables mirror images of each other, so
    verify_data_integrity then passes without changing the database. *)
Theorem database_ops_pass_verify items mgr ops d d' u :
  (forall t, items t ≡ₚ map_to_list t) ->
  Forall (fun op => forall tn k r, op <> OpRemoveRelatedItem tn k r) ops ->
  db_consistent d -> for_each (run_op mgr) ops d = (d', Ok u) ->
  db_consistent d' /\ verify_data_integrity items d' = (d', Ok tt).
Proof.
  intros Hp Hops Hd H. pose proof (run_ops_consistent mgr ops d d' u Hops Hd H) as Hd'.
  split; [exact Hd'|exact (consistent_verify_ok items d' Hp Hd')].
Qed.

Lemma database_ops_pass_verify_witness :
  db_consistent db1 /\ verify_data_integrity map_to_list db1 = (db1, Ok tt).
Proof.
  apply (database_ops_pass_verify map_to_list mgrA fixture_ops db0 db1 tt).
  - intros t. reflexivity.
  - repeat constructor; intros ? ? ?; discriminate.
  - exact db0_consistent.
  - vm_compute. reflexivity.
Defined.

(** X9: A passing Database.verify_data_integrity leaves the database unchanged and guarantees that
    every entry of the three tables has as many strengths as related items with a sum in (0.99,
    1.01] when non-empty, and that node n relates to cluster c exactly when c relates to n. *)
Theorem verify_data_integrity_sound items d d' u :
  (forall t, items t ≡ₚ map_to_list t) ->
  verify_data_integrity items d = (d', Ok u) ->
  d' = d /\
  map_Forall (fun _ => entry_checked) (nodes_to_clusters d) /\
  map_Forall (fun _ => entry_checked) (clusters_to_nodes d) /\
  map_Forall (fun _ => entry_checked) (node_manager_to_nodes d) /\
  forall n c, is_related n c (nodes_to_clusters d) = true <-> is_related c n (clusters_to_nodes d) = true.
Proof. apply verify_sound. Qed.

Lemma verify_data_integrity_sound_witness :
  verify_data_integrity map_to_list db1 = (db1, Ok tt) /\
  map_Forall (fun _ => entry_checked) (clusters_to_nodes db1).
Proof.
  assert (Hv : verify_data_integrity map_to_list db1 = (db1, Ok tt)) by (vm_compute; reflexivity).
  destruct (verify_data_integrity_sound map_to_list db1 db1 tt) as (_ & _ & H & _).
  - intros t. reflexivity.
  - exact Hv.
  - split; [exact Hv|exact H].
Defined.

(** X10: CDZ.receive_packet never changes the Gaussian kernel; when it succeeds the packet queue
    becomes the new packet in front of the old queue cut to PACKET_QUEUE_LENGTH, and when it raises
    the queue is left unchanged. *)
Theorem receive_packet_queue packet learn w w' r :
  receive_packet packet learn w = (w', r) ->
  GAUSSIAN (w_cdz w') = GAUSSIAN (w_cdz w) /\
  match r with
  | Ok _ => packet_queue (w_cdz w') =
              firstn (PACKET_QUEUE_LENGTH (w_cdz w)) (packet :: packet_queue (w_cdz w))
  | Err _ => packet_queue (w_cdz w') = packet_queue (w_cdz w)
  end.
Proof. apply receive_packet_queue_step. Qed.

Lemma receive_packet_queue_witness :
  packet_queue (w_cdz (fst (receive_packet p_bell true w_bell))) =
    firstn (PACKET_QUEUE_LENGTH (w_cdz w_bell)) [p_bell; q_bell] /\
  packet_queue (w_cdz (fst (receive_packet p_same_stream true w_same_stream))) = [q_same_stream].
Proof.
  split.
  - exact (proj2 (receive_packet_queue p_bell true w_bell (fst (receive_packet p_bell true w_bell)) (Ok tt) ltac:(vm_compute; reflexivity))).
  - exact (proj2 (receive_packet_queue p_same_stream true w_same_stream
                    (fst (receive_packet p_same_stream true w_same_stream)) (Err KeyError)
                    ltac:(vm_compute; reflexivity))).
Defined.

Lemma delete_new_items_keeps_old_nodes_witness :
  w_nodes (fst (_delete_new_items "A" w_cleanup)) = w_nodes w_cleanup /\
  option_map e_list (node_manager_to_nodes (w_db (fst (_delete_new_items "A" w_cleanup))) !! "A") =
    Some ["n2"].
Proof.
  destruct (delete_new_items_keeps_old_nodes "A" w_cleanup (fst (_delete_new_items "A" w_cleanup)) tt
              e_cortex_A) as [H1 H2].
  - vm_compute. reflexivity.
  - apply (bool_decide_unpack _). vm_compute. reflexivity.
  - apply Forall_forall. repeat constructor.
  - vm_compute. reflexivity.
  - split; [exact H1|]. rewrite H2. vm_compute. reflexivity.
Defined.

Lemma delete_underutilized_items_keeps_used_nodes_witness :
  w_nodes (fst (_delete_underutilized_items "A" w_cleanup)) = w_nodes w_cleanup /\
  option_map e_list (node_manager_to_nodes (w_db (fst (_delete_underutilized_items "A" w_cleanup))) !! "A") =
    Some ["n2"].
Proof.
  destruct (delete_underutilized_items_keeps_used_nodes "A" w_cleanup
              (fst (_delete_underutilized_items "A" w_cleanup)) tt e_cortex_A) as [H1 H2].
  - vm_compute. reflexivity.
  - apply (bool_decide_unpack _). vm_compute. reflexivity.
  - apply Forall_forall. repeat constructor.
  - vm_compute. reflexivity.
  - split; [exact H1|]. rewrite H2. vm_compute. reflexivity.
Defined.

Lemma learning_node_is_not_underutilized_witness :
  exists o, w_nodes (fst (node_learn sq_norm "n1" [1] w_fresh_node)) !! "n1" = Some o /\
            last_utilized o = Some 0%Z /\
            node_is_underutilized (w_timestep (fst (node_learn sq_norm "n1" [1] w_fresh_node))) o = false.
Proof.
  exact (learning_node_is_not_underutilized sq_norm "n1" [1] w_fresh_node
           (fst (node_learn sq_norm "n1" [1] w_fresh_node)) tt ltac:(vm_compute; reflexivity)).
Defined.





Lemma cc_two_wf : cc_wf cc_two.
Proof.
  unfold cc_wf, cc_two. cbn. split_and!.
  - apply (bool_decide_unpack _). vm_compute. reflexivity.
  - apply (bool_decide_unpack _). vm_compute. reflexivity.
  - intros k Hk. exact Hk.
Qed.

(** X17: On a well-formed correlation record with a non-empty connections dict,
    get_strongest_correlation never raises: it returns, without changing state, a connection of
    maximal weight. *)
Theorem strongest_correlation_never_keyerror cc (w : World) :
  cc_wf cc -> connections cc <> [] ->
  exists kv, get_strongest_correlation cc w = (w, Ok kv) /\ kv ∈ connections cc /\
             forall kv', kv' ∈ connections cc -> snd kv' <= snd kv.
Proof. apply get_strongest_correlation_ok. Qed.

Lemma strongest_correlation_never_keyerror_witness :
  exists kv, get_strongest_correlation cc_two w_bell = (w_bell, Ok kv) /\ kv ∈ connections cc_two.
Proof.
  destruct (strongest_correlation_never_keyerror cc_two w_bell cc_two_wf ltac:(discriminate))
    as (kv & H1 & H2 & _).
  exists kv. auto.
Defined.





(** X20: ClusterCorrelation.uncertainty succeeds without changing state and lies in [0, 1] (and
    certainty is 1 minus it) on a well-formed record with non-empty connections, weights in [0, 1]
    and non-negative age. *)
Theorem cc_uncertainty_in_unit_interval cc (w : World) :
  cc_wf cc -> connections cc <> [] -> Forall (fun kv => 0 <= snd kv <= 1) (connections cc) ->
  (0 <= cc_age cc)%Z ->
  exists u, cc_uncertainty cc w = (w, Ok u) /\ cc_certainty cc w = (w, Ok (1 - u)) /\ 0 <= u <= 1.
Proof.
  intros Hwf Hne Hs Ha. destruct (cc_uncertainty_ok cc w Hwf Hne Hs Ha) as (u & Hu & Hb).
  exists u. split; [exact Hu|split; [|exact Hb]].
  unfold cc_certainty, bind at 1. rewrite Hu. reflexivity.
Qed.

Lemma cc_uncertainty_in_unit_interval_witness :
  exists u, cc_uncertainty cc_two w_bell = (w_bell, Ok u) /\ 0 <= u <= 1.
Proof.
  destruct (cc_uncertainty_in_unit_interval cc_two w_bell cc_two_wf) as (u & H1 & _ & H3).
  - discriminate.
  - repeat constructor; discriminate.
  - cbn. lia.
  - exists u. auto.
Defined.
